(** * MelodiQ server: the GameManager service

    A shallow embedding of [services/GameManager.ts] (lobby registry, round
    state machine, scoring and guess matching) together with the types of
    [types/index.ts], and the properties the design document states about
    them.

    Modelling conventions.
    - A JavaScript string is the list of its UTF-16 code units ([jsstring]).
      Regular expressions without the [u] flag work on code units, and so do
      [length], indexing and [===].
    - [String.prototype.toLowerCase] and [toUpperCase] are the Unicode case
      mappings of the runtime.  They are kept abstract in the class
      [Builtins]; [asciiBuiltins] is the instance used to run the model, and
      it agrees with the runtime on every string whose code units are all
      below U+0080.
    - A plain object used as a dictionary ([Record<string, T>]) is an
      association list in insertion order ([Obj.t]); the keys used by the
      service (nanoid identifiers of 12 characters) are never array indices,
      so [Object.keys] and [Object.values] enumerate in insertion order.
      An index [o[k]] with a key that [o] does not own finds the properties
      of [Object.prototype] ([Obj.inherited]).  No name of these has 12
      characters, so the ids the service makes are none of them; the target
      id of [kickPlayer] comes from the client and may be one.
    - A [Map] is a [gmap].
    - [number] is an IEEE 754 binary64.  The elapsed time and the time bonus
      are computed on [spec_float], the Standard Library's specification of
      the floating-point operations (round to nearest, ties to even).  A
      score is an integer, [NaN] or an infinity ([Num.t]); the sums and the
      products that give a score are rounded as the runtime rounds them.
      Time stamps, [streak], [rounds] and the other counters are integers
      that the runtime's arithmetic keeps exact, and are in [Z].
    - [Date.now()], [Math.random()] and [nanoid()] are inputs of the
      operation that calls them.
    - [Array.prototype.sort] is the engine's: the class [ArraySort] keeps it
      abstract and assumes what the language guarantees, a stable sort when
      the comparator is consistent. *)

From Stdlib Require Import ZArith QArith Ascii String List Sorted Lia.
From Stdlib Require Import SpecFloat.
From stdpp Require Import base decidable option list gmap fin_maps.

Set Default Proof Using "Type".

(** ** Numbers *)

Module Num.
(** binary64 *)
Definition prec : Z := 53.
Definition emax : Z := 1024.

(** The double nearest to an integer. *)
Definition ofZ (z : Z) : spec_float := binary_normalize prec emax z 0 false.

Definition fadd : spec_float → spec_float → spec_float := SFadd prec emax.
Definition fsub : spec_float → spec_float → spec_float := SFsub prec emax.
Definition fmul : spec_float → spec_float → spec_float := SFmul prec emax.
Definition fdiv : spec_float → spec_float → spec_float := SFdiv prec emax.

(** A number that is an integer or is not finite: what a score is. *)
Inductive t := Int (z : Z) | NaN | Infinity (negative : bool).

Definition toFloat (n : t) : spec_float :=
  match n with
  | Int z => ofZ z
  | NaN => S754_nan
  | Infinity negative => S754_infinity negative
  end.

(** [Math.floor(x)]; it is the identity on a double that is an integer. *)
Definition floor (x : spec_float) : t :=
  match x with
  | S754_zero _ => Int 0
  | S754_infinity negative => Infinity negative
  | S754_nan => NaN
  | S754_finite negative m e =>
      Int (if (0 <=? e)%Z then (cond_Zopp negative (Zpos m) * 2 ^ e)%Z
           else (cond_Zopp negative (Zpos m) / 2 ^ (- e))%Z)
  end.

(** [a + b] and [a * b] on doubles that are integers or not finite.  The
    rounded sum and the rounded product of two doubles that are integers
    are integers again (below 2^53 the sum of two integers is rounded to a
    multiple of a power of two that is at most 1, and from 2^52 on every
    double is an integer), and [floor] reads the integer that the result
    is. *)
Definition add (a b : t) : t := floor (fadd (toFloat a) (toFloat b)).
Definition mul (a b : t) : t := floor (fmul (toFloat a) (toFloat b)).

(** [Math.max(0, n)] *)
Definition max0 (n : t) : t :=
  match n with
  | Int z => Int (Z.max 0 z)
  | NaN => NaN
  | Infinity false => Infinity false
  | Infinity true => Int 0
  end.

(** [a - b] as a comparator returns it.  [sort] reads the sign of the
    result only, and the difference of two doubles has the sign of their
    exact difference (it is zero only when they are equal), so the
    difference of two integers is left unrounded. *)
Definition sub (a b : t) : t :=
  match a, b with
  | NaN, _ | _, NaN => NaN
  | Infinity s, Infinity s' => if Bool.eqb s s' then NaN else Infinity s
  | Infinity s, Int _ => Infinity s
  | Int _, Infinity s => Infinity (negb s)
  | Int x, Int y => Int (x - y)
  end.

(** [v > 0] and [v < 0]; both are false of [NaN]. *)
Definition positive (v : t) : bool :=
  match v with
  | Int z => (0 <? z)%Z
  | NaN => false
  | Infinity negative => negb negative
  end.

Definition negative (v : t) : bool :=
  match v with
  | Int z => (z <? 0)%Z
  | NaN => false
  | Infinity negative => negative
  end.

(** Not below zero: [NaN], which no comparison holds of, included. *)
Definition notNegative (n : t) : Prop :=
  match n with
  | Int z => (0 ≤ z)%Z
  | NaN => True
  | Infinity negative => negative = false
  end.

(** The same of a double: a zero of either sign is not below zero. *)
Definition floatNotNegative (x : spec_float) : Prop :=
  match x with
  | S754_zero _ | S754_nan => True
  | S754_infinity negative | S754_finite negative _ _ => negative = false
  end.

(** [a <= b] and [a < b] *)
Definition le (a b : t) : Prop :=
  match a, b with
  | Int x, Int y => (x ≤ y)%Z
  | Infinity true, (Int _ | Infinity _) => True
  | (Int _ | Infinity _), Infinity false => True
  | _, _ => False
  end.

Definition lt (a b : t) : Prop :=
  match a, b with
  | Int x, Int y => (x < y)%Z
  | Infinity true, (Int _ | Infinity false) => True
  | Int _, Infinity false => True
  | _, _ => False
  end.
End Num.

#[global] Instance Num_eq_dec : EqDecision Num.t.
Proof. solve_decision. Defined.

(** ** Strings *)

Abbreviation jsstring := (list N).

(** The code units of an ASCII literal. *)
Definition js (s : string) : jsstring :=
  map N_of_ascii (list_ascii_of_string s).

Definition inRange (lo hi c : N) : bool := (lo <=? c)%N && (c <=? hi)%N.

(** [\w] is [[A-Za-z0-9_]]. *)
Definition isWord (c : N) : bool :=
  inRange 65 90 c || inRange 97 122 c || inRange 48 57 c || (c =? 95)%N.

(** [\s]: the WhiteSpace and LineTerminator code points. *)
Definition isSpace (c : N) : bool :=
  inRange 9 13 c || (c =? 32)%N || (c =? 160)%N || (c =? 5760)%N
  || inRange 8192 8202 c || (c =? 8232)%N || (c =? 8233)%N
  || (c =? 8239)%N || (c =? 8287)%N || (c =? 12288)%N || (c =? 65279)%N.

(** The class [[-–—|]]: hyphen, en dash, em dash, vertical bar. *)
Definition isSeparator (c : N) : bool :=
  (c =? 45)%N || (c =? 8211)%N || (c =? 8212)%N || (c =? 124)%N.

Class Builtins := {
  toLowerCase : jsstring → jsstring;
  toUpperCase : jsstring → jsstring;
  (** the empty string has no code unit to map *)
  toLowerCase_empty : toLowerCase [] = [];
  toUpperCase_empty : toUpperCase [] = []
}.

Definition asciiLower (c : N) : N := if inRange 65 90 c then (c + 32)%N else c.
Definition asciiUpper (c : N) : N := if inRange 97 122 c then (c - 32)%N else c.

Definition asciiBuiltins : Builtins :=
  {| toLowerCase := map asciiLower; toUpperCase := map asciiUpper;
     toLowerCase_empty := eq_refl; toUpperCase_empty := eq_refl |}.

(** [s.replace(/\s+/g, ' ')]: every maximal run of white space becomes one
    space.  [inRun] tells that the previous code unit was white space. *)
Fixpoint collapseSpaces (inRun : bool) (s : jsstring) : jsstring :=
  match s with
  | [] => []
  | c :: t =>
      if isSpace c
      then (if inRun then collapseSpaces true t else 32%N :: collapseSpaces true t)
      else c :: collapseSpaces false t
  end.

Fixpoint trimStart (s : jsstring) : jsstring :=
  match s with
  | c :: t => if isSpace c then trimStart t else s
  | [] => []
  end.

Definition trim (s : jsstring) : jsstring :=
  rev (trimStart (rev (trimStart s))).

(** [a.includes(b)] *)
Fixpoint startsWith (s p : jsstring) : bool :=
  match p, s with
  | [], _ => true
  | _ :: _, [] => false
  | x :: p', y :: s' => (x =? y)%N && startsWith s' p'
  end.

Fixpoint includes (s sub : jsstring) : bool :=
  startsWith s sub ||
  match s with
  | [] => false
  | _ :: t => includes t sub
  end.

(** Length of the match of [/\s*[-–—|]\s*/] anchored at the head of [s], if
    there is one.  White space and separators are disjoint classes, so the
    greedy match is the only one. *)
Definition separatorLength (s : jsstring) : option nat :=
  match trimStart s with
  | c :: t =>
      if isSeparator c
      then Some (length s - length (trimStart t))
      else None
  | [] => None
  end.

(** [s.split(/\s*[-–—|]\s*/)]: [skip] code units of a separator match are
    still to be dropped. *)
Fixpoint splitSeparators (skip : nat) (s : jsstring) : list jsstring :=
  match s with
  | [] => [[]]
  | c :: t =>
      match skip with
      | S k => splitSeparators k t
      | O =>
          match separatorLength s with
          | Some n => [] :: splitSeparators (n - 1) t
          | None =>
              match splitSeparators 0 t with
              | p :: ps => (c :: p) :: ps
              | [] => [[c]]
              end
          end
      end
  end.

(** [Math.max(1, Math.floor(n * 0.25))]; the product by 0.25 is exact in
    binary floating point, so the floor is the integer quotient by 4. *)
Definition fuzzyThreshold (n : nat) : nat := Nat.max 1 (n / 4).

(** ** levenshteinDistance

    The matrix is built row by row.  [levenshteinRow bc a prev left] is the
    part [matrix[i][j..]] of row [i], where [bc = b[i-1]], [a] is [a[j-1..]],
    [prev] is [matrix[i-1][j-1..]] and [left] is [matrix[i][j-1]]. *)
Fixpoint levenshteinRow (bc : N) (a : jsstring) (prev : list nat) (left : nat)
  : list nat :=
  match a, prev with
  | ac :: a', diag :: ((up :: _) as prev') =>
      let v :=
        if (bc =? ac)%N then diag
        else Nat.min (diag + 1) (Nat.min (left + 1) (up + 1)) in
      v :: levenshteinRow bc a' prev' v
  | _, _ => []
  end.

(** All rows after row 0, folded over [b]; the state is the row index and
    the row. *)
Definition levenshteinRows (a b : jsstring) : nat * list nat :=
  fold_left
    (fun st bc => (S (fst st), S (fst st) :: levenshteinRow bc a (snd st) (S (fst st))))
    b (0, seq 0 (S (length a))).

Definition levenshteinDistance (a b : jsstring) : nat :=
  List.last (snd (levenshteinRows a b)) 0.

(** The entry [matrix[i][j]] as the source fills it, read as a recurrence:
    [rb] is [b[0..i)] reversed and [ra] is [a[0..j)] reversed, so that their
    heads are [b[i-1]] and [a[j-1]]. *)
Fixpoint levenshteinMatrix (rb ra : jsstring) : nat :=
  match rb with
  | [] => length ra
  | bc :: rb' =>
      (fix row (ra : jsstring) : nat :=
         match ra with
         | [] => length rb
         | ac :: ra' =>
             if (bc =? ac)%N then levenshteinMatrix rb' ra'
             else Nat.min (levenshteinMatrix rb' ra' + 1)
                          (Nat.min (row ra' + 1) (levenshteinMatrix rb' ra + 1))
         end) ra
  end.

(** The edit distance in the words of the design document: [edits a b n]
    when [a] becomes [b] by keeping characters and [n] insertions, deletions
    and substitutions, each of cost one. *)
Inductive edits : jsstring → jsstring → nat → Prop :=
| edits_nil : edits [] [] 0
| edits_keep x a b n : edits a b n → edits (x :: a) (x :: b) n
| edits_substitute x y a b n : edits a b n → edits (x :: a) (y :: b) (S n)
| edits_delete x a b n : edits a b n → edits (x :: a) b (S n)
| edits_insert y a b n : edits a b n → edits a (y :: b) (S n).

(** The entries [matrix[i][j..]] of one row: [rap] is [a[0..j)] reversed and
    [rest] is [a[j..]]. *)
Fixpoint matrixRow (rb rap rest : jsstring) : list nat :=
  levenshteinMatrix rb rap ::
  match rest with
  | [] => []
  | ac :: rest' => matrixRow rb (ac :: rap) rest'
  end.

(** ** Plain objects used as dictionaries

    [Record<string, T>]: keys in insertion order.  Assigning to an existing
    key keeps its position; [delete] removes the key. *)
Module Obj.
Definition t (A : Type) := list (jsstring * A).

(** The property names of [Object.prototype] (the ones of ECMAScript and
    of its Annex B).  [o[k]] with a key [k] that [o] does not own is the
    property of this name when [k] is one of them, a function or, for
    [__proto__], the prototype itself, and [undefined] when it is none. *)
Definition prototypeNames : list jsstring :=
  map js [ "constructor"; "hasOwnProperty"; "isPrototypeOf";
           "propertyIsEnumerable"; "toLocaleString"; "toString"; "valueOf";
           "__proto__"; "__defineGetter__"; "__defineSetter__";
           "__lookupGetter__"; "__lookupSetter__" ]%string.

Definition inherited (k : jsstring) : bool := bool_decide (k ∈ prototypeNames).

Section Ops.
Context {A : Type}.

Fixpoint get (k : jsstring) (o : t A) : option A :=
  match o with
  | [] => None
  | (k', v) :: rest => if bool_decide (k' = k) then Some v else get k rest
  end.

Definition has (k : jsstring) (o : t A) : bool :=
  match get k o with Some _ => true | None => false end.

Definition set (k : jsstring) (v : A) (o : t A) : t A :=
  if has k o
  then map (fun kv => if bool_decide (fst kv = k) then (k, v) else kv) o
  else o ++ [(k, v)].

Definition delete (k : jsstring) (o : t A) : t A :=
  List.filter (fun kv => negb (bool_decide (fst kv = k))) o.

(** [o[k].field = v] on an object held by reference *)
Definition modify (k : jsstring) (f : A → A) (o : t A) : t A :=
  map (fun kv => if bool_decide (fst kv = k) then (fst kv, f (snd kv)) else kv) o.

Definition keys (o : t A) : list jsstring := map fst o.
Definition values (o : t A) : list A := map snd o.

(** [Object.values(o).forEach(p => mutate p)] on objects held by
    reference: every value is updated in place. *)
Definition forEach (f : A → A) (o : t A) : t A :=
  map (fun kv => (fst kv, f (snd kv))) o.
End Ops.
End Obj.

(** ** Types ([types/index.ts]) *)

Inductive Source := youtube | spotify.

Module Song.
Record t := mk {
  id : jsstring;
  title : jsstring;
  artist : jsstring;
  album : option jsstring;
  coverUrl : option jsstring;
  source : Source;
  sourceId : jsstring;
  duration : Q;
  previewUrl : option jsstring;
  startTime : Q;
  endTime : Q
}.

(** [{ ...songData, id }] *)
Definition setId (v : jsstring) (s : t) : t :=
  mk v (title s) (artist s) (album s) (coverUrl s) (source s) (sourceId s)
     (duration s) (previewUrl s) (startTime s) (endTime s).
End Song.

Inductive GameMode := classic | blitz | elimination | marathon.
Inductive GuessStyle := type | grid | multiple_choice.
Inductive LobbyState := waiting | starting | playing | round_end | game_over.
Inductive Phase := phase_playing | phase_reveal.

#[global] Instance GuessStyle_eq_dec : EqDecision GuessStyle.
Proof. solve_decision. Defined.
#[global] Instance LobbyState_eq_dec : EqDecision LobbyState.
Proof. solve_decision. Defined.
#[global] Instance Phase_eq_dec : EqDecision Phase.
Proof. solve_decision. Defined.

Module GameSettings.
Record t := mk {
  mode : GameMode;
  guessStyle : GuessStyle;
  rounds : Z;
  timePerRound : Z;
  snippetDuration : Z;
  maxPlayers : Z;
  hintsEnabled : bool;
  showArtist : bool;
  scoreMultiplierSpeed : bool
}.

Definition setRounds (v : Z) (s : t) : t :=
  mk (mode s) (guessStyle s) v (timePerRound s) (snippetDuration s)
     (maxPlayers s) (hintsEnabled s) (showArtist s) (scoreMultiplierSpeed s).

(** [Partial<GameSettings>]: a field is present or not. *)
Record partial := mkPartial {
  p_mode : option GameMode;
  p_guessStyle : option GuessStyle;
  p_rounds : option Z;
  p_timePerRound : option Z;
  p_snippetDuration : option Z;
  p_maxPlayers : option Z;
  p_hintsEnabled : option bool;
  p_showArtist : option bool;
  p_scoreMultiplierSpeed : option bool
}.

(** [{ ...s, ...p }] *)
Definition merge (s : t) (p : partial) : t :=
  mk (default (mode s) (p_mode p))
     (default (guessStyle s) (p_guessStyle p))
     (default (rounds s) (p_rounds p))
     (default (timePerRound s) (p_timePerRound p))
     (default (snippetDuration s) (p_snippetDuration p))
     (default (maxPlayers s) (p_maxPlayers p))
     (default (hintsEnabled s) (p_hintsEnabled p))
     (default (showArtist s) (p_showArtist p))
     (default (scoreMultiplierSpeed s) (p_scoreMultiplierSpeed p)).
End GameSettings.

Definition DEFAULT_SETTINGS : GameSettings.t :=
  {| GameSettings.mode := classic; GameSettings.guessStyle := type;
     GameSettings.rounds := 15; GameSettings.timePerRound := 30;
     GameSettings.snippetDuration := 5; GameSettings.maxPlayers := 12;
     GameSettings.hintsEnabled := true; GameSettings.showArtist := false;
     GameSettings.scoreMultiplierSpeed := true |}.

Record Avatar := { emoji : jsstring; color : jsstring }.

Module Player.
Record t := mk {
  id : jsstring;
  socketId : jsstring;
  name : jsstring;
  avatar : Avatar;
  score : Num.t;
  streak : Z;
  isHost : bool;
  isReady : bool;
  hasGuessed : bool;
  lastGuessCorrect : bool;
  roundScore : Num.t
}.

Definition setScore (v : Num.t) (p : t) : t :=
  mk (id p) (socketId p) (name p) (avatar p) v (streak p) (isHost p)
     (isReady p) (hasGuessed p) (lastGuessCorrect p) (roundScore p).
Definition setStreak (v : Z) (p : t) : t :=
  mk (id p) (socketId p) (name p) (avatar p) (score p) v (isHost p)
     (isReady p) (hasGuessed p) (lastGuessCorrect p) (roundScore p).
Definition setIsHost (v : bool) (p : t) : t :=
  mk (id p) (socketId p) (name p) (avatar p) (score p) (streak p) v
     (isReady p) (hasGuessed p) (lastGuessCorrect p) (roundScore p).
Definition setIsReady (v : bool) (p : t) : t :=
  mk (id p) (socketId p) (name p) (avatar p) (score p) (streak p) (isHost p)
     v (hasGuessed p) (lastGuessCorrect p) (roundScore p).
Definition setHasGuessed (v : bool) (p : t) : t :=
  mk (id p) (socketId p) (name p) (avatar p) (score p) (streak p) (isHost p)
     (isReady p) v (lastGuessCorrect p) (roundScore p).
Definition setLastGuessCorrect (v : bool) (p : t) : t :=
  mk (id p) (socketId p) (name p) (avatar p) (score p) (streak p) (isHost p)
     (isReady p) (hasGuessed p) v (roundScore p).
Definition setRoundScore (v : Num.t) (p : t) : t :=
  mk (id p) (socketId p) (name p) (avatar p) (score p) (streak p) (isHost p)
     (isReady p) (hasGuessed p) (lastGuessCorrect p) v.
End Player.

(** An entry of [RoundState.guesses]. *)
Module GuessRecord.
Record t := mk {
  guess : jsstring;
  correct : bool;
  time : spec_float;
  score : Num.t
}.
End GuessRecord.

Module RoundState.
Record t := mk {
  roundNumber : Z;
  song : Song.t;
  startedAt : Z;
  phase : Phase;
  guesses : Obj.t GuessRecord.t;
  gridOptions : option (list jsstring)
}.

Definition setPhase (v : Phase) (r : t) : t :=
  mk (roundNumber r) (song r) (startedAt r) v (guesses r) (gridOptions r).
Definition setGuesses (v : Obj.t GuessRecord.t) (r : t) : t :=
  mk (roundNumber r) (song r) (startedAt r) (phase r) v (gridOptions r).
End RoundState.

Module Lobby.
Record t := mk {
  code : jsstring;
  hostId : jsstring;
  state : LobbyState;
  players : Obj.t Player.t;
  settings : GameSettings.t;
  songs : list Song.t;
  currentRound : option RoundState.t;
  roundHistory : list RoundState.t;
  createdAt : Z
}.

Definition setHostId (v : jsstring) (l : t) : t :=
  mk (code l) v (state l) (players l) (settings l) (songs l)
     (currentRound l) (roundHistory l) (createdAt l).
Definition setState (v : LobbyState) (l : t) : t :=
  mk (code l) (hostId l) v (players l) (settings l) (songs l)
     (currentRound l) (roundHistory l) (createdAt l).
Definition setPlayers (v : Obj.t Player.t) (l : t) : t :=
  mk (code l) (hostId l) (state l) v (settings l) (songs l)
     (currentRound l) (roundHistory l) (createdAt l).
Definition setSettings (v : GameSettings.t) (l : t) : t :=
  mk (code l) (hostId l) (state l) (players l) v (songs l)
     (currentRound l) (roundHistory l) (createdAt l).
Definition setSongs (v : list Song.t) (l : t) : t :=
  mk (code l) (hostId l) (state l) (players l) (settings l) v
     (currentRound l) (roundHistory l) (createdAt l).
Definition setCurrentRound (v : option RoundState.t) (l : t) : t :=
  mk (code l) (hostId l) (state l) (players l) (settings l) (songs l)
     v (roundHistory l) (createdAt l).
Definition setRoundHistory (v : list RoundState.t) (l : t) : t :=
  mk (code l) (hostId l) (state l) (players l) (settings l) (songs l)
     (currentRound l) v (createdAt l).
End Lobby.

(** ** The guess matcher ([checkGuess]) *)

Section Matcher.
Context `{Builtins}.

Definition normalize (s : jsstring) : jsstring :=
  trim (collapseSpaces false
          (List.filter (fun c => isWord c || isSpace c) (toLowerCase s))).

(** The [for (const part of titleParts)] loop of [checkGuess]: [true] when
    the loop returns true, [false] when it runs to its end. *)
Fixpoint matchesSomePart (normalizedGuess : jsstring) (titleParts : list jsstring)
  : bool :=
  match titleParts with
  | [] => false
  | part :: rest =>
      if length part <? 2 then matchesSomePart normalizedGuess rest
      else if bool_decide (normalizedGuess = part) then true
      else if levenshteinDistance normalizedGuess part <=? fuzzyThreshold (length part)
      then true
      else matchesSomePart normalizedGuess rest
  end.

Definition titleParts (title : jsstring) : list jsstring :=
  List.filter (fun p => 0 <? length p) (map normalize (splitSeparators 0 title)).

Definition checkGuess (guess : jsstring) (song : Song.t) : bool :=
  let normalizedGuess := normalize guess in
  let normalizedTitle := normalize (Song.title song) in
  let normalizedArtist := normalize (Song.artist song) in
  if bool_decide (normalizedGuess = normalizedTitle) then true
  else if matchesSomePart normalizedGuess (titleParts (Song.title song)) then true
  else if bool_decide (normalizedGuess = normalizedArtist) then true
  else if levenshteinDistance normalizedGuess normalizedArtist
          <=? fuzzyThreshold (length normalizedArtist) then true
  else if levenshteinDistance normalizedGuess normalizedTitle
          <=? fuzzyThreshold (length normalizedTitle) then true
  else if includes normalizedTitle normalizedGuess && (3 <=? length normalizedGuess)
  then true
  else if includes normalizedGuess normalizedTitle then true
  else false.
End Matcher.

(** ** The service state ([class GameManager]) *)

Record GameManager := {
  lobbies : gmap jsstring Lobby.t;
  playerToLobby : gmap jsstring jsstring;   (* socketId -> lobbyCode *)
  playerIds : gmap jsstring jsstring        (* socketId -> playerId *)
}.

Definition newGameManager : GameManager :=
  {| lobbies := ∅; playerToLobby := ∅; playerIds := ∅ |}.

Definition setLobbies (m : gmap jsstring Lobby.t) (gm : GameManager) : GameManager :=
  {| lobbies := m; playerToLobby := playerToLobby gm; playerIds := playerIds gm |}.

(** What a call can end in: a value and the next state, or an exception
    (every [throw] of the service comes before its first mutation, so the
    state is the one before the call). *)
Inductive Exception := Error (message : string) | TypeError.

Inductive outcome (A : Type) :=
| Returned (a : A) (gm : GameManager)
| Threw (e : Exception).
Arguments Returned {A} a gm.
Arguments Threw {A} e.

(** The errors of [joinLobby], by the names of the design document. *)
Definition LobbyNotFound : Exception := Error "Lobby not found".
Definition GameInProgress : Exception := Error "Game already in progress".
Definition LobbyFull : Exception := Error "Lobby is full".

(** [!s] is false exactly for the non-empty strings. *)
Definition truthy (s : jsstring) : bool := negb (bool_decide (s = [])).

(** *** generateCode *)

Definition chars : jsstring := js "ABCDEFGHJKLMNPQRSTUVWXYZ23456789".

(** [chars[Math.floor(Math.random() * chars.length)]], the draw being [r]. *)
Definition randomChar (r : nat) : N := nth (r mod length chars) chars 0%N.

(** [draws] are the successive random draws; five are used per attempt and
    the recursive call on a collision continues with the rest.  [None]: the
    draws are used up and the source is still retrying. *)
Fixpoint generateCode (live : gmap jsstring Lobby.t) (draws : list nat)
  : option (jsstring * list nat) :=
  match draws with
  | r1 :: r2 :: r3 :: r4 :: r5 :: rest =>
      let code := [randomChar r1; randomChar r2; randomChar r3;
                   randomChar r4; randomChar r5] in
      if bool_decide (is_Some (live !! code)) then generateCode live rest
      else Some (code, rest)
  | _ => None
  end.

(** The code of the [k]-th attempt of [generateCode] on [draws] (attempts
    are counted from 0). *)
Definition attemptCode (draws : list nat) (k : nat) : jsstring :=
  map randomChar (take 5 (drop (5 * k) draws)).

Definition createLobby (gm : GameManager) (draws : list nat) (playerId : jsstring)
  (now : Z) (socketId playerName : jsstring) (avatar : Avatar)
  : option (Lobby.t * jsstring * GameManager) :=
  match generateCode (lobbies gm) draws with
  | None => None
  | Some (code, _) =>
      let player :=
        {| Player.id := playerId; Player.socketId := socketId;
           Player.name := playerName; Player.avatar := avatar;
           Player.score := Num.Int 0; Player.streak := 0;
           Player.isHost := true; Player.isReady := true;
           Player.hasGuessed := false; Player.lastGuessCorrect := false;
           Player.roundScore := Num.Int 0 |} in
      let lobby :=
        {| Lobby.code := code; Lobby.hostId := playerId; Lobby.state := waiting;
           Lobby.players := [(playerId, player)];
           Lobby.settings := DEFAULT_SETTINGS; Lobby.songs := [];
           Lobby.currentRound := None; Lobby.roundHistory := [];
           Lobby.createdAt := now |} in
      Some (lobby, playerId,
            {| lobbies := <[code := lobby]> (lobbies gm);
               playerToLobby := <[socketId := code]> (playerToLobby gm);
               playerIds := <[socketId := playerId]> (playerIds gm) |})
  end.

Definition getLobbyBySocket (gm : GameManager) (socketId : jsstring)
  : option Lobby.t :=
  match playerToLobby gm !! socketId with
  | Some code => if truthy code then lobbies gm !! code else None
  | None => None
  end.

Definition getPlayerIdBySocket (gm : GameManager) (socketId : jsstring)
  : option jsstring :=
  match playerIds gm !! socketId with
  | Some playerId => if truthy playerId then Some playerId else None
  | None => None
  end.

(** The lobby [getLobbyBySocket] returns is the object held by [lobbies]
    under the socket's code: a mutation of it is a mutation of that entry. *)
Definition storeLobbyOfSocket (gm : GameManager) (socketId : jsstring)
  (lobby : Lobby.t) : GameManager :=
  match playerToLobby gm !! socketId with
  | Some code => setLobbies (<[code := lobby]> (lobbies gm)) gm
  | None => gm
  end.

Record LeaveResult := {
  lr_lobby : option Lobby.t;
  lr_playerId : jsstring;
  wasHost : bool
}.

Definition leaveLobby (gm : GameManager) (socketId : jsstring)
  : option LeaveResult * GameManager :=
  match playerToLobby gm !! socketId, playerIds gm !! socketId with
  | Some code, Some playerId =>
      if negb (truthy code) || negb (truthy playerId) then (None, gm) else
      match lobbies gm !! code with
      | None => (None, gm)
      | Some lobby =>
          let wasHost :=
            match Obj.get playerId (Lobby.players lobby) with
            | Some p => Player.isHost p
            | None => false
            end in
          let players1 := Obj.delete playerId (Lobby.players lobby) in
          let index1 := delete socketId (playerToLobby gm) in
          let index2 := delete socketId (playerIds gm) in
          match Obj.keys players1 with
          | [] =>
              (Some {| lr_lobby := None; lr_playerId := playerId; wasHost := wasHost |},
               {| lobbies := delete code (lobbies gm);
                  playerToLobby := index1; playerIds := index2 |})
          | newHostId :: _ =>
              let lobby1 := Lobby.setPlayers players1 lobby in
              let lobby2 :=
                if wasHost
                then Lobby.setHostId newHostId
                       (Lobby.setPlayers
                          (Obj.modify newHostId (Player.setIsHost true) players1)
                          lobby1)
                else lobby1 in
              (Some {| lr_lobby := Some lobby2; lr_playerId := playerId;
                       wasHost := wasHost |},
               {| lobbies := <[code := lobby2]> (lobbies gm);
                  playerToLobby := index1; playerIds := index2 |})
          end
      end
  | _, _ => (None, gm)
  end.

Definition updateSettings (gm : GameManager) (socketId : jsstring)
  (settings : GameSettings.partial) : option Lobby.t * GameManager :=
  match getLobbyBySocket gm socketId, getPlayerIdBySocket gm socketId with
  | Some lobby, Some playerId =>
      if bool_decide (Lobby.hostId lobby ≠ playerId) then (None, gm) else
      let lobby' :=
        Lobby.setSettings (GameSettings.merge (Lobby.settings lobby) settings) lobby in
      (Some lobby', storeLobbyOfSocket gm socketId lobby')
  | _, _ => (None, gm)
  end.

(** [songData] is an [Omit<Song, 'id'>]: its [id] field is not read. *)
Definition addSong (gm : GameManager) (nanoid : jsstring) (socketId : jsstring)
  (songData : Song.t) : option (Lobby.t * Song.t) * GameManager :=
  match getLobbyBySocket gm socketId, getPlayerIdBySocket gm socketId with
  | Some lobby, Some playerId =>
      if bool_decide (Lobby.hostId lobby ≠ playerId) then (None, gm) else
      let song := Song.setId nanoid songData in
      let lobby' := Lobby.setSongs (Lobby.songs lobby ++ [song]) lobby in
      (Some (lobby', song), storeLobbyOfSocket gm socketId lobby')
  | _, _ => (None, gm)
  end.

(** Every element of [songsData] comes with the identifier [nanoid] returns
    for it. *)
Definition addSongsBulk (gm : GameManager) (socketId : jsstring)
  (songsData : list (jsstring * Song.t)) : option (Lobby.t * nat) * GameManager :=
  match getLobbyBySocket gm socketId, getPlayerIdBySocket gm socketId with
  | Some lobby, Some playerId =>
      if bool_decide (Lobby.hostId lobby ≠ playerId) then (None, gm) else
      let songs := map (fun s => Song.setId (fst s) (snd s)) songsData in
      let lobby' := Lobby.setSongs (Lobby.songs lobby ++ songs) lobby in
      (Some (lobby', length songs), storeLobbyOfSocket gm socketId lobby')
  | _, _ => (None, gm)
  end.

Definition removeSong (gm : GameManager) (socketId songId : jsstring)
  : option Lobby.t * GameManager :=
  match getLobbyBySocket gm socketId, getPlayerIdBySocket gm socketId with
  | Some lobby, Some playerId =>
      if bool_decide (Lobby.hostId lobby ≠ playerId) then (None, gm) else
      let lobby' :=
        Lobby.setSongs
          (List.filter (fun s => bool_decide (Song.id s ≠ songId)) (Lobby.songs lobby))
          lobby in
      (Some lobby', storeLobbyOfSocket gm socketId lobby')
  | _, _ => (None, gm)
  end.

Definition toggleReady (gm : GameManager) (socketId : jsstring)
  : outcome (option Lobby.t) :=
  match getLobbyBySocket gm socketId, getPlayerIdBySocket gm socketId with
  | Some lobby, Some playerId =>
      match Obj.get playerId (Lobby.players lobby) with
      | None => Threw TypeError
      | Some p =>
          let lobby' :=
            Lobby.setPlayers
              (Obj.modify playerId (Player.setIsReady (negb (Player.isReady p)))
                 (Lobby.players lobby))
              lobby in
          Returned (Some lobby') (storeLobbyOfSocket gm socketId lobby')
      end
  | _, _ => Returned None gm
  end.

Record StartCheck := { can : bool; reason : option string }.

Definition canStartGame (lobby : Lobby.t) : StartCheck :=
  let players := Obj.values (Lobby.players lobby) in
  if length players <? 1
  then {| can := false; reason := Some "Need at least 1 player"%string |}
  else if length (Lobby.songs lobby) <? 3
  then {| can := false; reason := Some "Need at least 3 songs"%string |}
  else
    let notReady :=
      List.filter (fun p => negb (Player.isReady p) && negb (Player.isHost p)) players in
    if 0 <? length notReady
    then {| can := false; reason := Some "Not all players are ready"%string |}
    else {| can := true; reason := None |}.

(** The five assignments of the [forEach] bodies of [startGame] and
    [startRound]. *)
Definition resetGuessState (p : Player.t) : Player.t :=
  Player.setRoundScore (Num.Int 0)
    (Player.setLastGuessCorrect false (Player.setHasGuessed false p)).

Definition resetScores (p : Player.t) : Player.t :=
  resetGuessState (Player.setStreak 0 (Player.setScore (Num.Int 0) p)).

Definition startGame (gm : GameManager) (socketId : jsstring)
  : option Lobby.t * GameManager :=
  match getLobbyBySocket gm socketId, getPlayerIdBySocket gm socketId with
  | Some lobby, Some playerId =>
      if bool_decide (Lobby.hostId lobby ≠ playerId) then (None, gm) else
      if negb (can (canStartGame lobby)) then (None, gm) else
      let lobby1 := Lobby.setPlayers (Obj.forEach resetScores (Lobby.players lobby)) lobby in
      let lobby2 :=
        Lobby.setCurrentRound None (Lobby.setRoundHistory [] (Lobby.setState playing lobby1)) in
      let lobby3 :=
        Lobby.setSettings
          (GameSettings.setRounds
             (Z.min (GameSettings.rounds (Lobby.settings lobby2))
                    (Z.of_nat (length (Lobby.songs lobby2))))
             (Lobby.settings lobby2))
          lobby2 in
      (Some lobby3, storeLobbyOfSocket gm socketId lobby3)
  | _, _ => (None, gm)
  end.

(** *** startRound *)

(** The random choices of one call: [pick] is the draw that indexes
    [availableSongs], and the two shuffles are what the engine's [sort] with
    the random comparator returns. *)
Record Random := {
  pick : nat;
  shuffleSongs : list Song.t → list Song.t;
  shuffleTitles : list jsstring → list jsstring
}.

Definition usedSongIds (lobby : Lobby.t) : list jsstring :=
  map (fun r => Song.id (RoundState.song r)) (Lobby.roundHistory lobby).

Definition availableSongs (lobby : Lobby.t) : list Song.t :=
  List.filter (fun s => negb (bool_decide (Song.id s ∈ usedSongIds lobby)))
              (Lobby.songs lobby).

Definition makeGridOptions (rnd : Random) (lobby : Lobby.t) (song : Song.t)
  : option (list jsstring) :=
  let style := GameSettings.guessStyle (Lobby.settings lobby) in
  if bool_decide (style = grid) || bool_decide (style = multiple_choice) then
    let otherSongs :=
      List.filter (fun s => bool_decide (Song.id s ≠ Song.id song)) (Lobby.songs lobby) in
    let shuffled := shuffleSongs rnd otherSongs in
    let decoys := take (if bool_decide (style = grid) then 8 else 3) shuffled in
    Some (shuffleTitles rnd (map Song.title decoys ++ [Song.title song]))
  else None.

Definition startRound (gm : GameManager) (rnd : Random) (now : Z)
  (lobbyCode : jsstring) : option RoundState.t * GameManager :=
  match lobbies gm !! lobbyCode with
  | None => (None, gm)
  | Some lobby =>
      if bool_decide (Lobby.state lobby ≠ playing) then (None, gm) else
      let roundNumber := (Z.of_nat (length (Lobby.roundHistory lobby)) + 1)%Z in
      if (roundNumber >? GameSettings.rounds (Lobby.settings lobby))%Z then (None, gm) else
      match availableSongs lobby with
      | [] => (None, gm)
      | first :: _ =>
          let available := availableSongs lobby in
          let song := nth (pick rnd mod length available) available first in
          let lobby1 :=
            Lobby.setPlayers (Obj.forEach resetGuessState (Lobby.players lobby)) lobby in
          let round :=
            {| RoundState.roundNumber := roundNumber; RoundState.song := song;
               RoundState.startedAt := now; RoundState.phase := phase_playing;
               RoundState.guesses := [];
               RoundState.gridOptions := makeGridOptions rnd lobby1 song |} in
          (Some round,
           setLobbies (<[lobbyCode := Lobby.setCurrentRound (Some round) lobby1]> (lobbies gm)) gm)
      end
  end.

(** *** submitGuess *)

(** [(Date.now() - round.startedAt) / 1000]: the difference of the two time
    stamps is exact, the quotient is rounded. *)
Definition elapsedSeconds (now startedAt : Z) : spec_float :=
  Num.fdiv (Num.ofZ (now - startedAt)) (Num.ofZ 1000).

(** [Math.max(0, Math.floor((1 - timeElapsed / timePerRound) * 500))] when
    the speed multiplier is on, every operation rounded.  With
    [timePerRound = 0] the quotient is an infinity or, for no time elapsed,
    [NaN], and so is the bonus unless [Math.max] brings it to 0. *)
Definition timeBonus (scoreMultiplierSpeed : bool) (timeElapsed : spec_float)
  (timePerRound : Z) : Num.t :=
  if scoreMultiplierSpeed then
    Num.max0
      (Num.floor
         (Num.fmul
            (Num.fsub (Num.ofZ 1) (Num.fdiv timeElapsed (Num.ofZ timePerRound)))
            (Num.ofZ 500)))
  else Num.Int 0.

Record GuessResult := {
  gr_correct : bool;
  gr_score : Num.t;
  gr_playerId : jsstring;
  allGuessed : bool
}.

Section Service.
Context `{Builtins}.

Definition joinLobby (gm : GameManager) (playerId : jsstring)
  (code socketId playerName : jsstring) (avatar : Avatar)
  : outcome (Lobby.t * jsstring) :=
  match lobbies gm !! toUpperCase code with
  | None => Threw (Error "Lobby not found")
  | Some lobby =>
      if bool_decide (Lobby.state lobby ≠ waiting)
      then Threw (Error "Game already in progress")
      else if (Z.of_nat (length (Obj.keys (Lobby.players lobby)))
               >=? GameSettings.maxPlayers (Lobby.settings lobby))%Z
      then Threw (Error "Lobby is full")
      else
        let player :=
          {| Player.id := playerId; Player.socketId := socketId;
             Player.name := playerName; Player.avatar := avatar;
             Player.score := Num.Int 0; Player.streak := 0;
             Player.isHost := false; Player.isReady := false;
             Player.hasGuessed := false; Player.lastGuessCorrect := false;
             Player.roundScore := Num.Int 0 |} in
        let lobby' :=
          Lobby.setPlayers (Obj.set playerId player (Lobby.players lobby)) lobby in
        Returned (lobby', playerId)
          {| lobbies := <[toUpperCase code := lobby']> (lobbies gm);
             playerToLobby := <[socketId := toUpperCase code]> (playerToLobby gm);
             playerIds := <[socketId := playerId]> (playerIds gm) |}
  end.

Definition submitGuess (gm : GameManager) (now : Z) (socketId guess : jsstring)
  : outcome (option GuessResult) :=
  match getLobbyBySocket gm socketId, getPlayerIdBySocket gm socketId with
  | Some lobby, Some playerId =>
      match Lobby.currentRound lobby with
      | None => Returned None gm
      | Some round =>
          match Obj.get playerId (Lobby.players lobby) with
          | None => Threw TypeError
          | Some player =>
              if Player.hasGuessed player then Returned None gm else
              let timeElapsed := elapsedSeconds now (RoundState.startedAt round) in
              let correct := checkGuess guess (RoundState.song round) in
              let settings := Lobby.settings lobby in
              let score :=
                if correct then
                  let baseScore := Num.Int 1000 in
                  let timeBonus :=
                    timeBonus (GameSettings.scoreMultiplierSpeed settings)
                      timeElapsed (GameSettings.timePerRound settings) in
                  let streakBonus :=
                    Num.mul (Num.Int (Player.streak player)) (Num.Int 100) in
                  Num.add (Num.add baseScore timeBonus) streakBonus
                else Num.Int 0 in
              let player1 :=
                if correct
                then Player.setScore (Num.add (Player.score player) score)
                       (Player.setStreak (Player.streak player + 1) player)
                else Player.setStreak 0 player in
              let player2 :=
                Player.setRoundScore score
                  (Player.setLastGuessCorrect correct
                     (Player.setHasGuessed true player1)) in
              let players' :=
                Obj.modify playerId (fun _ => player2) (Lobby.players lobby) in
              let round' :=
                RoundState.setGuesses
                  (Obj.set playerId
                     {| GuessRecord.guess := guess; GuessRecord.correct := correct;
                        GuessRecord.time := timeElapsed; GuessRecord.score := score |}
                     (RoundState.guesses round))
                  round in
              let lobby' :=
                Lobby.setCurrentRound (Some round') (Lobby.setPlayers players' lobby) in
              let allGuessed :=
                forallb Player.hasGuessed (Obj.values players') in
              Returned
                (Some {| gr_correct := correct; gr_score := score;
                         gr_playerId := playerId; allGuessed := allGuessed |})
                (storeLobbyOfSocket gm socketId lobby')
          end
      end
  | _, _ => Returned None gm
  end.
End Service.

(** *** endRound *)

Record EndRoundResult := {
  er_song : Song.t;
  er_scores : Obj.t Num.t;
  er_guesses : Obj.t GuessRecord.t;
  isGameOver : bool
}.

Definition scoreboard (players : Obj.t Player.t) : Obj.t Num.t :=
  fold_left (fun scores p => Obj.set (Player.id p) (Player.score p) scores)
            (Obj.values players) [].

Definition endRound (gm : GameManager) (lobbyCode : jsstring)
  : option EndRoundResult * GameManager :=
  match lobbies gm !! lobbyCode with
  | None => (None, gm)
  | Some lobby =>
      match Lobby.currentRound lobby with
      | None => (None, gm)
      | Some round0 =>
          let round := RoundState.setPhase phase_reveal round0 in
          let lobby1 := Lobby.setRoundHistory (Lobby.roundHistory lobby ++ [round]) lobby in
          let scores := scoreboard (Lobby.players lobby1) in
          let isGameOver :=
            (Z.of_nat (length (Lobby.roundHistory lobby1))
             >=? GameSettings.rounds (Lobby.settings lobby1))%Z in
          let lobby2 := if isGameOver then Lobby.setState game_over lobby1 else lobby1 in
          let lobby3 := Lobby.setCurrentRound None lobby2 in
          (Some {| er_song := RoundState.song round; er_scores := scores;
                   er_guesses := RoundState.guesses round; isGameOver := isGameOver |},
           setLobbies (<[lobbyCode := lobby3]> (lobbies gm)) gm)
      end
  end.

Definition resetPlayer (p : Player.t) : Player.t :=
  Player.setRoundScore (Num.Int 0)
    (Player.setLastGuessCorrect false
       (Player.setHasGuessed false
          (Player.setIsReady (Player.isHost p)
             (Player.setStreak 0 (Player.setScore (Num.Int 0) p))))).

Definition resetLobby (gm : GameManager) (lobbyCode : jsstring)
  : option Lobby.t * GameManager :=
  match lobbies gm !! lobbyCode with
  | None => (None, gm)
  | Some lobby =>
      let lobby' :=
        Lobby.setPlayers (Obj.forEach resetPlayer (Lobby.players lobby))
          (Lobby.setRoundHistory []
             (Lobby.setCurrentRound None (Lobby.setState waiting lobby))) in
      (Some lobby', setLobbies (<[lobbyCode := lobby']> (lobbies gm)) gm)
  end.

(** [kickedSocketId] is [None] for [undefined].  When the lobby does not
    own [targetPlayerId] and [Object.prototype] has a property of this name,
    [target] is that property: it is truthy and has neither [isHost] nor
    [socketId], so nothing is deleted from the players, the two
    [delete(undefined)] find no entry, and the call returns the lobby. *)
Definition kickPlayer (gm : GameManager) (socketId targetPlayerId : jsstring)
  : option (Lobby.t * option jsstring) * GameManager :=
  match getLobbyBySocket gm socketId, getPlayerIdBySocket gm socketId with
  | Some lobby, Some playerId =>
      if bool_decide (Lobby.hostId lobby ≠ playerId) then (None, gm) else
      match Obj.get targetPlayerId (Lobby.players lobby) with
      | None =>
          if Obj.inherited targetPlayerId then (Some (lobby, None), gm)
          else (None, gm)
      | Some target =>
          if Player.isHost target then (None, gm) else
          let kickedSocketId := Player.socketId target in
          let lobby' :=
            Lobby.setPlayers (Obj.delete targetPlayerId (Lobby.players lobby)) lobby in
          let gm1 := storeLobbyOfSocket gm socketId lobby' in
          (Some (lobby', Some kickedSocketId),
           {| lobbies := lobbies gm1;
              playerToLobby := delete kickedSocketId (playerToLobby gm1);
              playerIds := delete kickedSocketId (playerIds gm1) |})
      end
  | _, _ => (None, gm)
  end.

(** *** cleanup *)

Definition forgetPlayer (gm : GameManager) (p : Player.t) : GameManager :=
  {| lobbies := lobbies gm;
     playerToLobby := delete (Player.socketId p) (playerToLobby gm);
     playerIds := delete (Player.socketId p) (playerIds gm) |}.

Definition cleanup (gm : GameManager) (now : Z) : GameManager :=
  let maxAge := (3 * 60 * 60 * 1000)%Z in
  map_fold
    (fun code lobby acc =>
       if (now - Lobby.createdAt lobby >? maxAge)%Z
       then
         let acc1 := fold_left forgetPlayer (Obj.values (Lobby.players lobby)) acc in
         setLobbies (delete code (lobbies acc1)) acc1
       else acc)
    gm (lobbies gm).

(** ** Sequences of operations

    One constructor per mutating method, with the inputs of the call.
    [getGameResults] only reads. *)
Inductive Op :=
| OpCreateLobby (draws : list nat) (playerId : jsstring) (now : Z)
                (socketId playerName : jsstring) (avatar : Avatar)
| OpJoinLobby (playerId code socketId playerName : jsstring) (avatar : Avatar)
| OpLeaveLobby (socketId : jsstring)
| OpUpdateSettings (socketId : jsstring) (settings : GameSettings.partial)
| OpAddSong (nanoid socketId : jsstring) (songData : Song.t)
| OpAddSongsBulk (socketId : jsstring) (songsData : list (jsstring * Song.t))
| OpRemoveSong (socketId songId : jsstring)
| OpToggleReady (socketId : jsstring)
| OpStartGame (socketId : jsstring)
| OpStartRound (rnd : Random) (now : Z) (lobbyCode : jsstring)
| OpSubmitGuess (now : Z) (socketId guess : jsstring)
| OpEndRound (lobbyCode : jsstring)
| OpResetLobby (lobbyCode : jsstring)
| OpKickPlayer (socketId targetPlayerId : jsstring)
| OpCleanup (now : Z).

Definition stateOf {A} (o : outcome A) (gm : GameManager) : GameManager :=
  match o with
  | Returned _ gm' => gm'
  | _ => gm
  end.

Section Run.
Context `{Builtins}.

(** The state after the call (the state before it when the call throws). *)
Definition step (gm : GameManager) (op : Op) : GameManager :=
  match op with
  | OpCreateLobby draws playerId now socketId playerName avatar =>
      match createLobby gm draws playerId now socketId playerName avatar with
      | Some (_, _, gm') => gm'
      | None => gm
      end
  | OpJoinLobby playerId code socketId playerName avatar =>
      stateOf (joinLobby gm playerId code socketId playerName avatar) gm
  | OpLeaveLobby socketId => snd (leaveLobby gm socketId)
  | OpUpdateSettings socketId settings => snd (updateSettings gm socketId settings)
  | OpAddSong nanoid socketId songData => snd (addSong gm nanoid socketId songData)
  | OpAddSongsBulk socketId songsData => snd (addSongsBulk gm socketId songsData)
  | OpRemoveSong socketId songId => snd (removeSong gm socketId songId)
  | OpToggleReady socketId => stateOf (toggleReady gm socketId) gm
  | OpStartGame socketId => snd (startGame gm socketId)
  | OpStartRound rnd now lobbyCode => snd (startRound gm rnd now lobbyCode)
  | OpSubmitGuess now socketId guess => stateOf (submitGuess gm now socketId guess) gm
  | OpEndRound lobbyCode => snd (endRound gm lobbyCode)
  | OpResetLobby lobbyCode => snd (resetLobby gm lobbyCode)
  | OpKickPlayer socketId targetPlayerId => snd (kickPlayer gm socketId targetPlayerId)
  | OpCleanup now => cleanup gm now
  end.

Definition run (ops : list Op) (gm : GameManager) : GameManager :=
  fold_left step ops gm.

(** Rounds of the current game that have been started: those in the
    history and the one in progress. *)
Definition startedRounds (lobby : Lobby.t) : Z :=
  (Z.of_nat (length (Lobby.roundHistory lobby))
   + (if Lobby.currentRound lobby is Some _ then 1 else 0))%Z.

(** The call does not set [settings.rounds] below the rounds already
    started in the caller's lobby. *)
Definition keepsRounds (gm : GameManager) (op : Op) : Prop :=
  match op with
  | OpUpdateSettings socketId settings =>
      match GameSettings.p_rounds settings, getLobbyBySocket gm socketId with
      | Some r, Some lobby => (startedRounds lobby ≤ r)%Z
      | _, _ => True
      end
  | _ => True
  end.

Inductive reachable : GameManager → Prop :=
| reachable_new : reachable newGameManager
| reachable_step gm op :
    reachable gm → keepsRounds gm op → reachable (step gm op).
End Run.

(** The relation between the history, [settings.rounds], the current round
    and the state that the operations maintain. *)
Definition lobbyInvariant (lobby : Lobby.t) : Prop :=
  (startedRounds lobby ≤ GameSettings.rounds (Lobby.settings lobby))%Z
  ∧ (Lobby.currentRound lobby ≠ None → Lobby.state lobby = playing).

(** How the lobby with code [c] may differ after [op]. *)
Definition lobbyStep `{Builtins} (gm : GameManager) (op : Op) (c : jsstring)
  (l l' : Lobby.t) : Prop :=
  Lobby.code l' = Lobby.code l
  ∧ (keepsRounds gm op → lobbyInvariant l → lobbyInvariant l')
  ∧ (Lobby.state l' = game_over → Lobby.state l = game_over ∨ op = OpEndRound c).

(** The lobby found under [c] after [op] is a new lobby, or comes from the
    lobby that was under [c] before. *)
Definition stepOutcome `{Builtins} (gm : GameManager) (op : Op) (c : jsstring)
  (l' : Lobby.t) : Prop :=
  (Lobby.code l' = c ∧ lobbyInvariant l' ∧ Lobby.state l' ≠ game_over)
  ∨ ∃ l, lobbies gm !! c = Some l ∧ lobbyStep gm op c l l'.

(** Every lobby is stored under its own code. *)
Definition codesAreKeys (gm : GameManager) : Prop :=
  ∀ c l, lobbies gm !! c = Some l → Lobby.code l = c.

(** ** Example data *)

Definition avatar0 : Avatar := {| emoji := js "A"; color := js "#ff4757" |}.

Definition songData (title artist : string) : Song.t :=
  Song.mk [] (js title) (js artist) None None youtube (js "vid") 200 None 0 5.

Definition onlyRounds (r : Z) : GameSettings.partial :=
  GameSettings.mkPartial None None (Some r) None None None None None None.

Definition firstPick : Random :=
  {| pick := 0; shuffleSongs := fun l => l; shuffleTitles := fun l => l |}.

(** A host creates a lobby, adds three songs, starts the game, two rounds
    are played, and the host then lowers [rounds] to 1. *)
Definition lateSettingsTrace : list Op :=
  [ OpCreateLobby [0; 1; 2; 3; 4] (js "host00000001") 0 (js "sock-h") (js "Ann") avatar0;
    OpAddSong (js "song000001") (js "sock-h") (songData "Yesterday" "The Beatles");
    OpAddSong (js "song000002") (js "sock-h") (songData "Imagine" "John Lennon");
    OpAddSong (js "song000003") (js "sock-h") (songData "Hallelujah" "Leonard Cohen");
    OpStartGame (js "sock-h");
    OpStartRound firstPick 3000 (js "ABCDE");
    OpEndRound (js "ABCDE");
    OpStartRound firstPick 40000 (js "ABCDE");
    OpEndRound (js "ABCDE");
    OpUpdateSettings (js "sock-h") (onlyRounds 1) ].

(** The same game with its third and last round in progress. *)
Definition lastRoundOpen : GameManager :=
  step (H := asciiBuiltins)
    (run (H := asciiBuiltins) (take 9 lateSettingsTrace) newGameManager)
    (OpStartRound firstPick 80000 (js "ABCDE")).

(** The lobby just created, with its three songs, and with the game
    started. *)
Definition lobbyCreated : GameManager :=
  run (H := asciiBuiltins) (take 1 lateSettingsTrace) newGameManager.

Definition songsAdded : GameManager :=
  run (H := asciiBuiltins) (take 4 lateSettingsTrace) newGameManager.

Definition gameStarted : GameManager :=
  run (H := asciiBuiltins) (take 5 lateSettingsTrace) newGameManager.

(** A lobby with its host and one guest, who joined with the code in lower
    case. *)
Definition twoPlayers : GameManager :=
  run (H := asciiBuiltins)
    [ OpCreateLobby [0; 1; 2; 3; 4] (js "host00000001") 0 (js "sock-h") (js "Ann") avatar0;
      OpJoinLobby (js "guest0000001") (js "abcde") (js "sock-g") (js "Bob") avatar0 ]
    newGameManager.

(** The third round of a game has just started at time 200000; the host
    guessed the first two songs and has a streak of 2. *)
Definition thirdRoundTrace : list Op :=
  [ OpCreateLobby [0; 1; 2; 3; 4] (js "host00000001") 0 (js "sock-h") (js "Ann") avatar0;
    OpAddSong (js "song000001") (js "sock-h") (songData "Yesterday" "The Beatles");
    OpAddSong (js "song000002") (js "sock-h") (songData "Imagine" "John Lennon");
    OpAddSong (js "song000003") (js "sock-h") (songData "Hallelujah" "Leonard Cohen");
    OpStartGame (js "sock-h");
    OpStartRound firstPick 1000 (js "ABCDE");
    OpSubmitGuess 9000 (js "sock-h") (js "yesterday");
    OpEndRound (js "ABCDE");
    OpStartRound firstPick 100000 (js "ABCDE");
    OpSubmitGuess 120000 (js "sock-h") (js "Imagine!");
    OpEndRound (js "ABCDE");
    OpStartRound firstPick 200000 (js "ABCDE") ].

Definition thirdRound : GameManager :=
  run (H := asciiBuiltins) thirdRoundTrace newGameManager.

(** The same game after its first round: the host has guessed the song and
    the round is in the history. *)
Definition firstRoundOver : GameManager :=
  run (H := asciiBuiltins) (take 8 thirdRoundTrace) newGameManager.

Definition gridStyle : GameSettings.partial :=
  GameSettings.mkPartial None (Some grid) None None None None None None None.

Definition onlyTimePerRound (t : Z) : GameSettings.partial :=
  GameSettings.mkPartial None None None (Some t) None None None None None.

(** A game of the host and a guest in guess style [grid].  The first round
    starts at time 1000, and the guest names its song 27 seconds later. *)
Definition twoPlayerTrace : list Op :=
  [ OpCreateLobby [0; 1; 2; 3; 4] (js "host00000001") 0 (js "sock-h") (js "Ann") avatar0;
    OpJoinLobby (js "guest0000001") (js "abcde") (js "sock-g") (js "Bob") avatar0;
    OpAddSong (js "song000001") (js "sock-h") (songData "Yesterday" "The Beatles");
    OpAddSong (js "song000002") (js "sock-h") (songData "Imagine" "John Lennon");
    OpAddSong (js "song000003") (js "sock-h") (songData "Hallelujah" "Leonard Cohen");
    OpToggleReady (js "sock-g");
    OpUpdateSettings (js "sock-h") gridStyle;
    OpStartGame (js "sock-h");
    OpStartRound firstPick 1000 (js "ABCDE");
    OpSubmitGuess 28000 (js "sock-g") (js "yesterday") ].

Definition twoPlayerGame : GameManager :=
  run (H := asciiBuiltins) (take 8 twoPlayerTrace) newGameManager.


Definition guestGuessed : GameManager :=
  run (H := asciiBuiltins) twoPlayerTrace newGameManager.

(** A game whose host has set [timePerRound] to 0; its first round has
    started at time 1000. *)
Definition noTimeTrace : list Op :=
  [ OpCreateLobby [0; 1; 2; 3; 4] (js "host00000001") 0 (js "sock-h") (js "Ann") avatar0;
    OpAddSong (js "song000001") (js "sock-h") (songData "Yesterday" "The Beatles");
    OpAddSong (js "song000002") (js "sock-h") (songData "Imagine" "John Lennon");
    OpAddSong (js "song000003") (js "sock-h") (songData "Hallelujah" "Leonard Cohen");
    OpUpdateSettings (js "sock-h") (onlyTimePerRound 0);
    OpStartGame (js "sock-h");
    OpStartRound firstPick 1000 (js "ABCDE") ].

Definition noTimeRound : GameManager :=
  run (H := asciiBuiltins) noTimeTrace newGameManager.

(** A five-letter title, and a guess that is a three-letter prefix of it. *)
Definition songAbcde : Song.t := songData "abcde" "zzzzzzzz".

(** A song whose artist is one letter. *)
Definition songArtistX : Song.t := songData "Some Long Title" "X".

(** ** getGameResults *)

(** The comparator [(a, b) => b.score - a.score]. *)
Definition byScore (a b : Player.t) : Num.t :=
  Num.sub (Player.score b) (Player.score a).

(** The stable sort.  [insertSorted comparefn p sorted] puts [p], which
    comes before the elements of [sorted] in the original order, behind
    those the comparator orders strictly before it (a result that is [NaN]
    counts as 0). *)
Fixpoint insertSorted (comparefn : Player.t → Player.t → Num.t) (p : Player.t)
  (sorted : list Player.t) : list Player.t :=
  match sorted with
  | [] => [p]
  | q :: rest =>
      if Num.positive (comparefn p q)
      then q :: insertSorted comparefn p rest
      else p :: sorted
  end.

Definition stableSort (comparefn : Player.t → Player.t → Num.t)
  (ps : list Player.t) : list Player.t :=
  foldr (insertSorted comparefn) [] ps.

(** A consistent comparator orders the elements as a ranking does. *)
Definition consistentOn (comparefn : Player.t → Player.t → Num.t)
  (ps : list Player.t) : Prop :=
  ∃ rank : Player.t → Z,
    ∀ a b, In a ps → In b ps →
           (Num.positive (comparefn a b) = true ↔ (rank b < rank a)%Z)
           ∧ (Num.negative (comparefn a b) = true ↔ (rank a < rank b)%Z).

(** [Array.prototype.sort]: it rearranges the elements; the sort is stable,
    and the order is the engine's own when the comparator is not
    consistent. *)
Class ArraySort := {
  sort : (Player.t → Player.t → Num.t) → list Player.t → list Player.t;
  sort_permutation : ∀ comparefn ps, sort comparefn ps ≡ₚ ps;
  sort_consistent :
    ∀ comparefn ps, consistentOn comparefn ps →
                    sort comparefn ps = stableSort comparefn ps
}.

(** An engine that sorts by insertion. *)
Definition insertionSort : ArraySort.
Proof.
  refine {| sort := stableSort; sort_consistent := fun _ _ _ => eq_refl |}.
  intros comparefn ps. induction ps as [|p ps IH]; [reflexivity|].
  cbn [stableSort foldr]. fold (stableSort comparefn ps).
  transitivity (p :: stableSort comparefn ps); [|by constructor].
  generalize (stableSort comparefn ps). intros l.
  induction l as [|q l IHl]; cbn [insertSorted]; [reflexivity|].
  destruct (Num.positive _); [|reflexivity].
  rewrite IHl. apply perm_swap.
Defined.

(** [mvp] is [players[0]], which is [undefined] for an empty array. *)
Record GameResults := {
  res_players : list Player.t;
  res_mvp : option Player.t
}.

Definition getGameResults `{ArraySort} (gm : GameManager) (lobbyCode : jsstring)
  : option GameResults :=
  match lobbies gm !! lobbyCode with
  | None => None
  | Some lobby =>
      let players := sort byScore (Obj.values (Lobby.players lobby)) in
      Some {| res_players := players; res_mvp := head players |}
  end.

(** Three players with scores 1200, 2500 and 2500, in this order. *)
Definition scoredPlayer (id : string) (score : Z) : Player.t :=
  {| Player.id := js id; Player.socketId := js id; Player.name := js id;
     Player.avatar := avatar0; Player.score := Num.Int score; Player.streak := 0;
     Player.isHost := false; Player.isReady := true; Player.hasGuessed := false;
     Player.lastGuessCorrect := false; Player.roundScore := Num.Int 0 |}.

Definition threeScores : GameManager :=
  {| lobbies :=
       {[ js "ABCDE" :=
            {| Lobby.code := js "ABCDE"; Lobby.hostId := js "p1";
               Lobby.state := game_over;
               Lobby.players := [(js "p1", scoredPlayer "p1" 1200);
                                 (js "p2", scoredPlayer "p2" 2500);
                                 (js "p3", scoredPlayer "p3" 2500)];
               Lobby.settings := DEFAULT_SETTINGS; Lobby.songs := [];
               Lobby.currentRound := None; Lobby.roundHistory := [];
               Lobby.createdAt := 0 |} ]};
     playerToLobby := ∅; playerIds := ∅ |}.

(** The two indices by socket have the same keys. *)
Definition indicesAgree (gm : GameManager) : Prop :=
  ∀ s, playerToLobby gm !! s = None ↔ playerIds gm !! s = None.

(** ** What one call does to a lobby

    The assignments each method makes to a lobby it changes; a call changes
    at most one lobby, or creates one. *)

Section Changes.
Context `{Builtins}.

Inductive lobbyChange (gm : GameManager) : Op → Lobby.t → Lobby.t → Prop :=
| change_join playerId code socketId playerName avatar l player :
    lobbies gm !! toUpperCase code = Some l →
    Lobby.state l = waiting →
    Player.id player = playerId →
    Player.isHost player = false →
    Player.score player = Num.Int 0 →
    Player.streak player = 0%Z →
    lobbyChange gm (OpJoinLobby playerId code socketId playerName avatar) l
      (Lobby.setPlayers (Obj.set playerId player (Lobby.players l)) l)
| change_leave socketId playerId l newHostId rest :
    Obj.keys (Obj.delete playerId (Lobby.players l)) = newHostId :: rest →
    (∀ p, Obj.get playerId (Lobby.players l) = Some p → Player.isHost p = false) →
    lobbyChange gm (OpLeaveLobby socketId) l
      (Lobby.setPlayers (Obj.delete playerId (Lobby.players l)) l)
| change_leave_host socketId playerId l p newHostId rest :
    Obj.keys (Obj.delete playerId (Lobby.players l)) = newHostId :: rest →
    Obj.get playerId (Lobby.players l) = Some p →
    Player.isHost p = true →
    lobbyChange gm (OpLeaveLobby socketId) l
      (Lobby.setHostId newHostId
         (Lobby.setPlayers
            (Obj.modify newHostId (Player.setIsHost true)
               (Obj.delete playerId (Lobby.players l)))
            l))
| change_updateSettings socketId settings l :
    getLobbyBySocket gm socketId = Some l →
    lobbyChange gm (OpUpdateSettings socketId settings) l
      (Lobby.setSettings (GameSettings.merge (Lobby.settings l) settings) l)
| change_addSong nanoid socketId songData l :
    lobbyChange gm (OpAddSong nanoid socketId songData) l
      (Lobby.setSongs (Lobby.songs l ++ [Song.setId nanoid songData]) l)
| change_addSongsBulk socketId songsData l :
    lobbyChange gm (OpAddSongsBulk socketId songsData) l
      (Lobby.setSongs
         (Lobby.songs l ++ map (fun s => Song.setId (fst s) (snd s)) songsData) l)
| change_removeSong socketId songId l :
    lobbyChange gm (OpRemoveSong socketId songId) l
      (Lobby.setSongs
         (List.filter (fun s => bool_decide (Song.id s ≠ songId)) (Lobby.songs l)) l)
| change_toggleReady socketId playerId p l :
    Obj.get playerId (Lobby.players l) = Some p →
    lobbyChange gm (OpToggleReady socketId) l
      (Lobby.setPlayers
         (Obj.modify playerId (Player.setIsReady (negb (Player.isReady p)))
            (Lobby.players l))
         l)
| change_startGame socketId l :
    can (canStartGame l) = true →
    lobbyChange gm (OpStartGame socketId) l
      (Lobby.setSettings
         (GameSettings.setRounds
            (Z.min (GameSettings.rounds (Lobby.settings l))
                   (Z.of_nat (length (Lobby.songs l))))
            (Lobby.settings l))
         (Lobby.setCurrentRound None
            (Lobby.setRoundHistory []
               (Lobby.setState playing
                  (Lobby.setPlayers (Obj.forEach resetScores (Lobby.players l)) l)))))
| change_startRound rnd now lobbyCode l round :
    Lobby.state l = playing →
    RoundState.roundNumber round = (Z.of_nat (length (Lobby.roundHistory l)) + 1)%Z →
    (RoundState.roundNumber round ≤ GameSettings.rounds (Lobby.settings l))%Z →
    In (RoundState.song round) (availableSongs l) →
    RoundState.startedAt round = now →
    RoundState.phase round = phase_playing →
    RoundState.guesses round = [] →
    lobbyChange gm (OpStartRound rnd now lobbyCode) l
      (Lobby.setCurrentRound (Some round)
         (Lobby.setPlayers (Obj.forEach resetGuessState (Lobby.players l)) l))
| change_guess_correct now socketId guess l playerId round player record :
    Lobby.currentRound l = Some round →
    Obj.get playerId (Lobby.players l) = Some player →
    Player.hasGuessed player = false →
    GuessRecord.correct record = true →
    GuessRecord.score record
    = Num.add
        (Num.add (Num.Int 1000)
           (timeBonus (GameSettings.scoreMultiplierSpeed (Lobby.settings l))
              (elapsedSeconds now (RoundState.startedAt round))
              (GameSettings.timePerRound (Lobby.settings l))))
        (Num.mul (Num.Int (Player.streak player)) (Num.Int 100)) →
    lobbyChange gm (OpSubmitGuess now socketId guess) l
      (Lobby.setCurrentRound
         (Some (RoundState.setGuesses
                  (Obj.set playerId record (RoundState.guesses round)) round))
         (Lobby.setPlayers
            (Obj.modify playerId
               (fun _ =>
                  Player.setRoundScore (GuessRecord.score record)
                    (Player.setLastGuessCorrect true
                       (Player.setHasGuessed true
                          (Player.setScore
                             (Num.add (Player.score player) (GuessRecord.score record))
                             (Player.setStreak (Player.streak player + 1) player)))))
               (Lobby.players l))
            l))
| change_guess_wrong now socketId guess l playerId round player record :
    Lobby.currentRound l = Some round →
    Obj.get playerId (Lobby.players l) = Some player →
    Player.hasGuessed player = false →
    GuessRecord.correct record = false →
    GuessRecord.score record = Num.Int 0 →
    lobbyChange gm (OpSubmitGuess now socketId guess) l
      (Lobby.setCurrentRound
         (Some (RoundState.setGuesses
                  (Obj.set playerId record (RoundState.guesses round)) round))
         (Lobby.setPlayers
            (Obj.modify playerId
               (fun _ =>
                  Player.setRoundScore (Num.Int 0)
                    (Player.setLastGuessCorrect false
                       (Player.setHasGuessed true (Player.setStreak 0 player))))
               (Lobby.players l))
            l))
| change_endRound lobbyCode l round :
    Lobby.currentRound l = Some round →
    lobbyChange gm (OpEndRound lobbyCode) l
      (let l1 :=
         Lobby.setRoundHistory
           (Lobby.roundHistory l ++ [RoundState.setPhase phase_reveal round]) l in
       Lobby.setCurrentRound None
         (if (Z.of_nat (length (Lobby.roundHistory l1))
              >=? GameSettings.rounds (Lobby.settings l1))%Z
          then Lobby.setState game_over l1 else l1))
| change_resetLobby lobbyCode l :
    lobbyChange gm (OpResetLobby lobbyCode) l
      (Lobby.setPlayers (Obj.forEach resetPlayer (Lobby.players l))
         (Lobby.setRoundHistory []
            (Lobby.setCurrentRound None (Lobby.setState waiting l))))
| change_kickPlayer socketId targetPlayerId target l :
    Obj.get targetPlayerId (Lobby.players l) = Some target →
    Player.isHost target = false →
    lobbyChange gm (OpKickPlayer socketId targetPlayerId) l
      (Lobby.setPlayers (Obj.delete targetPlayerId (Lobby.players l)) l).

(** The lobby [createLobby] makes. *)
Definition newLobby (gm : GameManager) (op : Op) (c : jsstring) (l : Lobby.t) : Prop :=
  ∃ draws playerId now socketId playerName avatar rest player,
    op = OpCreateLobby draws playerId now socketId playerName avatar
    ∧ generateCode (lobbies gm) draws = Some (c, rest)
    ∧ Player.id player = playerId
    ∧ Player.isHost player = true
    ∧ Player.score player = Num.Int 0
    ∧ Player.streak player = 0%Z
    ∧ l = {| Lobby.code := c; Lobby.hostId := playerId; Lobby.state := waiting;
             Lobby.players := [(playerId, player)];
             Lobby.settings := DEFAULT_SETTINGS; Lobby.songs := [];
             Lobby.currentRound := None; Lobby.roundHistory := [];
             Lobby.createdAt := now |}.

(** The player id of a [joinLobby] call is not yet in the lobby joined: the
    generator of ids gives no id twice. *)
Definition freshPlayerId (gm : GameManager) (op : Op) : Prop :=
  match op with
  | OpJoinLobby playerId code _ _ _ =>
      ∀ l, lobbies gm !! toUpperCase code = Some l →
           Obj.get playerId (Lobby.players l) = None
  | _ => True
  end.

Fixpoint freshPlayerIds (gm : GameManager) (ops : list Op) : Prop :=
  match ops with
  | [] => True
  | op :: rest => freshPlayerId gm op ∧ freshPlayerIds (step gm op) rest
  end.
End Changes.

(** The history numbers its rounds from 1, all revealed and with distinct
    songs; the round in progress is the next one, and its song is none of
    theirs. *)
Definition roundsWellFormed (l : Lobby.t) : Prop :=
  (∀ i r, Lobby.roundHistory l !! i = Some r →
          RoundState.roundNumber r = (Z.of_nat i + 1)%Z
          ∧ RoundState.phase r = phase_reveal)
  ∧ NoDup (usedSongIds l)
  ∧ (∀ r, Lobby.currentRound l = Some r →
          RoundState.roundNumber r = (Z.of_nat (length (Lobby.roundHistory l)) + 1)%Z
          ∧ RoundState.phase r = phase_playing
          ∧ Song.id (RoundState.song r) ∉ usedSongIds l).

(** Every player is stored once, under its own id, with a score and a
    streak that are not negative. *)
Definition playersWellFormed (l : Lobby.t) : Prop :=
  NoDup (Obj.keys (Lobby.players l))
  ∧ ∀ k p, Obj.get k (Lobby.players l) = Some p →
           Player.id p = k ∧ Num.notNegative (Player.score p)
           ∧ (0 ≤ Player.streak p)%Z.

(** The host is a player of the lobby, and the only one with [isHost]. *)
Definition hostInvariant (l : Lobby.t) : Prop :=
  (∃ h, Obj.get (Lobby.hostId l) (Lobby.players l) = Some h)
  ∧ ∀ k p, Obj.get k (Lobby.players l) = Some p →
           (Player.isHost p = true ↔ k = Lobby.hostId l).

(** A host creates a lobby, a guest joins it, and the host leaves. *)
Definition hostLeavesTrace : list Op :=
  [ OpCreateLobby [0; 1; 2; 3; 4] (js "host00000001") 0 (js "sock-h") (js "Ann") avatar0;
    OpJoinLobby (js "guest0000001") (js "abcde") (js "sock-g") (js "Bob") avatar0;
    OpLeaveLobby (js "sock-h") ].

(** ** A game, round by round

    The calls of one round: [startRound], the guesses that come in while
    the round is open (time, socket and text of each), and [endRound]. *)
Record RoundPlay := {
  rp_random : Random;
  rp_start : Z;
  rp_guesses : list (Z * jsstring * jsstring)
}.

Definition roundOps (lobbyCode : jsstring) (r : RoundPlay) : list Op :=
  OpStartRound (rp_random r) (rp_start r) lobbyCode
  :: map (fun g => OpSubmitGuess (fst (fst g)) (snd (fst g)) (snd g)) (rp_guesses r)
  ++ [OpEndRound lobbyCode].

Definition gameOps (lobbyCode : jsstring) (rs : list RoundPlay) : list Op :=
  concat (map (roundOps lobbyCode) rs).

(** Three rounds of the game of [gameStarted]; the host guesses in the
    first. *)
Definition threeRounds : list RoundPlay :=
  [ {| rp_random := firstPick; rp_start := 1000;
       rp_guesses := [(9000%Z, js "sock-h", js "yesterday")] |};
    {| rp_random := firstPick; rp_start := 40000; rp_guesses := [] |};
    {| rp_random := firstPick; rp_start := 80000; rp_guesses := [] |} ].

(** [{}] as a [Partial<GameSettings>]. *)
Definition noSettings : GameSettings.partial :=
  GameSettings.mkPartial None None None None None None None None None.

(** * Properties *)

(** ** The guess matcher *)

Section MatcherFacts.
Context `{Builtins}.



(** The rows computed by [levenshteinRow] are the rows of the matrix. *)
Lemma matrixRow_head (rb rap rest : jsstring) :
  matrixRow rb rap rest = levenshteinMatrix rb rap :: tail (matrixRow rb rap rest).
Proof. by destruct rest. Qed.

Lemma matrixRow_first (rap rest : jsstring) :
  seq (length rap) (S (length rest)) = matrixRow [] rap rest.
Proof.
  revert rap. induction rest as [|ac rest IH]; intros rap; [done|].
  cbn [length seq matrixRow levenshteinMatrix]. f_equal. apply (IH (ac :: rap)).
Qed.

Lemma levenshteinRow_matrix (bc : N) (rb rap rest : jsstring) :
  levenshteinRow bc rest (matrixRow rb rap rest) (levenshteinMatrix (bc :: rb) rap)
  = tail (matrixRow (bc :: rb) rap rest).
Proof.
  revert rap. induction rest as [|ac rest IH]; intros rap; [done|].
  cbn [matrixRow tail]. rewrite (matrixRow_head rb (ac :: rap) rest).
  cbn [levenshteinRow]. rewrite <- (matrixRow_head rb (ac :: rap) rest).
  rewrite (matrixRow_head (bc :: rb) (ac :: rap) rest).
  change (if (bc =? ac)%N
          then levenshteinMatrix rb rap
          else Nat.min (levenshteinMatrix rb rap + 1)
                 (Nat.min (levenshteinMatrix (bc :: rb) rap + 1)
                    (levenshteinMatrix rb (ac :: rap) + 1)))
    with (levenshteinMatrix (bc :: rb) (ac :: rap)).
  by rewrite IH.
Qed.

Lemma levenshteinRows_matrix (a bs rb : jsstring) :
  fold_left
    (fun st bc => (S (fst st), S (fst st) :: levenshteinRow bc a (snd st) (S (fst st))))
    bs (length rb, matrixRow rb [] a)
  = (length rb + length bs, matrixRow (rev bs ++ rb) [] a).
Proof.
  revert rb. induction bs as [|bc bs IH]; intros rb.
  - cbn. by rewrite Nat.add_0_r.
  - cbn [fold_left fst snd].
    pose proof (levenshteinRow_matrix bc rb [] a) as Hrow.
    cbn [levenshteinMatrix length] in Hrow. rewrite Hrow.
    pose proof (matrixRow_head (bc :: rb) [] a) as Hhead.
    cbn [levenshteinMatrix length] in Hhead. rewrite <- Hhead.
    change (S (length rb)) with (length (bc :: rb)).
    rewrite (IH (bc :: rb)). cbn [length rev]. rewrite <- app_assoc.
    f_equal. lia.
Qed.

Lemma matrixRow_last (rb rap rest : jsstring) (d : nat) :
  List.last (matrixRow rb rap rest) d = levenshteinMatrix rb (rev rest ++ rap).
Proof.
  revert rap. induction rest as [|ac rest IH]; intros rap; [done|].
  cbn [matrixRow rev]. rewrite <- app_assoc. cbn [app].
  rewrite <- (IH (ac :: rap)). by rewrite (matrixRow_head rb (ac :: rap) rest).
Qed.

(** [levenshteinDistance a b] is the entry [matrix[b.length][a.length]] of
    the recurrence. *)
Lemma levenshteinDistance_matrix (a b : jsstring) :
  levenshteinDistance a b = levenshteinMatrix (rev b) (rev a).
Proof.
  unfold levenshteinDistance, levenshteinRows.
  pose proof (matrixRow_first [] a) as Hfirst. cbn [length] in Hfirst.
  rewrite Hfirst.
  pose proof (levenshteinRows_matrix a b []) as Hrows. cbn [length] in Hrows.
  rewrite Hrows. cbn [snd]. by rewrite matrixRow_last, !app_nil_r.
Qed.

Lemma levenshteinMatrix_nil_r (rb : jsstring) : levenshteinMatrix rb [] = length rb.
Proof. by destruct rb. Qed.

Lemma levenshteinMatrix_cons (bc ac : N) (rb ra : jsstring) :
  levenshteinMatrix (bc :: rb) (ac :: ra)
  = if (bc =? ac)%N then levenshteinMatrix rb ra
    else Nat.min (levenshteinMatrix rb ra + 1)
           (Nat.min (levenshteinMatrix (bc :: rb) ra + 1)
              (levenshteinMatrix rb (ac :: ra) + 1)).
Proof. reflexivity. Qed.

(** Turning the empty string into [b] takes [b.length] insertions. *)
Lemma levenshteinDistance_empty (b : jsstring) :
  levenshteinDistance [] b = length b.
Proof.
  rewrite levenshteinDistance_matrix. cbn [rev].
  by rewrite levenshteinMatrix_nil_r, length_rev.
Qed.

(** One more character on either side changes an entry by at most one. *)
Lemma levenshteinMatrix_step_b (n : nat) :
  ∀ rb ra, length rb + length ra ≤ n →
    (∀ bc, levenshteinMatrix (bc :: rb) ra ≤ S (levenshteinMatrix rb ra))
    ∧ (∀ ac, levenshteinMatrix rb ra ≤ S (levenshteinMatrix rb (ac :: ra))).
Proof.
  induction n as [n IH] using lt_wf_ind. intros rb ra Hn. split.
  - intros bc. destruct ra as [|ac ra].
    + rewrite !levenshteinMatrix_nil_r. cbn [length]. lia.
    + rewrite levenshteinMatrix_cons. destruct (bc =? ac)%N.
      * cbn [length] in Hn.
        apply (IH (length rb + length ra) ltac:(lia) rb ra ltac:(lia)).
      * lia.
  - intros ac. destruct rb as [|bc rb].
    + cbn [levenshteinMatrix length]. lia.
    + cbn [length] in Hn.
      destruct (IH (length rb + length ra) ltac:(lia) rb ra ltac:(lia)) as [Hb Ha].
      specialize (Hb bc). specialize (Ha ac).
      rewrite levenshteinMatrix_cons. destruct (bc =? ac)%N; lia.
Qed.

Lemma levenshteinMatrix_step_a (n : nat) :
  ∀ rb ra, length rb + length ra ≤ n →
    (∀ ac, levenshteinMatrix rb (ac :: ra) ≤ S (levenshteinMatrix rb ra))
    ∧ (∀ bc, levenshteinMatrix rb ra ≤ S (levenshteinMatrix (bc :: rb) ra)).
Proof.
  induction n as [n IH] using lt_wf_ind. intros rb ra Hn. split.
  - intros ac. destruct rb as [|bc rb].
    + cbn [levenshteinMatrix length]. lia.
    + rewrite levenshteinMatrix_cons. destruct (bc =? ac)%N.
      * cbn [length] in Hn.
        apply (IH (length rb + length ra) ltac:(lia) rb ra ltac:(lia)).
      * lia.
  - intros bc. destruct ra as [|ac ra].
    + rewrite !levenshteinMatrix_nil_r. cbn [length]. lia.
    + cbn [length] in Hn.
      destruct (IH (length rb + length ra) ltac:(lia) rb ra ltac:(lia)) as [Ha Hb].
      specialize (Ha ac). specialize (Hb bc).
      rewrite levenshteinMatrix_cons. destruct (bc =? ac)%N; lia.
Qed.

(** No sequence of edits is shorter than the entry of the matrix. *)
Lemma levenshteinMatrix_le (ra rb : jsstring) (n : nat) :
  edits ra rb n → levenshteinMatrix rb ra ≤ n.
Proof.
  induction 1 as [|x a b n _ IH|x y a b n _ IH|x a b n _ IH|y a b n _ IH].
  - done.
  - rewrite levenshteinMatrix_cons, N.eqb_refl. exact IH.
  - rewrite levenshteinMatrix_cons. destruct (y =? x)%N; lia.
  - pose proof (proj1 (levenshteinMatrix_step_a _ b a (le_n _)) x). lia.
  - pose proof (proj1 (levenshteinMatrix_step_b _ b a (le_n _)) y). lia.
Qed.

(** The entry of the matrix is the cost of some sequence of edits. *)
Lemma levenshteinMatrix_edits (n : nat) :
  ∀ ra rb, length rb + length ra ≤ n → edits ra rb (levenshteinMatrix rb ra).
Proof.
  induction n as [n IH] using lt_wf_ind. intros ra rb Hn.
  destruct rb as [|bc rb].
  - cbn [levenshteinMatrix]. clear. induction ra as [|ac ra IHra]; cbn [length].
    + constructor.
    + by constructor.
  - destruct ra as [|ac ra].
    + rewrite levenshteinMatrix_nil_r. clear.
      generalize (bc :: rb). intros l. induction l as [|c l IHl]; cbn [length].
      * constructor.
      * by constructor.
    + cbn [length] in Hn. rewrite levenshteinMatrix_cons.
      pose proof (IH (length rb + length ra) ltac:(lia) ra rb ltac:(lia)) as Hdiag.
      pose proof (IH (length (bc :: rb) + length ra) ltac:(cbn [length]; lia)
                    ra (bc :: rb) ltac:(lia)) as Hleft.
      pose proof (IH (length rb + length (ac :: ra)) ltac:(cbn [length]; lia)
                    (ac :: ra) rb ltac:(lia)) as Hup.
      destruct (bc =? ac)%N eqn:Heq.
      * apply N.eqb_eq in Heq as ->. by constructor.
      * destruct (Nat.min_spec (levenshteinMatrix rb ra + 1)
                    (Nat.min (levenshteinMatrix (bc :: rb) ra + 1)
                       (levenshteinMatrix rb (ac :: ra) + 1))) as [[_ ->] | [_ ->]].
        { rewrite Nat.add_1_r. by constructor. }
        destruct (Nat.min_spec (levenshteinMatrix (bc :: rb) ra + 1)
                    (levenshteinMatrix rb (ac :: ra) + 1)) as [[_ ->] | [_ ->]];
          rewrite Nat.add_1_r; by constructor.
Qed.

Lemma edits_app (a b a' b' : jsstring) (n m : nat) :
  edits a b n → edits a' b' m → edits (a ++ a') (b ++ b') (n + m).
Proof.
  intros Hab Hab'. induction Hab; cbn [app Nat.add]; try by constructor.
  exact Hab'.
Qed.

Lemma edits_rev (a b : jsstring) (n : nat) :
  edits a b n → edits (rev a) (rev b) n.
Proof.
  induction 1 as [|x a b n _ IH|x y a b n _ IH|x a b n _ IH|y a b n _ IH];
    cbn [rev].
  - constructor.
  - rewrite <- (Nat.add_0_r n). apply edits_app; [done|]. repeat constructor.
  - rewrite <- Nat.add_1_r. apply edits_app; [done|]. repeat constructor.
  - rewrite <- Nat.add_1_r, <- (app_nil_r (rev b)).
    apply edits_app; [done|]. repeat constructor.
  - rewrite <- Nat.add_1_r, <- (app_nil_r (rev a)).
    apply edits_app; [done|]. repeat constructor.
Qed.

(** [levenshteinDistance a b] is the least number of insertions, deletions
    and substitutions that turn [a] into [b]. *)
Lemma levenshteinDistance_least (a b : jsstring) :
  edits a b (levenshteinDistance a b)
  ∧ ∀ n, edits a b n → levenshteinDistance a b ≤ n.
Proof.
  rewrite levenshteinDistance_matrix. split.
  - rewrite <- (rev_involutive a) at 1. rewrite <- (rev_involutive b) at 1.
    apply edits_rev. by apply (levenshteinMatrix_edits _ _ _ (le_n _)).
  - intros n Hn. apply levenshteinMatrix_le. by apply edits_rev.
Qed.

Lemma startsWith_refl (s : jsstring) : startsWith s s = true.
Proof. induction s as [|c s IH]; simpl; [done|]. by rewrite N.eqb_refl. Qed.

Lemma includes_refl (s : jsstring) : includes s s = true.
Proof. destruct s; simpl; [done|]. by rewrite N.eqb_refl, startsWith_refl. Qed.

Lemma normalize_empty : normalize [] = [].
Proof. unfold normalize. by rewrite toLowerCase_empty. Qed.

(** The rules of [checkGuess] as one disjunction. *)
Lemma checkGuess_rules (guess : jsstring) (song : Song.t) :
  checkGuess guess song
  = bool_decide (normalize guess = normalize (Song.title song))
    || matchesSomePart (normalize guess) (titleParts (Song.title song))
    || bool_decide (normalize guess = normalize (Song.artist song))
    || (levenshteinDistance (normalize guess) (normalize (Song.artist song))
        <=? fuzzyThreshold (length (normalize (Song.artist song))))
    || (levenshteinDistance (normalize guess) (normalize (Song.title song))
        <=? fuzzyThreshold (length (normalize (Song.title song))))
    || (includes (normalize (Song.title song)) (normalize guess)
        && (3 <=? length (normalize guess)))
    || includes (normalize guess) (normalize (Song.title song)).
Proof.
  unfold checkGuess.
  repeat match goal with
         | |- context [if ?c then true else _] => destruct c; simpl; try reflexivity
         end.
Qed.

(** C10.  The empty guess is accepted for every song whose normalized
    artist, or whose normalized title, is a single character: the distance
    from the empty string is 1 and the threshold is never below 1. *)
Theorem empty_guess_accepted (song : Song.t) :
  length (normalize (Song.artist song)) = 1
  ∨ length (normalize (Song.title song)) = 1 →
  checkGuess [] song = true.
Proof.
  intros Hone. rewrite checkGuess_rules, normalize_empty.
  rewrite !levenshteinDistance_empty.
  destruct Hone as [Ha | Ht].
  - rewrite Ha. simpl. by rewrite !orb_true_r.
  - rewrite Ht. simpl. by rewrite !orb_true_r.
Qed.

(** C2, as the matcher has it.  Guess and title are compared after
    [normalize].  For a normalized title of length at least 5: a guess
    within the threshold [max(1, floor(length / 4))] of the title is
    accepted; a guess at exactly one more than the threshold is accepted
    exactly when one of the other rules accepts it (a part of the title,
    the artist, or containment), and is rejected otherwise.  The distance
    is the least number of insertions, deletions and substitutions. *)
Theorem title_distance_acceptance (guess : jsstring) (song : Song.t) :
  let g := normalize guess in
  let t := normalize (Song.title song) in
  let a := normalize (Song.artist song) in
  5 ≤ length t →
  (levenshteinDistance g t ≤ fuzzyThreshold (length t) →
   checkGuess guess song = true)
  ∧ (levenshteinDistance g t = fuzzyThreshold (length t) + 1 →
     checkGuess guess song
            = matchesSomePart g (titleParts (Song.title song))
              || bool_decide (g = a)
              || (levenshteinDistance g a <=? fuzzyThreshold (length a))
              || (includes t g && (3 <=? length g))
              || includes g t)
         ∧ (edits g t (levenshteinDistance g t)
            ∧ ∀ n, edits g t n → levenshteinDistance g t ≤ n).
     Proof.
       intros g t a Hlen. split; [|split; [|apply levenshteinDistance_least]].
  - intros Hd. rewrite checkGuess_rules. fold g t a.
    apply Nat.leb_le in Hd. rewrite Hd.
    by rewrite !orb_true_r.
  - intros Hd. rewrite checkGuess_rules. fold g t a.
    assert ((levenshteinDistance g t <=? fuzzyThreshold (length t)) = false) as ->.
    { apply Nat.leb_gt. lia. }
    rewrite orb_false_r.
    destruct (decide (g = t)) as [Heq | Hne].
    + rewrite Heq, includes_refl. by rewrite bool_decide_eq_true_2, !orb_true_r.
    + by rewrite (bool_decide_eq_false_2 _ Hne).
Qed.
End MatcherFacts.

(** The matcher on the examples of the design document. *)
Example checkGuess_blinding_lights :
  checkGuess (H := asciiBuiltins) (js "blinding lights")
    (songData "Blinding Lights - The Weeknd" "The Weeknd") = true
  ∧ checkGuess (H := asciiBuiltins) (js "xyz123")
      (songData "Blinding Lights - The Weeknd" "The Weeknd") = false.
Proof. split; reflexivity. Qed.

Example splitSeparators_title :
  splitSeparators 0 (js "Blinding Lights - The Weeknd")
  = [js "Blinding Lights"; js "The Weeknd"].
Proof. reflexivity. Qed.

Example levenshteinDistance_kitten :
  levenshteinDistance (js "kitten") (js "sitting") = 3.
Proof. reflexivity. Qed.

Lemma title_distance_acceptance_witness :
  5 ≤ length (normalize (H := asciiBuiltins) (Song.title songAbcde))
  ∧ checkGuess (H := asciiBuiltins) (js "abxde") songAbcde = true.
Proof.
  assert (5 ≤ length (normalize (H := asciiBuiltins) (Song.title songAbcde))) as Hlen
    by (vm_compute; lia).
  split; [exact Hlen |].
  apply (proj1 (title_distance_acceptance (H := asciiBuiltins) (js "abxde") songAbcde Hlen)).
  vm_compute. lia.
Defined.

(** C2, the counterexample.  The title "abcde" has threshold 1; the guess
    "abc" is at distance 2 and is accepted all the same, being a substring of
    the title of length 3. *)
Lemma distance_above_threshold_accepted :
  ¬ (∀ (B : Builtins) (guess : jsstring) (song : Song.t),
       5 ≤ length (normalize (Song.title song)) →
       levenshteinDistance (normalize guess) (normalize (Song.title song))
       = fuzzyThreshold (length (normalize (Song.title song))) + 1 →
       checkGuess guess song = false).
Proof.
  intros Hclaim.
  specialize (Hclaim asciiBuiltins (js "abc") songAbcde).
  vm_compute in Hclaim.
  discriminate Hclaim; [lia | reflexivity].
Qed.

Lemma empty_guess_accepted_witness :
  (length (normalize (H := asciiBuiltins) (Song.artist songArtistX)) = 1
   ∨ length (normalize (H := asciiBuiltins) (Song.title songArtistX)) = 1)
  ∧ checkGuess (H := asciiBuiltins) [] songArtistX = true.
Proof.
  split; [left; reflexivity |].
  apply (empty_guess_accepted (H := asciiBuiltins) songArtistX).
  left. reflexivity.
Defined.

(** ** Dictionaries *)

Section ObjFacts.
Context {A : Type}.
Implicit Types (o : Obj.t A) (k : jsstring).

Lemma get_app_None k o o' :
  Obj.get k o = None → Obj.get k (o ++ o') = Obj.get k o'.
Proof.
  induction o as [|[k' v] o IH]; simpl; [done|].
  case_bool_decide; [done | auto].
Qed.

Lemma get_map_replace k v o :
  Obj.get k (map (fun kv => if bool_decide (fst kv = k) then (k, v) else kv) o)
  = match Obj.get k o with Some _ => Some v | None => None end.
Proof.
  induction o as [|[k' v'] o IH]; simpl; [done|].
  case_bool_decide as Hk; simpl.
  - by rewrite bool_decide_eq_true_2.
  - by rewrite (bool_decide_eq_false_2 _ Hk).
Qed.

Lemma get_set_eq k v o : Obj.get k (Obj.set k v o) = Some v.
Proof.
  unfold Obj.set, Obj.has.
  destruct (Obj.get k o) eqn:Hg.
  - by rewrite get_map_replace, Hg.
  - rewrite get_app_None by done. simpl. by rewrite bool_decide_eq_true_2.
Qed.

Lemma get_set_ne k k' v o : k ≠ k' → Obj.get k' (Obj.set k v o) = Obj.get k' o.
Proof.
  intros Hne. unfold Obj.set. destruct (Obj.has k o).
  - induction o as [|[k0 v0] o IH]; simpl; [done|].
    destruct (decide (k0 = k)) as [-> | Hk0].
    + rewrite (bool_decide_eq_true_2 (k = k)) by done. simpl.
      by rewrite !(bool_decide_eq_false_2 (k = k')).
    + rewrite (bool_decide_eq_false_2 (k0 = k)) by done. simpl.
      by rewrite IH.
  - induction o as [|[k0 v0] o IH]; simpl.
    + by rewrite bool_decide_eq_false_2.
    + by rewrite IH.
Qed.

Lemma get_delete_eq k o : Obj.get k (Obj.delete k o) = None.
Proof.
  induction o as [|[k' v] o IH]; simpl; [done|].
  case_bool_decide as Hk; simpl; [done|].
  by rewrite (bool_decide_eq_false_2 _ Hk).
Qed.

Lemma get_delete_ne k k' o :
  k ≠ k' → Obj.get k' (Obj.delete k o) = Obj.get k' o.
Proof.
  intros Hne. induction o as [|[k0 v] o IH]; simpl; [done|].
  case_bool_decide as Hk; simpl.
  - subst k0. by rewrite (bool_decide_eq_false_2 _ Hne).
  - by rewrite IH.
Qed.

Lemma get_modify k k' (f : A → A) o :
  Obj.get k' (Obj.modify k f o)
  = if bool_decide (k = k') then f <$> Obj.get k' o else Obj.get k' o.
Proof.
  induction o as [|[k0 v] o IH]; simpl.
  - by case_bool_decide.
  - destruct (decide (k0 = k)) as [-> | Hk0].
    + rewrite (bool_decide_eq_true_2 (k = k)) by done. simpl.
      destruct (decide (k = k')) as [-> | Hkk'].
      * by rewrite !bool_decide_eq_true_2.
      * by rewrite IH, !(bool_decide_eq_false_2 (k = k')).
    + rewrite (bool_decide_eq_false_2 (k0 = k)) by done. simpl.
      destruct (decide (k0 = k')) as [-> | Hk0'].
      * rewrite bool_decide_eq_true_2 by done.
        by rewrite bool_decide_eq_false_2 by congruence.
      * by rewrite (bool_decide_eq_false_2 (k0 = k')).
Qed.

Lemma keys_modify k (f : A → A) o : Obj.keys (Obj.modify k f o) = Obj.keys o.
Proof.
  unfold Obj.keys, Obj.modify. rewrite map_map. apply map_ext.
  intros [k0 v]. by case_bool_decide.
Qed.

Lemma keys_forEach (f : A → A) o : Obj.keys (Obj.forEach f o) = Obj.keys o.
Proof. unfold Obj.keys, Obj.forEach. rewrite map_map. by apply map_ext. Qed.

Lemma values_forEach (f : A → A) o :
  Obj.values (Obj.forEach f o) = map f (Obj.values o).
Proof. unfold Obj.values, Obj.forEach. by rewrite !map_map. Qed.

(** With distinct keys, [modify] touches one value. *)
Lemma values_modify_head k v (f : A → A) o :
  k ∉ Obj.keys o →
  Obj.values (Obj.modify k f ((k, v) :: o)) = f v :: Obj.values o.
Proof.
  intros Hk. unfold Obj.values, Obj.modify. simpl.
  rewrite bool_decide_eq_true_2 by done. simpl. f_equal.
  rewrite map_map. apply map_ext_in. intros [k0 v0] Hin.
  case_bool_decide as Hk0; [|done]. simpl in Hk0. subst k0.
  exfalso. apply Hk. unfold Obj.keys.
  apply list_elem_of_In, in_map_iff. by exists (k, v0).
Qed.

Lemma keys_delete_NoDup k o : NoDup (Obj.keys o) → NoDup (Obj.keys (Obj.delete k o)).
Proof.
  induction o as [|[k0 v] o IH]; simpl; [done|].
  intros [Hnotin Hnd]%NoDup_cons. case_bool_decide; simpl; [auto|].
  apply NoDup_cons. split; [|auto].
  intros Hin. apply Hnotin. unfold Obj.keys, Obj.delete in Hin.
  apply list_elem_of_In, in_map_iff in Hin as ([k1 v1] & Hk1 & Hin1).
  apply filter_In in Hin1 as [Hin1 _]. simpl in Hk1. subst k1.
  apply list_elem_of_In, in_map_iff. by exists (k0, v1).
Qed.
End ObjFacts.

(** ** canStartGame *)

Lemma filter_length_0 {A} (f : A → bool) (l : list A) :
  length (List.filter f l) = 0 ↔ ∀ x, In x l → f x = false.
Proof.
  induction l as [|a l IH]; simpl; [by split|].
  destruct (f a) eqn:Hfa; simpl.
  - split; [done|]. intros Hall. specialize (Hall a (or_introl eq_refl)). congruence.
  - rewrite IH. split.
    + intros Hall x [<- | Hin]; auto.
    + intros Hall x Hin. auto.
Qed.

(** C9.  [canStartGame] answers yes exactly when there is at least one
    player, at least three songs, and every player who is not the host is
    ready.  So: no with two songs, yes with exactly three when the other
    conditions hold, no when some player who is not the host is not ready. *)
Theorem canStartGame_iff (lobby : Lobby.t) :
  let players := Obj.values (Lobby.players lobby) in
  let othersReady :=
    ∀ p, In p players → Player.isHost p = false → Player.isReady p = true in
  (can (canStartGame lobby) = true
   ↔ 1 ≤ length players ∧ 3 ≤ length (Lobby.songs lobby) ∧ othersReady)
  ∧ (length (Lobby.songs lobby) = 2 → can (canStartGame lobby) = false)
  ∧ (length (Lobby.songs lobby) = 3 → 1 ≤ length players → othersReady →
     can (canStartGame lobby) = true)
  ∧ (∀ p, In p players → Player.isHost p = false → Player.isReady p = false →
     can (canStartGame lobby) = false).
Proof.
  intros players othersReady.
  assert (can (canStartGame lobby) = true
          ↔ 1 ≤ length players ∧ 3 ≤ length (Lobby.songs lobby) ∧ othersReady) as Hiff.
  { unfold canStartGame. fold players.
    destruct (length players <? 1) eqn:Hp; simpl.
    { apply Nat.ltb_lt in Hp. split; [done | lia]. }
    apply Nat.ltb_ge in Hp.
    destruct (length (Lobby.songs lobby) <? 3) eqn:Hs; simpl.
    { apply Nat.ltb_lt in Hs. split; [done | lia]. }
    apply Nat.ltb_ge in Hs.
    destruct (0 <? length (List.filter _ players)) eqn:Hn; simpl.
    - apply Nat.ltb_lt in Hn. split; [done|]. intros (_ & _ & Hall).
      exfalso. assert (length (List.filter
        (fun p => negb (Player.isReady p) && negb (Player.isHost p)) players) = 0);
        [|lia].
      apply filter_length_0. intros p Hin.
      destruct (Player.isHost p) eqn:Hh; [by rewrite andb_false_r|].
      by rewrite (Hall p Hin Hh).
    - apply Nat.ltb_ge in Hn. split; [|done]. intros _. repeat split; [done..|].
      intros p Hin Hh.
      assert (length (List.filter
        (fun p => negb (Player.isReady p) && negb (Player.isHost p)) players) = 0) as H0
        by lia.
      pose proof (proj1 (filter_length_0 _ _) H0 p Hin) as Hf. simpl in Hf.
      rewrite Hh in Hf. by destruct (Player.isReady p). }
  split; [exact Hiff|]. split; [|split].
  - intros H2. apply not_true_is_false. intros Hc.
    apply Hiff in Hc. lia.
  - intros H3 Hp Hall. apply Hiff. repeat split; [done | lia | done].
  - intros p Hin Hh Hr. apply not_true_is_false. intros Hc.
    apply Hiff in Hc as (_ & _ & Hall). specialize (Hall p Hin Hh). congruence.
Qed.

Lemma canStartGame_iff_witness :
  ∃ lobby, lobbies songsAdded !! js "ABCDE" = Some lobby
           ∧ can (canStartGame lobby) = true.
Proof.
  destruct (lobbies songsAdded !! js "ABCDE") as [lobby|] eqn:Hlobby;
    [|vm_compute in Hlobby; discriminate Hlobby].
  exists lobby. split; [reflexivity|].
  vm_compute in Hlobby. injection Hlobby as <-.
  apply (proj1 (proj2 (proj2 (canStartGame_iff _)))).
  - reflexivity.
  - cbn. lia.
  - intros p [<- | []]. discriminate.
Defined.

(** ** joinLobby *)

(** C6.  [joinLobby] looks the code up in upper case.  It throws "Lobby not
    found" when no lobby has that code, else "Game already in progress" when
    the lobby is not waiting, else "Lobby is full" when it has [maxPlayers]
    players or more.  Otherwise it adds a player who is neither host nor
    ready, with no points, and records the socket in both indices; the
    players the lobby had, the rest of the lobby, the other lobbies and the
    index entries of the other sockets are as they were.  Two spellings of
    a code with the same upper case give the same result. *)
Theorem joinLobby_cases `{Builtins} (gm : GameManager)
  (playerId code socketId playerName : jsstring) (avatar : Avatar) :
  let key := toUpperCase code in
  let result := joinLobby gm playerId code socketId playerName avatar in
  let count (lobby : Lobby.t) := Z.of_nat (length (Obj.keys (Lobby.players lobby))) in
  (lobbies gm !! key = None → result = Threw LobbyNotFound)
  ∧ (∀ lobby, lobbies gm !! key = Some lobby → Lobby.state lobby ≠ waiting →
       result = Threw GameInProgress)
  ∧ (∀ lobby, lobbies gm !! key = Some lobby → Lobby.state lobby = waiting →
       (GameSettings.maxPlayers (Lobby.settings lobby) ≤ count lobby)%Z →
       result = Threw LobbyFull)
  ∧ (∀ lobby, lobbies gm !! key = Some lobby → Lobby.state lobby = waiting →
       (count lobby < GameSettings.maxPlayers (Lobby.settings lobby))%Z →
       ∃ lobby' gm' player,
         result = Returned (lobby', playerId) gm'
         ∧ lobbies gm' !! key = Some lobby'
         ∧ Obj.get playerId (Lobby.players lobby') = Some player
         ∧ Player.id player = playerId
         ∧ Player.socketId player = socketId
         ∧ Player.isHost player = false
         ∧ Player.isReady player = false
         ∧ playerToLobby gm' !! socketId = Some key
         ∧ playerIds gm' !! socketId = Some playerId
         ∧ player = Player.mk playerId socketId playerName avatar (Num.Int 0) 0
                      false false false false (Num.Int 0)
         ∧ (∀ k, k ≠ playerId →
                 Obj.get k (Lobby.players lobby') = Obj.get k (Lobby.players lobby))
         ∧ (∀ k, In k (Obj.keys (Lobby.players lobby)) →
                 In k (Obj.keys (Lobby.players lobby')))
         ∧ Lobby.setPlayers (Lobby.players lobby) lobby' = lobby
         ∧ (∀ c, c ≠ key → lobbies gm' !! c = lobbies gm !! c)
         ∧ (∀ s, s ≠ socketId →
                 playerToLobby gm' !! s = playerToLobby gm !! s
                 ∧ playerIds gm' !! s = playerIds gm !! s))
  ∧ (∀ code', toUpperCase code' = key →
       joinLobby gm playerId code' socketId playerName avatar = result).
Proof.
  intros key result count. subst result. unfold joinLobby. fold key.
  repeat split.
  - by intros ->.
  - intros lobby -> Hst. by rewrite bool_decide_eq_true_2.
  - intros lobby -> Hst Hfull. rewrite bool_decide_eq_false_2 by (by rewrite Hst; auto).
    fold (count lobby).
    destruct (count lobby >=? _)%Z eqn:Hc; [done|]. lia.
  - intros lobby -> Hst Hroom. rewrite bool_decide_eq_false_2 by (by rewrite Hst; auto).
    fold (count lobby).
    destruct (count lobby >=? _)%Z eqn:Hc; [lia|].
    eexists _, _, _. split; [reflexivity|]. simpl.
    rewrite !lookup_insert_eq, get_set_eq.
    do 9 (split; [reflexivity|]).
    split; [intros k Hk; by apply get_set_ne|].
    split.
    { intros k Hk. unfold Obj.set, Obj.keys in *. destruct (Obj.has _ _).
      - rewrite map_map. apply in_map_iff in Hk as ([k' v] & <- & Hin).
        apply in_map_iff. exists (k', v). split; [|exact Hin].
        cbn [fst]. by case_bool_decide.
      - rewrite map_app. apply in_or_app. by left. }
    split; [by destruct lobby|].
    split; [intros c Hne; by apply lookup_insert_ne|].
    intros s Hne. split; by apply lookup_insert_ne.
  - intros code' ->. reflexivity.
Qed.

(** A guest joins the lobby of a host, who stays in it as its host. *)
Lemma joinLobby_cases_witness :
  ∃ lobby' gm' host,
    joinLobby (H := asciiBuiltins) lobbyCreated (js "guest0000001") (js "abcde")
      (js "sock-g") (js "Bob") avatar0
    = Returned (lobby', js "guest0000001") gm'
    ∧ playerToLobby gm' !! js "sock-g" = Some (js "ABCDE")
    ∧ Obj.get (js "host00000001") (Lobby.players lobby') = Some host
    ∧ Player.isHost host = true
    ∧ playerToLobby gm' !! js "sock-h" = Some (js "ABCDE").
Proof.
  destruct (lobbies lobbyCreated !! js "ABCDE") as [lobby|] eqn:Hlobby;
    [|vm_compute in Hlobby; discriminate Hlobby].
  destruct (proj1 (proj2 (proj2 (proj2
              (joinLobby_cases (H := asciiBuiltins) lobbyCreated (js "guest0000001")
                 (js "abcde") (js "sock-g") (js "Bob") avatar0)))) lobby)
    as (lobby' & gm' & player & Hret & _ & _ & _ & _ & _ & _ & Hidx & _ & _
        & Hkept & _ & _ & _ & Hsockets).
  - exact Hlobby.
  - vm_compute in Hlobby. by injection Hlobby as <-.
  - vm_compute in Hlobby. injection Hlobby as <-. cbn. lia.
  - vm_compute in Hlobby. injection Hlobby as <-.
    eexists lobby', gm', _. split; [exact Hret|]. split; [exact Hidx|].
    split; [rewrite Hkept by discriminate; reflexivity|]. split; [reflexivity|].
    rewrite (proj1 (Hsockets (js "sock-h") ltac:(discriminate))).
    vm_compute. reflexivity.
Defined.

(** ** leaveLobby *)

Lemma hosts_after_transfer (o : Obj.t Player.t) (k : jsstring) :
  NoDup (Obj.keys o) →
  head (Obj.keys o) = Some k →
  (∀ p, In p (Obj.values o) → Player.isHost p = false) →
  length (List.filter Player.isHost
            (Obj.values (Obj.modify k (Player.setIsHost true) o))) = 1.
Proof.
  destruct o as [|[k0 v] rest]; [done|].
  intros [Hnotin _]%NoDup_cons Hhead Hnone. simpl in Hhead.
  injection Hhead as ->.
  rewrite values_modify_head by done. simpl. f_equal.
  apply filter_length_0. intros p Hin. apply Hnone. by right.
Qed.

(** C5.  For a socket registered in a live lobby, [leaveLobby] removes the
    player and the socket's two index entries.  When no player remains the
    lobby is deleted, so that looking its code up finds nothing.  When
    players remain and the one who left was host, the first remaining player
    gets [isHost = true] and [hostId] becomes that player's id; every other
    player is left as it was, so that the lobby has exactly one host when
    the one who left was its only host. *)
Theorem leaveLobby_spec (gm : GameManager) (socketId code playerId : jsstring)
  (lobby : Lobby.t) :
  playerToLobby gm !! socketId = Some code →
  playerIds gm !! socketId = Some playerId →
  code ≠ [] → playerId ≠ [] →
  lobbies gm !! code = Some lobby →
  let remaining := Obj.delete playerId (Lobby.players lobby) in
  let departingWasHost :=
    match Obj.get playerId (Lobby.players lobby) with
    | Some p => Player.isHost p
    | None => false
    end in
  ∃ res gm',
    leaveLobby gm socketId = (Some res, gm')
    ∧ lr_playerId res = playerId
    ∧ wasHost res = departingWasHost
    ∧ playerToLobby gm' !! socketId = None
    ∧ playerIds gm' !! socketId = None
    ∧ (remaining = [] → lr_lobby res = None ∧ lobbies gm' !! code = None)
    ∧ (remaining ≠ [] →
       ∃ lobby',
         lr_lobby res = Some lobby'
         ∧ lobbies gm' !! code = Some lobby'
         ∧ Obj.keys (Lobby.players lobby') = Obj.keys remaining
         ∧ Obj.get playerId (Lobby.players lobby') = None
         ∧ (departingWasHost = false → lobby' = Lobby.setPlayers remaining lobby)
         ∧ (departingWasHost = true →
            ∃ newHostId,
              head (Obj.keys remaining) = Some newHostId
              ∧ Lobby.hostId lobby' = newHostId
              ∧ (∀ k, Obj.get k (Lobby.players lobby')
                      = if bool_decide (newHostId = k)
                        then Player.setIsHost true <$> Obj.get k remaining
                        else Obj.get k remaining)
              ∧ (NoDup (Obj.keys (Lobby.players lobby)) →
                 (∀ p, In p (Obj.values remaining) → Player.isHost p = false) →
                 length (List.filter Player.isHost (Obj.values (Lobby.players lobby')))
                 = 1))).
Proof.
  intros Hcode Hpid Hc Hp Hlobby remaining departingWasHost.
  unfold leaveLobby. rewrite Hcode, Hpid, Hlobby.
  unfold truthy. rewrite !bool_decide_eq_false_2 by done.
  cbn [negb orb]. fold remaining departingWasHost.
  pose proof (get_delete_eq playerId (Lobby.players lobby)) as Hgone.
  fold remaining in Hgone.
  destruct (Obj.keys remaining) as [|newHostId ks] eqn:Hkeys.
  - eexists _, _. split; [reflexivity|].
    cbn [lr_playerId wasHost lr_lobby lobbies playerToLobby playerIds].
    rewrite !lookup_delete_eq.
    do 4 (split; [reflexivity|]). split; [done|].
    intros Hne. destruct remaining; [done | discriminate Hkeys].
  - eexists _, _. split; [reflexivity|].
    cbn [lr_playerId wasHost lr_lobby lobbies playerToLobby playerIds].
    rewrite !lookup_delete_eq.
    do 4 (split; [reflexivity|]). split.
    { intros Hnil. rewrite Hnil in Hkeys. discriminate Hkeys. }
    intros _. eexists. split; [reflexivity|].
    rewrite lookup_insert_eq. split; [reflexivity|].
    destruct departingWasHost eqn:Hwas.
    + cbn [Lobby.players Lobby.setHostId Lobby.setPlayers Lobby.hostId].
      rewrite keys_modify, Hkeys. split; [reflexivity|].
      split.
      { rewrite get_modify, Hgone. by case_bool_decide. }
      split; [done|]. intros _. exists newHostId.
      split; [reflexivity|]. split; [reflexivity|]. split.
      * intros k. apply get_modify.
      * intros Hnd Hnone.
        apply hosts_after_transfer; [|by rewrite Hkeys|done].
        by apply keys_delete_NoDup.
    + cbn [Lobby.players Lobby.setPlayers]. rewrite Hkeys.
      split; [reflexivity|]. split; [exact Hgone|]. split; done.
Qed.

Lemma leaveLobby_spec_witness :
  ∃ res gm',
    leaveLobby twoPlayers (js "sock-h") = (Some res, gm')
    ∧ wasHost res = true
    ∧ playerToLobby gm' !! js "sock-h" = None
    ∧ ∃ lobby', lr_lobby res = Some lobby' ∧ Lobby.hostId lobby' = js "guest0000001".
Proof.
  destruct (lobbies twoPlayers !! js "ABCDE") as [lobby|] eqn:Hlobby;
    [|vm_compute in Hlobby; discriminate Hlobby].
  destruct (leaveLobby_spec twoPlayers (js "sock-h") (js "ABCDE") (js "host00000001") lobby)
    as (res & gm' & Hres & _ & Hwas & Hidx & _ & _ & Hrest);
    [vm_compute; reflexivity | vm_compute; reflexivity | discriminate | discriminate
    | exact Hlobby |].
  exists res, gm'. split; [exact Hres|].
  vm_compute in Hlobby. injection Hlobby as <-.
  split; [by rewrite Hwas|]. split; [exact Hidx|].
  destruct Hrest as (lobby' & Hl' & _ & _ & _ & _ & Hhost); [vm_compute; discriminate|].
  exists lobby'. split; [exact Hl'|].
  destruct (Hhost eq_refl) as (newHostId & Hhead & Hid & _).
  vm_compute in Hhead. injection Hhead as <-. exact Hid.
Defined.

(** ** submitGuess *)

Lemma getLobbyBySocket_store (gm : GameManager) (socketId : jsstring)
  (lobby lobby' : Lobby.t) :
  getLobbyBySocket gm socketId = Some lobby →
  getLobbyBySocket (storeLobbyOfSocket gm socketId lobby') socketId = Some lobby'.
Proof.
  unfold getLobbyBySocket, storeLobbyOfSocket.
  destruct (playerToLobby gm !! socketId) as [code|] eqn:Hcode; [|done].
  simpl. rewrite Hcode. destruct (truthy code); [|done].
  intros _. apply lookup_insert_eq.
Qed.

Section SubmitGuess.
Context `{Builtins}.

(** What a first guess in an active round returns and stores. *)
Lemma submitGuess_returns (gm : GameManager) (now : Z) (socketId guess : jsstring)
  (lobby : Lobby.t) (playerId : jsstring) (round : RoundState.t) (player : Player.t) :
  getLobbyBySocket gm socketId = Some lobby →
  getPlayerIdBySocket gm socketId = Some playerId →
  Lobby.currentRound lobby = Some round →
  Obj.get playerId (Lobby.players lobby) = Some player →
  Player.hasGuessed player = false →
  let timeElapsed := elapsedSeconds now (RoundState.startedAt round) in
  let settings := Lobby.settings lobby in
  let correct := checkGuess guess (RoundState.song round) in
  let score :=
    if correct
    then Num.add
           (Num.add (Num.Int 1000)
              (timeBonus (GameSettings.scoreMultiplierSpeed settings) timeElapsed
                 (GameSettings.timePerRound settings)))
           (Num.mul (Num.Int (Player.streak player)) (Num.Int 100))
    else Num.Int 0 in
  let player1 :=
    if correct
    then Player.setScore (Num.add (Player.score player) score)
           (Player.setStreak (Player.streak player + 1) player)
    else Player.setStreak 0 player in
  let player2 :=
    Player.setRoundScore score
      (Player.setLastGuessCorrect correct (Player.setHasGuessed true player1)) in
  let players' := Obj.modify playerId (fun _ => player2) (Lobby.players lobby) in
  let round' :=
    RoundState.setGuesses
      (Obj.set playerId (GuessRecord.mk guess correct timeElapsed score)
         (RoundState.guesses round)) round in
  let lobby' := Lobby.setCurrentRound (Some round') (Lobby.setPlayers players' lobby) in
  submitGuess gm now socketId guess
  = Returned
      (Some {| gr_correct := correct; gr_score := score; gr_playerId := playerId;
               allGuessed := forallb Player.hasGuessed (Obj.values players') |})
      (storeLobbyOfSocket gm socketId lobby').
Proof.
  intros Hlobby Hpid Hround Hplayer Hfresh timeElapsed settings correct.
  unfold submitGuess. rewrite Hlobby, Hpid, Hround, Hplayer, Hfresh.
  reflexivity.
Qed.

(** Whether every player has guessed once the player under [playerId]
    has. *)
Lemma forallb_modify_hasGuessed (playerId : jsstring) (player' : Player.t)
  (players : Obj.t Player.t) :
  Player.hasGuessed player' = true →
  forallb Player.hasGuessed
    (Obj.values (Obj.modify playerId (fun _ => player') players)) = true
  ↔ ∀ k p, In (k, p) players → k ≠ playerId → Player.hasGuessed p = true.
Proof.
  intros Hguessed. unfold Obj.values, Obj.modify.
  induction players as [|[k p] players IH]; cbn [map forallb fst snd].
  - split; [intros _ k p []|done].
  - rewrite andb_true_iff, IH. case_bool_decide as Hk; cbn [snd]; split.
    + intros [_ Hall] k' p' [[= <- <-]|Hin] Hne; [done|by apply (Hall k')].
    + intros Hall. split; [done|]. intros k' p' Hin. apply (Hall k'). by right.
    + intros [Hp Hall] k' p' [[= <- <-]|Hin] Hne; [done|by apply (Hall k')].
    + intros Hall. split; [apply (Hall k p); [by left|done]|].
      intros k' p' Hin. apply (Hall k'). by right.
Qed.

(** C1.  A first guess in an active round.  The numbers are the doubles of
    the runtime, every operation rounded to the nearest.  When the guess is
    correct the points are [1000 + timeBonus + streakBonus], with
    [timeBonus = max(0, floor((1 - elapsed / timePerRound) * 500))] if
    [scoreMultiplierSpeed] is on and 0 if not, [elapsed] the seconds since
    the round started, and [streakBonus] 100 times the streak before the
    guess; the streak grows by one and the points are added to the score.
    When it is wrong the points are 0, the streak becomes 0 and the score
    is unchanged.  With no time elapsed, [timePerRound = 30], a streak of 2
    and the speed bonus on, a correct guess scores 1700. *)
Theorem submitGuess_scoring (gm : GameManager) (now : Z) (socketId guess : jsstring)
  (lobby : Lobby.t) (playerId : jsstring) (round : RoundState.t) (player : Player.t) :
  getLobbyBySocket gm socketId = Some lobby →
  getPlayerIdBySocket gm socketId = Some playerId →
  Lobby.currentRound lobby = Some round →
  Obj.get playerId (Lobby.players lobby) = Some player →
  Player.hasGuessed player = false →
  let timePerRound := GameSettings.timePerRound (Lobby.settings lobby) in
  let speed := GameSettings.scoreMultiplierSpeed (Lobby.settings lobby) in
  let elapsed :=
    Num.fdiv (Num.ofZ (now - RoundState.startedAt round)) (Num.ofZ 1000) in
  let timeBonus :=
    if speed
    then Num.max0
           (Num.floor
              (Num.fmul
                 (Num.fsub (Num.ofZ 1) (Num.fdiv elapsed (Num.ofZ timePerRound)))
                 (Num.ofZ 500)))
    else Num.Int 0 in
  let streakBonus := Num.mul (Num.Int (Player.streak player)) (Num.Int 100) in
  ∃ r gm' lobby' player',
    submitGuess gm now socketId guess = Returned (Some r) gm'
    ∧ gr_playerId r = playerId
    ∧ gr_correct r = checkGuess guess (RoundState.song round)
    ∧ getLobbyBySocket gm' socketId = Some lobby'
    ∧ Obj.get playerId (Lobby.players lobby') = Some player'
    ∧ (gr_correct r = true →
       gr_score r = Num.add (Num.add (Num.Int 1000) timeBonus) streakBonus
       ∧ Player.streak player' = (Player.streak player + 1)%Z
       ∧ Player.score player' = Num.add (Player.score player) (gr_score r))
    ∧ (gr_correct r = false →
       gr_score r = Num.Int 0
       ∧ Player.streak player' = 0%Z
       ∧ Player.score player' = Player.score player)
    ∧ (gr_correct r = true → now = RoundState.startedAt round →
       timePerRound = 30%Z → Player.streak player = 2%Z → speed = true →
       gr_score r = Num.Int 1700).
Proof.
  intros Hlobby Hpid Hround Hplayer Hfresh timePerRound speed elapsed
         bonus streakBonus.
  pose proof (submitGuess_returns gm now socketId guess lobby playerId round player
                Hlobby Hpid Hround Hplayer Hfresh) as Hret.
  cbv zeta in Hret.
  eexists _, _, _, _. split; [exact Hret|].
  cbn [gr_playerId gr_correct gr_score].
  split; [reflexivity|]. split; [reflexivity|].
  split; [by eapply getLobbyBySocket_store|].
  cbn [Lobby.players Lobby.setCurrentRound Lobby.setPlayers].
  split.
  { rewrite get_modify, bool_decide_eq_true_2 by done. rewrite Hplayer. reflexivity. }
  split; [|split].
  - intros ->. cbn [Player.streak Player.score Player.setScore Player.setStreak
                    Player.setRoundScore Player.setLastGuessCorrect
                    Player.setHasGuessed].
    done.
  - intros ->. cbn [Player.streak Player.score Player.setScore Player.setStreak
                    Player.setRoundScore Player.setLastGuessCorrect
                    Player.setHasGuessed].
    done.
  - intros -> Hnow Htpr Hstreak Hspeed. subst speed timePerRound.
    unfold timeBonus, elapsedSeconds.
    rewrite Hspeed, Htpr, Hstreak, Hnow, Z.sub_diag. vm_compute. reflexivity.
Qed.

(** C7.  [submitGuess] returns null and changes nothing when no round is
    active, and when the player has already guessed.  A first guess in an
    active round is recorded in the round under the player's id, the other
    records being kept; the player then has [hasGuessed] set, the other
    players are as they were, and the result tells whether every player of
    the lobby has now guessed: [allGuessed] is true exactly when every
    other player of the lobby had guessed. *)
Theorem submitGuess_once (gm : GameManager) (now : Z) (socketId guess : jsstring) :
  ((∀ lobby, getLobbyBySocket gm socketId = Some lobby →
             Lobby.currentRound lobby = None) →
   submitGuess gm now socketId guess = Returned None gm)
  ∧ (∀ lobby playerId player,
       getLobbyBySocket gm socketId = Some lobby →
       getPlayerIdBySocket gm socketId = Some playerId →
       Obj.get playerId (Lobby.players lobby) = Some player →
       Player.hasGuessed player = true →
       submitGuess gm now socketId guess = Returned None gm)
  ∧ (∀ lobby playerId round player,
       getLobbyBySocket gm socketId = Some lobby →
       getPlayerIdBySocket gm socketId = Some playerId →
       Lobby.currentRound lobby = Some round →
       Obj.get playerId (Lobby.players lobby) = Some player →
       Player.hasGuessed player = false →
       ∃ r gm' lobby' round' player',
         submitGuess gm now socketId guess = Returned (Some r) gm'
         ∧ gr_playerId r = playerId
         ∧ getLobbyBySocket gm' socketId = Some lobby'
         ∧ Lobby.currentRound lobby' = Some round'
         ∧ Obj.get playerId (RoundState.guesses round')
           = Some (GuessRecord.mk guess (gr_correct r)
                     (elapsedSeconds now (RoundState.startedAt round)) (gr_score r))
         ∧ (∀ k, k ≠ playerId →
                 Obj.get k (RoundState.guesses round')
                 = Obj.get k (RoundState.guesses round))
         ∧ Obj.keys (Lobby.players lobby') = Obj.keys (Lobby.players lobby)
         ∧ Obj.get playerId (Lobby.players lobby') = Some player'
         ∧ Player.hasGuessed player' = true
         ∧ (∀ k, k ≠ playerId →
                 Obj.get k (Lobby.players lobby') = Obj.get k (Lobby.players lobby))
         ∧ allGuessed r
           = forallb Player.hasGuessed (Obj.values (Lobby.players lobby'))
         ∧ (allGuessed r = true
            ↔ ∀ k p, In (k, p) (Lobby.players lobby) → k ≠ playerId →
                     Player.hasGuessed p = true)).
Proof.
  split; [|split].
  - intros Hnone. unfold submitGuess.
    destruct (getLobbyBySocket gm socketId) as [lobby|]; [|done].
    rewrite (Hnone lobby eq_refl).
    by destruct (getPlayerIdBySocket gm socketId).
  - intros lobby playerId player Hlobby Hpid Hplayer Hdone.
    unfold submitGuess. rewrite Hlobby, Hpid, Hplayer, Hdone.
    by destruct (Lobby.currentRound lobby).
  - intros lobby playerId round player Hlobby Hpid Hround Hplayer Hfresh.
    pose proof (submitGuess_returns gm now socketId guess lobby playerId round player
                  Hlobby Hpid Hround Hplayer Hfresh) as Hret.
    cbv zeta in Hret.
    eexists _, _, _, _, _. split; [exact Hret|].
    cbn [gr_playerId gr_correct gr_score allGuessed].
    split; [reflexivity|].
    split; [by eapply getLobbyBySocket_store|].
    cbn [Lobby.players Lobby.currentRound Lobby.setCurrentRound Lobby.setPlayers
         RoundState.guesses RoundState.setGuesses].
    split; [reflexivity|]. split; [apply get_set_eq|].
    split; [intros k Hk; by apply get_set_ne|].
    split; [apply keys_modify|].
    split.
    { rewrite get_modify, bool_decide_eq_true_2 by done. rewrite Hplayer. reflexivity. }
    split; [reflexivity|].
    split.
    { intros k Hk. rewrite get_modify, bool_decide_eq_false_2 by done. reflexivity. }
    split; [reflexivity|].
    by apply forallb_modify_hasGuessed.
Qed.
End SubmitGuess.

Lemma submitGuess_scoring_witness :
  ∃ r gm',
    submitGuess (H := asciiBuiltins) thirdRound 200000 (js "sock-h") (js "hallelujah")
    = Returned (Some r) gm'
    ∧ gr_correct r = true ∧ gr_score r = Num.Int 1700.
Proof.
  destruct (getLobbyBySocket thirdRound (js "sock-h")) as [lobby|] eqn:Hlobby;
    [|vm_compute in Hlobby; discriminate Hlobby].
  destruct (Lobby.currentRound lobby) as [round|] eqn:Hround;
    [|vm_compute in Hlobby; injection Hlobby as <-; discriminate Hround].
  destruct (Obj.get (js "host00000001") (Lobby.players lobby)) as [player|] eqn:Hplayer;
    [|vm_compute in Hlobby; injection Hlobby as <-; vm_compute in Hplayer;
      discriminate Hplayer].
  destruct (submitGuess_scoring (H := asciiBuiltins) thirdRound 200000 (js "sock-h")
              (js "hallelujah") lobby (js "host00000001") round player)
    as (r & gm' & lobby' & player' & Hret & _ & Hcorrect & _ & _ & _ & _ & Hexample).
  - exact Hlobby.
  - vm_compute. reflexivity.
  - exact Hround.
  - exact Hplayer.
  - vm_compute in Hlobby. injection Hlobby as <-.
    vm_compute in Hplayer. injection Hplayer as <-. reflexivity.
  - vm_compute in Hlobby. injection Hlobby as <-.
    vm_compute in Hround. injection Hround as <-.
    vm_compute in Hplayer. injection Hplayer as <-.
    assert (gr_correct r = true) as Hc by (rewrite Hcorrect; vm_compute; reflexivity).
    exists r, gm'. split; [exact Hret|]. split; [exact Hc|].
    apply Hexample; [exact Hc | reflexivity..].
Defined.

(** In a round of two players of which the guest has guessed, the guess
    of the host is the last one. *)
Lemma submitGuess_once_witness :
  ∃ r gm' lobby' guest,
    submitGuess (H := asciiBuiltins) guestGuessed 29000 (js "sock-h") (js "no idea")
    = Returned (Some r) gm'
    ∧ allGuessed r = true
    ∧ getLobbyBySocket gm' (js "sock-h") = Some lobby'
    ∧ Obj.get (js "guest0000001") (Lobby.players lobby') = Some guest
    ∧ Player.roundScore guest = Num.Int 1049.
Proof.
  destruct (getLobbyBySocket guestGuessed (js "sock-h")) as [lobby|] eqn:Hlobby;
    [|vm_compute in Hlobby; discriminate Hlobby].
  destruct (Lobby.currentRound lobby) as [round|] eqn:Hround;
    [|vm_compute in Hlobby; injection Hlobby as <-; discriminate Hround].
  destruct (Obj.get (js "host00000001") (Lobby.players lobby)) as [player|] eqn:Hplayer;
    [|vm_compute in Hlobby; injection Hlobby as <-; vm_compute in Hplayer;
      discriminate Hplayer].
  destruct (Obj.get (js "guest0000001") (Lobby.players lobby)) as [guest|] eqn:Hguest;
    [|vm_compute in Hlobby; injection Hlobby as <-; vm_compute in Hguest;
      discriminate Hguest].
  destruct (proj2 (proj2 (submitGuess_once (H := asciiBuiltins) guestGuessed 29000
                            (js "sock-h") (js "no idea")))
              lobby (js "host00000001") round player)
    as (r & gm' & lobby' & round' & player' & Hret & _ & Hlobby' & _ & _ & _ & _ & _
        & _ & Hothers & _ & Hall).
  - exact Hlobby.
  - vm_compute. reflexivity.
  - exact Hround.
  - exact Hplayer.
  - vm_compute in Hlobby. injection Hlobby as <-.
    vm_compute in Hplayer. injection Hplayer as <-. reflexivity.
  - exists r, gm', lobby', guest. split; [exact Hret|].
    vm_compute in Hlobby. injection Hlobby as <-.
    vm_compute in Hguest. injection Hguest as <-.
    split; [|split; [exact Hlobby'|split; [|reflexivity]]].
    + apply Hall. intros k p [Hin|[Hin|[]]] Hne; injection Hin as <- <-;
        [exfalso; apply Hne; vm_compute; reflexivity | reflexivity].
    + rewrite Hothers by discriminate. vm_compute. reflexivity.
Defined.

(** ** startRound *)

Lemma availableSongs_In (lobby : Lobby.t) (s : Song.t) :
  In s (availableSongs lobby)
  ↔ In s (Lobby.songs lobby) ∧ Song.id s ∉ usedSongIds lobby.
Proof.
  unfold availableSongs. rewrite filter_In.
  split; intros [Hin Hused]; (split; [done|]).
  - apply negb_true_iff, bool_decide_eq_false in Hused. done.
  - apply negb_true_iff, bool_decide_eq_false. done.
Qed.

Lemma forEach_resetGuessState (players : Obj.t Player.t) (p : Player.t) :
  In p (Obj.values (Obj.forEach resetGuessState players)) →
  Player.hasGuessed p = false ∧ Player.lastGuessCorrect p = false
  ∧ Player.roundScore p = Num.Int 0.
Proof.
  rewrite values_forEach, in_map_iff. intros (q & <- & _). done.
Qed.

(** The ids [startRound] takes for used are those of the songs of the
    rounds in the history. *)
Lemma usedSongIds_history (lobby : Lobby.t) (id : jsstring) :
  id ∈ usedSongIds lobby
  ↔ ∃ r, In r (Lobby.roundHistory lobby) ∧ Song.id (RoundState.song r) = id.
Proof.
  unfold usedSongIds. rewrite list_elem_of_In, in_map_iff.
  split; intros (r & Hr & Hin); exists r; done.
Qed.

(** C4.  [startRound] returns null, and changes nothing, when the lobby is
    not playing, when the history already holds [settings.rounds] rounds or
    more, and when every song of the pool has the id of the song of a round
    in the history.  When none of these holds it starts a round.  The round
    it starts has a song of the pool whose id is the id of the song of no
    round in the history, phase [playing], and every player has
    [hasGuessed], [lastGuessCorrect] and [roundScore] reset. *)
Theorem startRound_spec (gm : GameManager) (rnd : Random) (now : Z)
  (lobbyCode : jsstring) :
  (∀ lobby,
     lobbies gm !! lobbyCode = Some lobby →
     Lobby.state lobby ≠ playing
     ∨ (GameSettings.rounds (Lobby.settings lobby)
        ≤ Z.of_nat (length (Lobby.roundHistory lobby)))%Z
     ∨ (∀ s, In s (Lobby.songs lobby) →
             ∃ r, In r (Lobby.roundHistory lobby)
                  ∧ Song.id (RoundState.song r) = Song.id s) →
     startRound gm rnd now lobbyCode = (None, gm))
  ∧ (∀ lobby,
       lobbies gm !! lobbyCode = Some lobby →
       Lobby.state lobby = playing →
       (Z.of_nat (length (Lobby.roundHistory lobby))
        < GameSettings.rounds (Lobby.settings lobby))%Z →
       (∃ s, In s (Lobby.songs lobby)
             ∧ ∀ r, In r (Lobby.roundHistory lobby) →
                    Song.id (RoundState.song r) ≠ Song.id s) →
       ∃ round gm', startRound gm rnd now lobbyCode = (Some round, gm'))
  ∧ (∀ round gm',
       startRound gm rnd now lobbyCode = (Some round, gm') →
       ∃ lobby lobby',
         lobbies gm !! lobbyCode = Some lobby
         ∧ lobbies gm' !! lobbyCode = Some lobby'
         ∧ Lobby.currentRound lobby' = Some round
         ∧ In (RoundState.song round) (Lobby.songs lobby)
         ∧ (∀ r, In r (Lobby.roundHistory lobby) →
                 Song.id (RoundState.song r) ≠ Song.id (RoundState.song round))
         ∧ RoundState.phase round = phase_playing
         ∧ RoundState.roundNumber round
           = (Z.of_nat (length (Lobby.roundHistory lobby)) + 1)%Z
         ∧ Lobby.roundHistory lobby' = Lobby.roundHistory lobby
         ∧ Obj.keys (Lobby.players lobby') = Obj.keys (Lobby.players lobby)
         ∧ (∀ p, In p (Obj.values (Lobby.players lobby')) →
                 Player.hasGuessed p = false
                 ∧ Player.lastGuessCorrect p = false
                 ∧ Player.roundScore p = Num.Int 0)).
Proof.
  split; [|split].
  - intros lobby Hlobby Hcase. unfold startRound. rewrite Hlobby.
    case_bool_decide as Hstate; [done|].
    destruct (_ >? _)%Z eqn:Hrounds; [done|].
    destruct Hcase as [Hs | [Hr | Hused]]; [done | lia |].
    destruct (availableSongs lobby) as [|first rest] eqn:Hav; [done|].
    assert (In first (availableSongs lobby)) as Hin by (rewrite Hav; by left).
    apply availableSongs_In in Hin as [Hin Hfree].
    destruct Hfree. apply usedSongIds_history. by apply Hused.
  - intros lobby Hlobby Hstate Hrounds (s & Hin & Hfree).
    unfold startRound. rewrite Hlobby.
    rewrite bool_decide_eq_false_2 by (by rewrite Hstate; auto).
    destruct (_ >? _)%Z eqn:Hgt; [lia|].
    destruct (availableSongs lobby) as [|first rest] eqn:Hav.
    + assert (In s (availableSongs lobby)) as Hs.
      { apply availableSongs_In. split; [exact Hin|].
        intros (r & Hr & Hid)%usedSongIds_history. by apply (Hfree r). }
      rewrite Hav in Hs. destruct Hs.
    + eexists _, _. reflexivity.
  - intros round gm'. unfold startRound.
    destruct (lobbies gm !! lobbyCode) as [lobby|] eqn:Hlobby; [|done].
    case_bool_decide as Hstate; [done|].
    destruct (_ >? _)%Z eqn:Hrounds; [done|].
    destruct (availableSongs lobby) as [|first rest] eqn:Hav; [done|].
    intros [= <- <-]. eexists lobby, _. split; [reflexivity|].
    cbn [lobbies setLobbies]. rewrite lookup_insert_eq. split; [reflexivity|].
    cbn [Lobby.currentRound Lobby.setCurrentRound Lobby.setPlayers Lobby.players
         Lobby.roundHistory RoundState.song RoundState.phase RoundState.roundNumber].
    split; [reflexivity|].
    assert (In (nth (pick rnd mod length (first :: rest)) (first :: rest) first)
               (availableSongs lobby)) as Hpicked.
    { rewrite Hav. apply nth_In. apply Nat.mod_upper_bound. simpl. lia. }
    apply availableSongs_In in Hpicked as [Hin Hfree].
    split; [exact Hin|].
    split.
    { intros r Hr Hid. apply Hfree, usedSongIds_history. by exists r. }
    split; [reflexivity|]. split; [reflexivity|]. split; [reflexivity|].
    split; [apply keys_forEach|].
    apply forEach_resetGuessState.
Qed.

(** The second round of a game whose first round, with the song Yesterday,
    the host has guessed: the round has the next song, and the host, who
    had [hasGuessed] set and 1366 points of the first round, has them
    reset. *)
Lemma startRound_spec_witness :
  ∃ lobby host round gm' lobby' host',
    lobbies firstRoundOver !! js "ABCDE" = Some lobby
    ∧ map (fun r => Song.title (RoundState.song r)) (Lobby.roundHistory lobby)
      = [js "Yesterday"]
    ∧ Obj.get (js "host00000001") (Lobby.players lobby) = Some host
    ∧ Player.hasGuessed host = true
    ∧ Player.roundScore host = Num.Int 1366
    ∧ startRound firstRoundOver firstPick 100000 (js "ABCDE") = (Some round, gm')
    ∧ RoundState.phase round = phase_playing
    ∧ Song.title (RoundState.song round) = js "Imagine"
    ∧ lobbies gm' !! js "ABCDE" = Some lobby'
    ∧ Obj.get (js "host00000001") (Lobby.players lobby') = Some host'
    ∧ Player.hasGuessed host' = false
    ∧ Player.roundScore host' = Num.Int 0.
Proof.
  destruct (lobbies firstRoundOver !! js "ABCDE") as [lobby|] eqn:Hlobby;
    [|vm_compute in Hlobby; discriminate Hlobby].
  pose proof (startRound_spec firstRoundOver firstPick 100000 (js "ABCDE"))
    as (_ & Hstarts & Hround).
  destruct (Hstarts lobby Hlobby) as (round & gm' & Hret).
  - vm_compute in Hlobby. by injection Hlobby as <-.
  - vm_compute in Hlobby. injection Hlobby as <-. cbn. lia.
  - vm_compute in Hlobby. injection Hlobby as <-.
    eexists. split; [right; left; reflexivity|].
    intros r [<-|[]]. discriminate.
  - destruct (Hround round gm' Hret)
      as (lobby0 & lobby' & Hlobby0 & Hlobby' & _ & _ & _ & Hphase & _ & _ & _ & Hreset).
    rewrite Hlobby in Hlobby0. injection Hlobby0 as <-.
    vm_compute in Hlobby. injection Hlobby as <-.
    pose proof Hret as Hret0. vm_compute in Hret0. injection Hret0 as Hr Hgm.
    rewrite <- Hgm in Hlobby'. vm_compute in Hlobby'. injection Hlobby' as <-.
    eexists _, _, round, gm', _, _.
    split; [reflexivity|]. split; [reflexivity|]. split; [reflexivity|].
    split; [reflexivity|]. split; [reflexivity|]. split; [exact Hret|].
    split; [exact Hphase|]. split; [rewrite <- Hr; reflexivity|].
    split; [rewrite <- Hgm; vm_compute; reflexivity|]. split; [reflexivity|].
    split; [eapply (proj1 (Hreset _ _)) | eapply (proj2 (proj2 (Hreset _ _)))].
    Unshelve. all: left; reflexivity.
Defined.

(** ** The rounds of a game *)

Section Rounds.
Context `{Builtins}.

Lemma lobbyStep_refl (gm : GameManager) (op : Op) (c : jsstring) (l : Lobby.t) :
  lobbyStep gm op c l l.
Proof. split; [reflexivity|]. split; auto. Qed.

(** An operation that leaves the history, [rounds], the state and the
    presence of a current round as they are. *)
Lemma lobbyStep_frame (gm : GameManager) (op : Op) (c : jsstring) (l l' : Lobby.t) :
  Lobby.code l' = Lobby.code l →
  Lobby.roundHistory l' = Lobby.roundHistory l →
  GameSettings.rounds (Lobby.settings l') = GameSettings.rounds (Lobby.settings l) →
  Lobby.state l' = Lobby.state l →
  (Lobby.currentRound l' = None ↔ Lobby.currentRound l = None) →
  lobbyStep gm op c l l'.
Proof.
  intros Hcode Hh Hr Hs Hc. split; [exact Hcode|]. split.
  - intros _ [Hle Hplay]. unfold lobbyInvariant, startedRounds in *.
    rewrite Hh, Hr, Hs. split.
    + destruct (Lobby.currentRound l'), (Lobby.currentRound l); try done.
      * by pose proof (proj2 Hc eq_refl).
      * lia.
    + intros Hsome. apply Hplay. intros Hnone. by apply Hsome, Hc.
  - rewrite Hs. auto.
Qed.

Lemma lookup_store (gm : GameManager) (socketId : jsstring) (lobby l' : Lobby.t)
  (c : jsstring) (x : Lobby.t) :
  getLobbyBySocket gm socketId = Some lobby →
  lobbies (storeLobbyOfSocket gm socketId l') !! c = Some x →
  (x = l' ∧ lobbies gm !! c = Some lobby) ∨ lobbies gm !! c = Some x.
Proof.
  unfold getLobbyBySocket, storeLobbyOfSocket.
  destruct (playerToLobby gm !! socketId) as [code|]; [|done].
  destruct (truthy code); [|done]. cbn [lobbies setLobbies].
  intros Hl [[-> ->] | [_ Hold]]%lookup_insert_Some; auto.
Qed.

Lemma forgetPlayers_lobbies (ps : list Player.t) (gm : GameManager) :
  lobbies (fold_left forgetPlayer ps gm) = lobbies gm.
Proof. revert gm. induction ps as [|p ps IH]; intros gm; [done|]. simpl. by rewrite IH. Qed.

Lemma cleanup_lookup (gm : GameManager) (now : Z) (c : jsstring) (x : Lobby.t) :
  lobbies (cleanup gm now) !! c = Some x → lobbies gm !! c = Some x.
Proof.
  unfold cleanup.
  set (f := fun (code : jsstring) (lobby : Lobby.t) (acc : GameManager) => _).
  revert c x.
  apply (map_fold_weak_ind
           (fun r (_ : gmap jsstring Lobby.t) =>
              ∀ c x, lobbies r !! c = Some x → lobbies gm !! c = Some x) f gm).
  - auto.
  - intros i y m r _ IH c x. subst f. cbn beta.
    destruct (_ >? _)%Z; [|by apply IH].
    cbn [lobbies setLobbies]. rewrite forgetPlayers_lobbies.
    intros [_ Hold]%lookup_delete_Some. by apply IH.
Qed.



Lemma stepOutcome_unchanged (gm : GameManager) (op : Op) (c : jsstring) (l : Lobby.t) :
  lobbies gm !! c = Some l → stepOutcome gm op c l.
Proof. intros Hl. right. exists l. split; [done | apply lobbyStep_refl]. Qed.

Lemma stepOutcome_store (gm : GameManager) (op : Op) (socketId c : jsstring)
  (lobby l' x : Lobby.t) :
  getLobbyBySocket gm socketId = Some lobby →
  (∀ c, lobbyStep gm op c lobby l') →
  lobbies (storeLobbyOfSocket gm socketId l') !! c = Some x →
  stepOutcome gm op c x.
Proof.
  intros Hl Hstep Hx.
  destruct (lookup_store gm socketId lobby l' c x Hl Hx) as [[-> Hold] | Hold].
  - right. exists lobby. split; [done | apply Hstep].
  - by apply stepOutcome_unchanged.
Qed.

Lemma stepOutcome_insert (gm : GameManager) (op : Op) (code c : jsstring)
  (lobby l' x : Lobby.t) :
  lobbies gm !! code = Some lobby →
  lobbyStep gm op code lobby l' →
  <[code := l']> (lobbies gm) !! c = Some x →
  stepOutcome gm op c x.
Proof.
  intros Hl Hstep [[<- <-] | [_ Hold]]%lookup_insert_Some.
  - right. exists lobby. split; [done | apply Hstep].
  - by apply stepOutcome_unchanged.
Qed.

Ltac frame := apply lobbyStep_frame; cbn; done.

Lemma step_lookup (gm : GameManager) (op : Op) (c : jsstring) (l' : Lobby.t) :
  lobbies (step gm op) !! c = Some l' → stepOutcome gm op c l'.
Proof.
  destruct op; cbn [step].
  - (* createLobby *)
    unfold createLobby.
    destruct (generateCode (lobbies gm) draws) as [[code rest]|];
      [|apply stepOutcome_unchanged].
    cbn [lobbies]. intros [[<- <-] | [_ Hold]]%lookup_insert_Some;
      [|by apply stepOutcome_unchanged].
    left. split; [reflexivity|]. split; [|done].
    unfold lobbyInvariant, startedRounds. cbn. split; [lia | done].
  - (* joinLobby *)
    unfold joinLobby.
    destruct (lobbies gm !! toUpperCase code) as [lobby|] eqn:Hl;
      [|apply stepOutcome_unchanged].
    case_bool_decide; [apply stepOutcome_unchanged|].
    destruct (_ >=? _)%Z; [apply stepOutcome_unchanged|].
    cbn [stateOf lobbies]. eapply stepOutcome_insert; [done | frame].
  - (* leaveLobby *)
    unfold leaveLobby.
    destruct (playerToLobby gm !! socketId) as [code|];
      [|apply stepOutcome_unchanged].
    destruct (playerIds gm !! socketId) as [playerId|];
      [|apply stepOutcome_unchanged].
    destruct (negb (truthy code) || negb (truthy playerId));
      [apply stepOutcome_unchanged|].
    destruct (lobbies gm !! code) as [lobby|] eqn:Hl;
      [|apply stepOutcome_unchanged].
    destruct (Obj.keys _) as [|newHostId ks]; cbn [snd lobbies].
    + intros [_ Hold]%lookup_delete_Some. by apply stepOutcome_unchanged.
    + eapply stepOutcome_insert; [done|].
      destruct (match Obj.get playerId (Lobby.players lobby) with
                | Some p => Player.isHost p | None => false end); frame.
  - (* updateSettings *)
    unfold updateSettings.
    destruct (getLobbyBySocket gm socketId) as [lobby|] eqn:Hl;
      [|apply stepOutcome_unchanged].
    destruct (getPlayerIdBySocket gm socketId) as [playerId|];
      [|apply stepOutcome_unchanged].
    case_bool_decide; [apply stepOutcome_unchanged|]. cbn [snd].
    eapply stepOutcome_store; [done|]. intros c0.
    split; [reflexivity|]. split; [|cbn; auto].
    cbn [keepsRounds]. rewrite Hl. unfold lobbyInvariant, startedRounds. cbn.
    intros Hkeep [Hle Hplay]. split; [|done].
    destruct (GameSettings.p_rounds settings); cbn; done.
  - (* addSong *)
    unfold addSong.
    destruct (getLobbyBySocket gm socketId) as [lobby|] eqn:Hl;
      [|apply stepOutcome_unchanged].
    destruct (getPlayerIdBySocket gm socketId) as [playerId|];
      [|apply stepOutcome_unchanged].
    case_bool_decide; [apply stepOutcome_unchanged|]. cbn [snd].
    eapply stepOutcome_store; [done|]. intros c0. frame.
  - (* addSongsBulk *)
    unfold addSongsBulk.
    destruct (getLobbyBySocket gm socketId) as [lobby|] eqn:Hl;
      [|apply stepOutcome_unchanged].
    destruct (getPlayerIdBySocket gm socketId) as [playerId|];
      [|apply stepOutcome_unchanged].
    case_bool_decide; [apply stepOutcome_unchanged|]. cbn [snd].
    eapply stepOutcome_store; [done|]. intros c0. frame.
  - (* removeSong *)
    unfold removeSong.
    destruct (getLobbyBySocket gm socketId) as [lobby|] eqn:Hl;
      [|apply stepOutcome_unchanged].
    destruct (getPlayerIdBySocket gm socketId) as [playerId|];
      [|apply stepOutcome_unchanged].
    case_bool_decide; [apply stepOutcome_unchanged|]. cbn [snd].
    eapply stepOutcome_store; [done|]. intros c0. frame.
  - (* toggleReady *)
    unfold toggleReady.
    destruct (getLobbyBySocket gm socketId) as [lobby|] eqn:Hl;
      [|apply stepOutcome_unchanged].
    destruct (getPlayerIdBySocket gm socketId) as [playerId|];
      [|apply stepOutcome_unchanged].
    destruct (Obj.get playerId (Lobby.players lobby));
      [|apply stepOutcome_unchanged].
    cbn [stateOf]. eapply stepOutcome_store; [done|]. intros c0. frame.
  - (* startGame *)
    unfold startGame.
    destruct (getLobbyBySocket gm socketId) as [lobby|] eqn:Hl;
      [|apply stepOutcome_unchanged].
    destruct (getPlayerIdBySocket gm socketId) as [playerId|];
      [|apply stepOutcome_unchanged].
    case_bool_decide; [apply stepOutcome_unchanged|].
    destruct (negb _); [apply stepOutcome_unchanged|]. cbn [snd].
    eapply stepOutcome_store; [done|]. intros c0.
    split; [reflexivity|]. split; [|cbn; done].
    unfold lobbyInvariant, startedRounds. cbn. intros _ [Hle _]. split; [|done].
    destruct (Lobby.currentRound lobby); lia.
  - (* startRound *)
    unfold startRound.
    destruct (lobbies gm !! lobbyCode) as [lobby|] eqn:Hl;
      [|apply stepOutcome_unchanged].
    case_bool_decide as Hstate; [apply stepOutcome_unchanged|].
    destruct (_ >? _)%Z eqn:Hrounds; [apply stepOutcome_unchanged|].
    destruct (availableSongs lobby) as [|first rest];
      [apply stepOutcome_unchanged|].
    cbn [snd lobbies setLobbies]. eapply stepOutcome_insert; [done|].
    split; [reflexivity|]. split.
    + unfold lobbyInvariant, startedRounds. cbn. intros _ _. split; [lia|].
      intros _. by destruct (decide (Lobby.state lobby = playing)).
    + cbn. auto.
  - (* submitGuess *)
    unfold submitGuess.
    destruct (getLobbyBySocket gm socketId) as [lobby|] eqn:Hl;
      [|apply stepOutcome_unchanged].
    destruct (getPlayerIdBySocket gm socketId) as [playerId|];
      [|apply stepOutcome_unchanged].
    destruct (Lobby.currentRound lobby) as [round|] eqn:Hround;
      [|apply stepOutcome_unchanged].
    destruct (Obj.get playerId (Lobby.players lobby)) as [player|];
      [|apply stepOutcome_unchanged].
    destruct (Player.hasGuessed player); [apply stepOutcome_unchanged|].
    cbn [stateOf]. eapply stepOutcome_store; [exact Hl|]. intros c0.
    apply lobbyStep_frame; [reflexivity..|].
    cbn [Lobby.currentRound Lobby.setCurrentRound]. by rewrite Hround.
  - (* endRound *)
    unfold endRound.
    destruct (lobbies gm !! lobbyCode) as [lobby|] eqn:Hl;
      [|apply stepOutcome_unchanged].
    destruct (Lobby.currentRound lobby) as [round|] eqn:Hround;
      [|apply stepOutcome_unchanged].
    cbn [snd lobbies setLobbies]. eapply stepOutcome_insert; [done|].
    split; [by destruct (_ >=? _)%Z|]. split; [|auto].
    unfold lobbyInvariant, startedRounds. rewrite Hround.
    intros _ [Hle _]. split; [|done].
    destruct (_ >=? _)%Z; cbn; rewrite length_app; cbn; lia.
  - (* resetLobby *)
    unfold resetLobby.
    destruct (lobbies gm !! lobbyCode) as [lobby|] eqn:Hl;
      [|apply stepOutcome_unchanged].
    cbn [snd lobbies setLobbies]. eapply stepOutcome_insert; [done|].
    split; [reflexivity|]. split; [|cbn; done].
    unfold lobbyInvariant, startedRounds. cbn. intros _ [Hle _]. split; [|done].
    destruct (Lobby.currentRound lobby); lia.
  - (* kickPlayer *)
    unfold kickPlayer.
    destruct (getLobbyBySocket gm socketId) as [lobby|] eqn:Hl;
      [|apply stepOutcome_unchanged].
    destruct (getPlayerIdBySocket gm socketId) as [playerId|];
      [|apply stepOutcome_unchanged].
    case_bool_decide; [apply stepOutcome_unchanged|].
    destruct (Obj.get targetPlayerId (Lobby.players lobby)) as [target|];
      [|destruct (Obj.inherited _); apply stepOutcome_unchanged].
    destruct (Player.isHost target); [apply stepOutcome_unchanged|].
    cbn [snd lobbies]. eapply stepOutcome_store; [done|]. intros c0. frame.
  - (* cleanup *)
    intros Hx. apply stepOutcome_unchanged. by eapply cleanup_lookup.
Qed.

Lemma reachable_invariant (gm : GameManager) :
  reachable gm → ∀ c l, lobbies gm !! c = Some l → lobbyInvariant l.
Proof.
  induction 1 as [|gm op Hreach IH Hkeep]; intros c l' Hl'.
  - cbn in Hl'. by rewrite lookup_empty in Hl'.
  - destruct (step_lookup gm op c l' Hl')
      as [(_ & Hinv & _) | (l & Hl & _ & Hstep & _)].
    + exact Hinv.
    + apply Hstep; [exact Hkeep|]. by eapply IH.
Qed.

Lemma step_codesAreKeys (gm : GameManager) (op : Op) :
  codesAreKeys gm → codesAreKeys (step gm op).
Proof.
  intros Hkeys c l' Hl'.
  destruct (step_lookup gm op c l' Hl') as [(Hcode & _) | (l & Hl & Hcode & _)].
  - exact Hcode.
  - rewrite Hcode. by apply Hkeys.
Qed.

Lemma run_codesAreKeys (ops : list Op) (gm : GameManager) :
  codesAreKeys gm → codesAreKeys (run ops gm).
Proof.
  revert gm. induction ops as [|op ops IH]; intros gm Hkeys; [done|].
  apply IH. by apply step_codesAreKeys.
Qed.

(** C3, as the service has it.  Along every sequence of operations in
    which no [updateSettings] call sets [settings.rounds] below the number
    of rounds already started in the caller's lobby (those in the history,
    and the one in progress): the history never has more than
    [settings.rounds] rounds; a call of [endRound] leaves the lobby in
    state [game_over] exactly when the history then has [settings.rounds]
    rounds; and no other operation moves a lobby into [game_over]. *)
Theorem rounds_invariant (gm : GameManager) :
  reachable gm →
  (∀ c l, lobbies gm !! c = Some l →
          (Z.of_nat (length (Lobby.roundHistory l))
           ≤ GameSettings.rounds (Lobby.settings l))%Z)
  ∧ (∀ c res gm',
       endRound gm c = (Some res, gm') →
       ∃ l', lobbies gm' !! c = Some l'
             ∧ (Lobby.state l' = game_over
                ↔ Z.of_nat (length (Lobby.roundHistory l'))
                  = GameSettings.rounds (Lobby.settings l'))
             ∧ (isGameOver res = true ↔ Lobby.state l' = game_over))
  ∧ (∀ op c l l',
       lobbies gm !! c = Some l →
       lobbies (step gm op) !! c = Some l' →
       Lobby.state l ≠ game_over →
       Lobby.state l' = game_over →
       op = OpEndRound c).
Proof.
  intros Hreach. pose proof (reachable_invariant gm Hreach) as Hinv.
  split; [|split].
  - intros c l Hl. destruct (Hinv c l Hl) as [Hle _].
    unfold startedRounds in Hle. destruct (Lobby.currentRound l); lia.
  - intros c res gm'. unfold endRound.
    destruct (lobbies gm !! c) as [l|] eqn:Hl; [|done].
    destruct (Lobby.currentRound l) as [round|] eqn:Hround; [|done].
    destruct (Hinv c l Hl) as [Hle Hplay].
    unfold startedRounds in Hle. rewrite Hround in Hle.
    specialize (Hplay ltac:(by rewrite Hround)).
    intros [= <- <-]. cbn [lobbies setLobbies isGameOver].
    rewrite lookup_insert_eq. eexists. split; [reflexivity|].
    cbn [Lobby.roundHistory Lobby.setRoundHistory Lobby.settings].
    rewrite length_app. cbn [length].
    destruct (_ >=? _)%Z eqn:Hover; rewrite Z.geb_leb in Hover;
      cbn; rewrite ?length_app; cbn.
    + apply Z.leb_le in Hover. split; split; try done. intros _. lia.
    + apply Z.leb_gt in Hover. rewrite Hplay. split; split; try done.
      intros Heq. lia.
  - intros op c l l' Hl Hl' Hbefore Hafter.
    destruct (step_lookup gm op c l' Hl')
      as [(_ & _ & Hnew) | (l0 & Hl0 & _ & _ & Hstate)]; [done|].
    rewrite Hl in Hl0. injection Hl0 as <-.
    by destruct (Hstate Hafter).
Qed.
End Rounds.

Lemma lastRoundOpen_reachable : reachable (H := asciiBuiltins) lastRoundOpen.
Proof.
  unfold lastRoundOpen, run, lateSettingsTrace. cbn [firstn fold_left].
  repeat (apply reachable_step; [|exact I]). apply reachable_new.
Qed.

Lemma rounds_invariant_witness :
  ∃ l', lobbies (snd (endRound lastRoundOpen (js "ABCDE"))) !! js "ABCDE" = Some l'
        ∧ (Lobby.state l' = game_over
           ↔ Z.of_nat (length (Lobby.roundHistory l'))
             = GameSettings.rounds (Lobby.settings l')).
Proof.
  destruct (endRound lastRoundOpen (js "ABCDE")) as [[res|] gm'] eqn:Hend;
    [|vm_compute in Hend; discriminate Hend].
  destruct (rounds_invariant (H := asciiBuiltins) lastRoundOpen lastRoundOpen_reachable)
    as (_ & Hover & _).
  destruct (Hover (js "ABCDE") res gm' Hend) as (l' & Hl' & Hiff & _).
  exists l'. split; [exact Hl' | exact Hiff].
Defined.

(** C3, the counterexample.  After two rounds of a game of three, the host
    sets [rounds] to 1: the history has two rounds, more than
    [settings.rounds]. *)
Lemma late_settings_exceed_rounds :
  ¬ (∀ (ops : list Op) (c : jsstring) (l : Lobby.t),
       lobbies (run (H := asciiBuiltins) ops newGameManager) !! c = Some l →
       (Z.of_nat (length (Lobby.roundHistory l))
        ≤ GameSettings.rounds (Lobby.settings l))%Z).
Proof.
  intros Hclaim.
  destruct (lobbies (run (H := asciiBuiltins) lateSettingsTrace newGameManager)
              !! js "ABCDE") as [l|] eqn:Hl;
    [|vm_compute in Hl; discriminate Hl].
  pose proof (Hclaim lateSettingsTrace (js "ABCDE") l Hl) as Hle.
  vm_compute in Hl. injection Hl as <-. cbn in Hle. lia.
Qed.

(** ** generateCode *)

Lemma randomChar_In (r : nat) : In (randomChar r) chars.
Proof.
  unfold randomChar. apply nth_In. apply Nat.mod_upper_bound. vm_compute. lia.
Qed.

Lemma attemptCode_succ (r1 r2 r3 r4 r5 : nat) (rest : list nat) (k : nat) :
  attemptCode (r1 :: r2 :: r3 :: r4 :: r5 :: rest) (S k) = attemptCode rest k.
Proof.
  unfold attemptCode. replace (5 * S k) with (5 + 5 * k) by lia. reflexivity.
Qed.

Lemma generateCode_returns (live : gmap jsstring Lobby.t) (draws : list nat)
  (code : jsstring) (rest : list nat) :
  generateCode live draws = Some (code, rest) →
  ∃ k, code = attemptCode draws k
       ∧ rest = drop (5 * (k + 1)) draws
       ∧ 5 * (k + 1) ≤ length draws
       ∧ live !! code = None
       ∧ ∀ j, j < k → is_Some (live !! attemptCode draws j).
Proof.
  remember (length draws) as n eqn:Hn. revert draws Hn.
  induction n as [n IH] using lt_wf_ind. intros draws Hn.
  destruct draws as [|r1 [|r2 [|r3 [|r4 [|r5 more]]]]]; try discriminate.
  cbn [generateCode]. case_bool_decide as Htaken.
  - intros Hrec.
    destruct (IH (length more) ltac:(subst n; simpl; lia) more eq_refl Hrec)
      as (k & Hcode & Hrest & Hlen & Hfree & Hbefore).
    exists (S k). rewrite attemptCode_succ. split; [exact Hcode|].
    split; [|split; [rewrite Hn; cbn [length]; lia | split; [exact Hfree|]]].
    + replace (5 * (S k + 1)) with (5 + 5 * (k + 1)) by lia. exact Hrest.
    + intros [|j] Hj; [exact Htaken|].
      rewrite attemptCode_succ. apply Hbefore. lia.
  - intros [= <- <-]. exists 0. split; [reflexivity|]. split; [reflexivity|].
    split; [rewrite Hn; cbn [length]; lia|]. split.
    + by apply eq_None_not_Some.
    + intros j Hj. lia.
Qed.

Lemma generateCode_enough (live : gmap jsstring Lobby.t) (draws : list nat) (k : nat) :
  5 * (k + 1) ≤ length draws →
  live !! attemptCode draws k = None →
  is_Some (generateCode live draws).
Proof.
  revert draws. induction k as [|k IH]; intros draws Hlen Hfree.
  - destruct draws as [|r1 [|r2 [|r3 [|r4 [|r5 more]]]]]; simpl in Hlen; try lia.
    cbn [generateCode]. case_bool_decide as Htaken; [|done].
    unfold attemptCode in Hfree. simpl in Hfree. rewrite Hfree in Htaken.
    by destruct Htaken.
  - destruct draws as [|r1 [|r2 [|r3 [|r4 [|r5 more]]]]]; simpl in Hlen; try lia.
    cbn [generateCode]. case_bool_decide as Htaken; [|done].
    rewrite attemptCode_succ in Hfree. apply IH; [lia | exact Hfree].
Qed.

(** C8.  A code returned by [generateCode] has five characters, each from
    the alphabet of 32 characters without I, O, 0 and 1, and no live lobby
    is stored under it: it is the code of the first attempt that does not
    collide, every earlier attempt having produced the key of a live lobby.
    A result is returned as soon as one attempt does not collide.  After
    any sequence of operations the lobbies are stored under their own
    codes, so the code returned differs from the code of every live
    lobby. *)
Theorem generateCode_spec `{Builtins} (live : gmap jsstring Lobby.t)
  (draws : list nat) :
  (∀ code rest,
     generateCode live draws = Some (code, rest) →
     length code = 5
     ∧ (∀ c, In c code → In c chars)
     ∧ live !! code = None
     ∧ ∃ k, code = attemptCode draws k
            ∧ rest = drop (5 * (k + 1)) draws
            ∧ ∀ j, j < k → is_Some (live !! attemptCode draws j))
  ∧ (∀ k, 5 * (k + 1) ≤ length draws →
          live !! attemptCode draws k = None →
          is_Some (generateCode live draws))
  ∧ (∀ ops code rest,
       live = lobbies (run ops newGameManager) →
       generateCode live draws = Some (code, rest) →
       ∀ c l, live !! c = Some l → Lobby.code l ≠ code)
  ∧ length chars = 32
  ∧ NoDup chars
  ∧ (∀ c, In c (js "IO01") → ¬ In c chars).
Proof.
  split; [|split; [|split; [|split; [|split]]]].
  - intros code rest Hgen.
    destruct (generateCode_returns live draws code rest Hgen)
      as (k & Hcode & Hrest & Hlen & Hfree & Hbefore).
    split; [|split; [|split; [exact Hfree|]]].
    + rewrite Hcode. unfold attemptCode.
      rewrite length_map, length_take, length_drop. lia.
    + intros c Hc. rewrite Hcode in Hc. unfold attemptCode in Hc.
      apply in_map_iff in Hc as (r & <- & _). apply randomChar_In.
    + exists k. done.
  - intros k. apply generateCode_enough.
  - intros ops code rest -> Hgen c l Hl Heq.
    destruct (generateCode_returns _ draws code rest Hgen) as (_ & _ & _ & _ & Hfree & _).
    assert (codesAreKeys (run ops newGameManager)) as Hkeys.
    { apply run_codesAreKeys. intros c0 l0 Hl0. cbn in Hl0.
      by rewrite lookup_empty in Hl0. }
    rewrite <- (Hkeys c l Hl), Heq in Hl. congruence.
  - reflexivity.
  - apply (bool_decide_unpack _). vm_compute. exact I.
  - intros c Hc Hin. vm_compute in Hc.
    destruct Hc as [<- | [<- | [<- | [<- | []]]]]; vm_compute in Hin;
      repeat (destruct Hin as [Hin | Hin]; [discriminate Hin|]); exact Hin.
Qed.

Lemma generateCode_spec_witness :
  ∃ code rest,
    generateCode (lobbies lobbyCreated) [0; 1; 2; 3; 4; 5; 6; 7; 8; 9; 10] = Some (code, rest)
    ∧ length code = 5
    ∧ lobbies lobbyCreated !! code = None.
Proof.
  destruct (generateCode (lobbies lobbyCreated) [0; 1; 2; 3; 4; 5; 6; 7; 8; 9; 10])
    as [[code rest]|] eqn:Hgen; [|vm_compute in Hgen; discriminate Hgen].
  destruct (proj1 (generateCode_spec (H := asciiBuiltins) (lobbies lobbyCreated)
                     [0; 1; 2; 3; 4; 5; 6; 7; 8; 9; 10]) code rest Hgen)
    as (Hlen & _ & Hfree & _).
  exists code, rest. done.
Defined.

(** * Further properties of the service *)

(** ** The registry and its indices *)

Lemma storeLobbyOfSocket_same (gm : GameManager) (socketId : jsstring) (lobby : Lobby.t) :
  getLobbyBySocket gm socketId = Some lobby →
  storeLobbyOfSocket gm socketId lobby = gm.
Proof.
  unfold getLobbyBySocket, storeLobbyOfSocket.
  destruct (playerToLobby gm !! socketId) as [code|]; [|done].
  destruct (truthy code); [|done]. intros Hl.
  unfold setLobbies. rewrite (insert_id _ _ _ Hl). by destruct gm.
Qed.

Lemma storeLobbyOfSocket_twice (gm : GameManager) (socketId : jsstring)
  (l1 l2 : Lobby.t) :
  storeLobbyOfSocket (storeLobbyOfSocket gm socketId l1) socketId l2
  = storeLobbyOfSocket gm socketId l2.
Proof.
  unfold storeLobbyOfSocket.
  destruct (playerToLobby gm !! socketId) as [code|] eqn:Hcode;
    cbn [playerToLobby setLobbies]; rewrite Hcode; [|done].
  unfold setLobbies. cbn [lobbies playerToLobby playerIds].
  by rewrite insert_insert_eq.
Qed.

Lemma getPlayerIdBySocket_store (gm : GameManager) (socketId s : jsstring)
  (lobby : Lobby.t) :
  getPlayerIdBySocket (storeLobbyOfSocket gm socketId lobby) s
  = getPlayerIdBySocket gm s.
Proof.
  unfold getPlayerIdBySocket, storeLobbyOfSocket.
  by destruct (playerToLobby gm !! socketId).
Qed.

Lemma generateCode_nonempty (live : gmap jsstring Lobby.t) (draws : list nat)
  (code : jsstring) (rest : list nat) :
  generateCode live draws = Some (code, rest) → code ≠ [] ∧ live !! code = None.
Proof.
  intros Hgen.
  destruct (generateCode_returns live draws code rest Hgen)
    as (k & Hcode & _ & Hlen & Hfree & _).
  split; [|exact Hfree]. intros ->.
  assert (length (attemptCode draws k) = 5) as Hfive.
  { unfold attemptCode. rewrite length_map, length_take, length_drop. lia. }
  rewrite <- Hcode in Hfive. discriminate Hfive.
Qed.

(** X1.  [createLobby] stores the new lobby under a code no lobby had: the
    other lobbies are as before and there is one lobby more.  The creator
    is its only player, host and ready; the lobby is waiting, has no song,
    and cannot be started.  The creator's socket resolves to the lobby and
    to the player. *)
Theorem createLobby_registers (gm : GameManager) (draws : list nat)
  (playerId : jsstring) (now : Z) (socketId playerName : jsstring) (avatar : Avatar)
  (lobby : Lobby.t) (pid : jsstring) (gm' : GameManager) :
  createLobby gm draws playerId now socketId playerName avatar = Some (lobby, pid, gm') →
  playerId ≠ [] →
  pid = playerId
  ∧ lobbies gm !! Lobby.code lobby = None
  ∧ lobbies gm' !! Lobby.code lobby = Some lobby
  ∧ (∀ c, c ≠ Lobby.code lobby → lobbies gm' !! c = lobbies gm !! c)
  ∧ size (lobbies gm') = S (size (lobbies gm))
  ∧ getLobbyBySocket gm' socketId = Some lobby
  ∧ getPlayerIdBySocket gm' socketId = Some playerId
  ∧ Lobby.state lobby = waiting
  ∧ Lobby.hostId lobby = playerId
  ∧ Obj.keys (Lobby.players lobby) = [playerId]
  ∧ (∃ p, Obj.get playerId (Lobby.players lobby) = Some p
          ∧ Player.isHost p = true ∧ Player.isReady p = true
          ∧ Player.score p = Num.Int 0 ∧ Player.socketId p = socketId)
  ∧ Lobby.songs lobby = []
  ∧ Lobby.settings lobby = DEFAULT_SETTINGS
  ∧ can (canStartGame lobby) = false.
Proof.
  unfold createLobby.
  destruct (generateCode (lobbies gm) draws) as [[code rest]|] eqn:Hgen; [|done].
  destruct (generateCode_nonempty _ _ _ _ Hgen) as [Hne Hfree].
  intros [= <- <- <-] Hpid. cbn [Lobby.code Lobby.state Lobby.hostId Lobby.players
    Lobby.songs Lobby.settings lobbies].
  split; [done|]. split; [exact Hfree|].
  split; [apply lookup_insert_eq|].
  split; [intros c Hc; by rewrite lookup_insert_ne|].
  split; [by apply map_size_insert_None|].
  split.
  { unfold getLobbyBySocket. cbn [playerToLobby lobbies].
    rewrite lookup_insert_eq. unfold truthy.
    rewrite bool_decide_eq_false_2 by done. apply lookup_insert_eq. }
  split.
  { unfold getPlayerIdBySocket. cbn [playerIds].
    rewrite lookup_insert_eq. unfold truthy.
    by rewrite bool_decide_eq_false_2 by done. }
  split; [done|]. split; [done|]. split; [done|].
  split.
  { eexists. cbn [Obj.get fst]. rewrite bool_decide_eq_true_2 by done.
    split; [reflexivity|]. done. }
  done.
Qed.

Lemma createLobby_registers_witness :
  ∃ lobby gm',
    createLobby lobbyCreated [0; 1; 2; 3; 4; 5; 6; 7; 8; 9] (js "host00000002") 50
      (js "sock-2") (js "Cid") avatar0 = Some (lobby, js "host00000002", gm')
    ∧ Lobby.code lobby = js "FGHJK"
    ∧ size (lobbies gm') = 2.
Proof.
  destruct (createLobby lobbyCreated [0; 1; 2; 3; 4; 5; 6; 7; 8; 9] (js "host00000002")
              50 (js "sock-2") (js "Cid") avatar0) as [[[lobby pid] gm']|] eqn:Hcreate;
    [|vm_compute in Hcreate; discriminate Hcreate].
  destruct (createLobby_registers _ _ _ _ _ _ _ _ _ _ Hcreate ltac:(discriminate))
    as (-> & _ & _ & _ & Hsize & _).
  exists lobby, gm'. split; [reflexivity|]. split.
  - vm_compute in Hcreate. by injection Hcreate as <- _.
  - rewrite Hsize. reflexivity.
Defined.

Section ObjMore.
Context {A : Type}.
Implicit Types (o : Obj.t A) (k : jsstring).

Lemma get_None_keys k o : Obj.get k o = None ↔ ¬ In k (Obj.keys o).
Proof.
  induction o as [|[k0 v] o IH]; cbn [Obj.get Obj.keys map fst In]; [tauto|].
  case_bool_decide as Hk.
  - split; [done|]. intros Hnot. exfalso. apply Hnot. by left.
  - fold (Obj.keys o). rewrite IH. tauto.
Qed.

Lemma get_Some_In k v o : Obj.get k o = Some v → In (k, v) o.
Proof.
  induction o as [|[k0 v0] o IH]; cbn [Obj.get fst In]; [done|].
  case_bool_decide as Hk.
  - intros [= <-]. left. by rewrite Hk.
  - intros Hg. right. auto.
Qed.

Lemma In_get_NoDup k v o : NoDup (Obj.keys o) → In (k, v) o → Obj.get k o = Some v.
Proof.
  induction o as [|[k0 v0] o IH]; cbn [Obj.get Obj.keys map fst In]; [done|].
  fold (Obj.keys o). intros [Hnotin Hnd]%NoDup_cons [[= -> ->] | Hin].
  - by rewrite bool_decide_eq_true_2.
  - rewrite bool_decide_eq_false_2; [auto|].
    intros ->. apply Hnotin, list_elem_of_In.
    unfold Obj.keys. apply in_map_iff. by exists (k, v).
Qed.

Lemma delete_absent k o : Obj.get k o = None → Obj.delete k o = o.
Proof.
  induction o as [|[k0 v] o IH]; cbn [Obj.get Obj.delete List.filter fst]; [done|].
  case_bool_decide as Hk; [done|]. cbn [negb]. intros Hg.
  f_equal. by apply IH.
Qed.

Lemma delete_set_absent k v o : Obj.get k o = None → Obj.delete k (Obj.set k v o) = o.
Proof.
  intros Hg. unfold Obj.set, Obj.has. rewrite Hg.
  unfold Obj.delete. rewrite List.filter_app. cbn [List.filter fst].
  rewrite bool_decide_eq_true_2 by done. cbn [negb]. rewrite app_nil_r.
  by apply delete_absent.
Qed.

Lemma keys_set_absent k v o :
  Obj.get k o = None → Obj.keys (Obj.set k v o) = Obj.keys o ++ [k].
Proof.
  intros Hg. unfold Obj.set, Obj.has. rewrite Hg. unfold Obj.keys.
  by rewrite map_app.
Qed.

Lemma modify_modify k (f g : A → A) o :
  Obj.modify k g (Obj.modify k f o) = Obj.modify k (fun v => g (f v)) o.
Proof.
  unfold Obj.modify. rewrite map_map. apply map_ext. intros [k0 v]. cbn [fst snd].
  destruct (decide (k0 = k)) as [Hk | Hk].
  - by rewrite !(bool_decide_eq_true_2 (k0 = k)) by done.
  - by rewrite !(bool_decide_eq_false_2 (k0 = k)) by done.
Qed.

Lemma modify_same k (f : A → A) o :
  (∀ v, In (k, v) o → f v = v) → Obj.modify k f o = o.
Proof.
  intros Hf. unfold Obj.modify. rewrite <- (map_id o) at 2.
  apply map_ext_in. intros [k0 v] Hin. cbn [fst snd].
  case_bool_decide as Hk; [|done]. subst k0. by rewrite Hf.
Qed.
End ObjMore.

Lemma GameManager_eq (gm gm' : GameManager) :
  lobbies gm = lobbies gm' → playerToLobby gm = playerToLobby gm' →
  playerIds gm = playerIds gm' → gm = gm'.
Proof. destruct gm, gm'. cbn. by intros -> -> ->. Qed.

(** X2.  Joining and leaving again is a round trip: when a socket that is
    in no lobby joins a waiting lobby with room under a player id the lobby
    does not have, and then leaves, the service is in the state it had
    before the join, and the lobby returned is the lobby as it was. *)
Theorem joinLobby_leaveLobby `{Builtins} (gm : GameManager)
  (playerId code socketId playerName : jsstring) (avatar : Avatar) (lobby : Lobby.t) :
  lobbies gm !! toUpperCase code = Some lobby →
  Lobby.state lobby = waiting →
  (Z.of_nat (length (Obj.keys (Lobby.players lobby)))
   < GameSettings.maxPlayers (Lobby.settings lobby))%Z →
  Lobby.players lobby ≠ [] →
  Obj.get playerId (Lobby.players lobby) = None →
  playerToLobby gm !! socketId = None →
  playerIds gm !! socketId = None →
  playerId ≠ [] → toUpperCase code ≠ [] →
  ∃ lobby1 gm1,
    joinLobby gm playerId code socketId playerName avatar
    = Returned (lobby1, playerId) gm1
    ∧ length (Obj.keys (Lobby.players lobby1))
      = S (length (Obj.keys (Lobby.players lobby)))
    ∧ leaveLobby gm1 socketId
      = (Some {| lr_lobby := Some lobby; lr_playerId := playerId; wasHost := false |},
         gm).
Proof.
  intros Hlobby Hstate Hroom Hplayers Hfresh Hidx1 Hidx2 Hpid Hcode.
  unfold joinLobby. rewrite Hlobby.
  rewrite bool_decide_eq_false_2 by (by rewrite Hstate; auto).
  destruct (_ >=? _)%Z eqn:Hfull; [lia|].
  eexists _, _. split; [reflexivity|].
  cbn [Lobby.players Lobby.setPlayers]. split.
  { rewrite keys_set_absent by done. rewrite length_app. cbn [length]. lia. }
  unfold leaveLobby. cbn [playerToLobby playerIds lobbies].
  rewrite !lookup_insert_eq. unfold truthy.
  rewrite !bool_decide_eq_false_2 by done. cbn [negb orb].
  cbn [Lobby.players Lobby.setPlayers].
  rewrite get_set_eq. cbn [Player.isHost].
  rewrite delete_set_absent by done.
  destruct (Obj.keys (Lobby.players lobby)) as [|k ks] eqn:Hkeys.
  { destruct (Lobby.players lobby); [done | discriminate Hkeys]. }
  f_equal.
  - f_equal. f_equal. f_equal. by destruct lobby.
  - apply GameManager_eq; cbn [lobbies playerToLobby playerIds].
    + rewrite insert_insert_eq. apply insert_id. rewrite Hlobby. by destruct lobby.
    + by apply delete_insert_id.
    + by apply delete_insert_id.
Qed.

Lemma joinLobby_leaveLobby_witness :
  ∃ lobby1 gm1,
    joinLobby (H := asciiBuiltins) lobbyCreated (js "guest0000001") (js "abcde")
      (js "sock-g") (js "Bob") avatar0 = Returned (lobby1, js "guest0000001") gm1
    ∧ snd (leaveLobby gm1 (js "sock-g")) = lobbyCreated.
Proof.
  destruct (lobbies lobbyCreated !! js "ABCDE") as [lobby|] eqn:Hlobby;
    [|vm_compute in Hlobby; discriminate Hlobby].
  destruct (joinLobby_leaveLobby (H := asciiBuiltins) lobbyCreated (js "guest0000001")
              (js "abcde") (js "sock-g") (js "Bob") avatar0 lobby)
    as (lobby1 & gm1 & Hjoin & _ & Hleave);
    [exact Hlobby
    | vm_compute in Hlobby; injection Hlobby as <-; try (cbn; lia);
      vm_compute; done ..
    |].
  exists lobby1, gm1. split; [exact Hjoin|]. by rewrite Hleave.
Defined.

(** ** Ready flags and the song pool *)

(** X3.  [toggleReady] is its own inverse: toggling twice gives back the
    lobby and the state of the service. *)
Theorem toggleReady_twice (gm : GameManager) (socketId : jsstring)
  (lobby : Lobby.t) (playerId : jsstring) (player : Player.t) :
  getLobbyBySocket gm socketId = Some lobby →
  getPlayerIdBySocket gm socketId = Some playerId →
  Obj.get playerId (Lobby.players lobby) = Some player →
  NoDup (Obj.keys (Lobby.players lobby)) →
  ∃ lobby1 gm1 player1,
    toggleReady gm socketId = Returned (Some lobby1) gm1
    ∧ Obj.get playerId (Lobby.players lobby1) = Some player1
    ∧ Player.isReady player1 = negb (Player.isReady player)
    ∧ toggleReady gm1 socketId = Returned (Some lobby) gm.
Proof.
  intros Hlobby Hpid Hplayer Hnodup.
  unfold toggleReady at 1. rewrite Hlobby, Hpid, Hplayer.
  eexists _, _, _. split; [reflexivity|].
  cbn [Lobby.players Lobby.setPlayers].
  split.
  { rewrite get_modify, bool_decide_eq_true_2, Hplayer by done. reflexivity. }
  split; [reflexivity|].
  unfold toggleReady.
  rewrite (getLobbyBySocket_store _ _ _ _ Hlobby), getPlayerIdBySocket_store, Hpid.
  cbn [Lobby.players Lobby.setPlayers].
  rewrite get_modify, bool_decide_eq_true_2, Hplayer by done. cbn [fmap option_fmap option_map].
  rewrite storeLobbyOfSocket_twice, modify_modify.
  rewrite modify_same.
  - replace (Lobby.setPlayers (Lobby.players lobby) _) with lobby by (by destruct lobby).
    by rewrite (storeLobbyOfSocket_same _ _ _ Hlobby).
  - intros v Hin. pose proof (In_get_NoDup _ _ _ Hnodup Hin) as Hget.
    rewrite Hplayer in Hget. injection Hget as <-.
    destruct player. cbn. by rewrite negb_involutive.
Qed.

Lemma toggleReady_twice_witness :
  ∃ lobby1 gm1,
    toggleReady twoPlayers (js "sock-g") = Returned (Some lobby1) gm1
    ∧ stateOf (toggleReady gm1 (js "sock-g")) gm1 = twoPlayers.
Proof.
  destruct (getLobbyBySocket twoPlayers (js "sock-g")) as [lobby|] eqn:Hlobby;
    [|vm_compute in Hlobby; discriminate Hlobby].
  destruct (Obj.get (js "guest0000001") (Lobby.players lobby)) as [player|] eqn:Hplayer;
    [|vm_compute in Hlobby; injection Hlobby as <-; vm_compute in Hplayer;
      discriminate Hplayer].
  destruct (toggleReady_twice twoPlayers (js "sock-g") lobby (js "guest0000001") player)
    as (lobby1 & gm1 & player1 & Hfirst & _ & _ & Hsecond).
  - exact Hlobby.
  - vm_compute. reflexivity.
  - exact Hplayer.
  - vm_compute in Hlobby. injection Hlobby as <-.
    apply (bool_decide_unpack _). vm_compute. exact I.
  - exists lobby1, gm1. split; [exact Hfirst|]. by rewrite Hsecond.
Defined.

(** X4.  Adding a song and removing it again is a round trip: the host adds
    a song under an id no song of the pool has; the song is then the last
    of the pool, carries that id and has every other field of the data it
    was made from, and the rest of the lobby is as it was; [removeSong]
    with the id gives back the lobby and the state of the service. *)
Theorem addSong_removeSong (gm : GameManager) (nanoid socketId : jsstring)
  (songData : Song.t) (lobby : Lobby.t) :
  getLobbyBySocket gm socketId = Some lobby →
  getPlayerIdBySocket gm socketId = Some (Lobby.hostId lobby) →
  ¬ In nanoid (map Song.id (Lobby.songs lobby)) →
  ∃ lobby1 song gm1,
    addSong gm nanoid socketId songData = (Some (lobby1, song), gm1)
    ∧ Song.id song = nanoid
    ∧ Song.title song = Song.title songData
    ∧ Lobby.songs lobby1 = Lobby.songs lobby ++ [song]
    ∧ song = Song.mk nanoid (Song.title songData) (Song.artist songData)
               (Song.album songData) (Song.coverUrl songData) (Song.source songData)
               (Song.sourceId songData) (Song.duration songData)
               (Song.previewUrl songData) (Song.startTime songData)
               (Song.endTime songData)
    ∧ Lobby.setSongs (Lobby.songs lobby) lobby1 = lobby
    ∧ getLobbyBySocket gm1 socketId = Some lobby1
    ∧ removeSong gm1 socketId nanoid = (Some lobby, gm).
Proof.
  intros Hlobby Hpid Hfresh.
  unfold addSong. rewrite Hlobby, Hpid.
  rewrite bool_decide_eq_false_2 by auto.
  eexists _, _, _. split; [reflexivity|].
  split; [reflexivity|]. split; [reflexivity|]. split; [reflexivity|].
  split; [reflexivity|]. split; [by destruct lobby|].
  split; [by eapply getLobbyBySocket_store|].
  unfold removeSong.
  rewrite (getLobbyBySocket_store _ _ _ _ Hlobby), getPlayerIdBySocket_store, Hpid.
  cbn [Lobby.hostId Lobby.setSongs Lobby.songs].
  rewrite bool_decide_eq_false_2 by auto.
  assert (List.filter (fun s => bool_decide (Song.id s ≠ nanoid))
            (Lobby.songs lobby ++ [Song.setId nanoid songData])
          = Lobby.songs lobby) as ->.
  { rewrite List.filter_app. cbn [List.filter Song.id Song.setId].
    rewrite bool_decide_eq_false_2 by auto. rewrite app_nil_r.
    induction (Lobby.songs lobby) as [|s ss IH]; [done|].
    cbn [List.filter]. cbn [map In] in Hfresh.
    rewrite bool_decide_eq_true_2 by (intros Heq; apply Hfresh; by left).
    f_equal. apply IH. intros Hin. apply Hfresh. by right. }
  rewrite storeLobbyOfSocket_twice.
  replace (Lobby.setSongs (Lobby.songs lobby) _) with lobby by (by destruct lobby).
  by rewrite (storeLobbyOfSocket_same _ _ _ Hlobby).
Qed.

Lemma addSong_removeSong_witness :
  ∃ lobby1 song gm1,
    addSong songsAdded (js "song000004") (js "sock-h") (songData "Hey Jude" "The Beatles")
    = (Some (lobby1, song), gm1)
    ∧ length (Lobby.songs lobby1) = 4
    ∧ song = Song.mk (js "song000004") (js "Hey Jude") (js "The Beatles") None None
               youtube (js "vid") 200 None 0 5
    ∧ snd (removeSong gm1 (js "sock-h") (js "song000004")) = songsAdded.
Proof.
  destruct (getLobbyBySocket songsAdded (js "sock-h")) as [lobby|] eqn:Hlobby;
    [|vm_compute in Hlobby; discriminate Hlobby].
  destruct (addSong_removeSong songsAdded (js "song000004") (js "sock-h")
              (songData "Hey Jude" "The Beatles") lobby)
    as (lobby1 & song & gm1 & Hadd & _ & _ & Hsongs & Hsong & _ & _ & Hremove).
  - exact Hlobby.
  - vm_compute in Hlobby. injection Hlobby as <-. vm_compute. reflexivity.
  - vm_compute in Hlobby. injection Hlobby as <-. vm_compute.
    intros [Heq | [Heq | [Heq | []]]]; discriminate Heq.
  - exists lobby1, song, gm1. split; [exact Hadd|]. split; [|split].
    + rewrite Hsongs, length_app. vm_compute in Hlobby. injection Hlobby as <-.
      reflexivity.
    + exact Hsong.
    + by rewrite Hremove.
Defined.

(** X5.  [addSongsBulk] by the host is [addSong] repeated: it leaves the
    service in the state that adding the songs one by one, under the same
    ids and in the same order, leaves it in, and it counts the songs. *)
Theorem addSongsBulk_addSong (gm : GameManager) (socketId : jsstring)
  (songsData : list (jsstring * Song.t)) (lobby : Lobby.t) :
  getLobbyBySocket gm socketId = Some lobby →
  getPlayerIdBySocket gm socketId = Some (Lobby.hostId lobby) →
  ∃ lobby',
    addSongsBulk gm socketId songsData
    = (Some (lobby', length songsData),
       fold_left (fun g d => snd (addSong g (fst d) socketId (snd d))) songsData gm)
    ∧ Lobby.songs lobby'
      = Lobby.songs lobby ++ map (fun d => Song.setId (fst d) (snd d)) songsData.
Proof.
  intros Hlobby Hpid. unfold addSongsBulk. rewrite Hlobby, Hpid.
  rewrite bool_decide_eq_false_2 by auto. rewrite length_map.
  exists (Lobby.setSongs
            (Lobby.songs lobby ++ map (fun d => Song.setId (fst d) (snd d)) songsData)
            lobby).
  split; [|reflexivity]. f_equal.
  revert gm lobby Hlobby Hpid. induction songsData as [|d ds IH]; intros gm lobby Hlobby Hpid.
  - cbn [map fold_left]. rewrite app_nil_r.
    replace (Lobby.setSongs (Lobby.songs lobby) lobby) with lobby by (by destruct lobby).
    by apply storeLobbyOfSocket_same.
  - cbn [map fold_left]. unfold addSong at 2. rewrite Hlobby, Hpid.
    rewrite bool_decide_eq_false_2 by auto. cbn [snd].
    set (lobby1 := Lobby.setSongs (Lobby.songs lobby ++ [Song.setId (fst d) (snd d)]) lobby).
    rewrite <- (IH (storeLobbyOfSocket gm socketId lobby1) lobby1).
    + rewrite storeLobbyOfSocket_twice. f_equal. subst lobby1.
      cbn [Lobby.songs Lobby.setSongs]. rewrite <- app_assoc. by destruct lobby.
    + by eapply getLobbyBySocket_store.
    + by rewrite getPlayerIdBySocket_store.
Qed.

Lemma addSongsBulk_addSong_witness :
  ∃ lobby',
    fst (addSongsBulk lobbyCreated (js "sock-h")
           [(js "song000001", songData "Yesterday" "The Beatles");
            (js "song000002", songData "Imagine" "John Lennon");
            (js "song000003", songData "Hallelujah" "Leonard Cohen")])
    = Some (lobby', 3)
    ∧ snd (addSongsBulk lobbyCreated (js "sock-h")
             [(js "song000001", songData "Yesterday" "The Beatles");
              (js "song000002", songData "Imagine" "John Lennon");
              (js "song000003", songData "Hallelujah" "Leonard Cohen")])
      = songsAdded.
Proof.
  destruct (getLobbyBySocket lobbyCreated (js "sock-h")) as [lobby|] eqn:Hlobby;
    [|vm_compute in Hlobby; discriminate Hlobby].
  destruct (addSongsBulk_addSong lobbyCreated (js "sock-h")
              [(js "song000001", songData "Yesterday" "The Beatles");
               (js "song000002", songData "Imagine" "John Lennon");
               (js "song000003", songData "Hallelujah" "Leonard Cohen")] lobby)
    as (lobby' & Hbulk & _).
  - exact Hlobby.
  - vm_compute in Hlobby. injection Hlobby as <-. vm_compute. reflexivity.
  - exists lobby'. rewrite Hbulk. split; reflexivity.
Defined.

(** ** Operations of the host *)

(** X6.  The operations reserved to the host return null and change nothing
    when the caller's socket is in no lobby or the caller is not the host
    of its lobby. *)
Theorem host_only_operations (gm : GameManager) (socketId : jsstring) :
  (∀ lobby playerId,
     getLobbyBySocket gm socketId = Some lobby →
     getPlayerIdBySocket gm socketId = Some playerId →
     Lobby.hostId lobby ≠ playerId) →
  (∀ settings, updateSettings gm socketId settings = (None, gm))
  ∧ (∀ nanoid songData, addSong gm nanoid socketId songData = (None, gm))
  ∧ (∀ songsData, addSongsBulk gm socketId songsData = (None, gm))
  ∧ (∀ songId, removeSong gm socketId songId = (None, gm))
  ∧ startGame gm socketId = (None, gm)
  ∧ (∀ targetPlayerId, kickPlayer gm socketId targetPlayerId = (None, gm)).
Proof.
  intros Hnot.
  unfold updateSettings, addSong, addSongsBulk, removeSong, startGame, kickPlayer.
  destruct (getLobbyBySocket gm socketId) as [lobby|]; [|done].
  destruct (getPlayerIdBySocket gm socketId) as [playerId|]; [|done].
  rewrite bool_decide_eq_true_2 by (by apply Hnot). done.
Qed.

Lemma host_only_operations_witness :
  startGame twoPlayers (js "sock-g") = (None, twoPlayers)
  ∧ kickPlayer twoPlayers (js "sock-g") (js "host00000001") = (None, twoPlayers).
Proof.
  destruct (host_only_operations twoPlayers (js "sock-g")) as (_ & _ & _ & _ & Hstart & Hkick).
  - intros lobby playerId Hlobby Hpid.
    vm_compute in Hlobby. injection Hlobby as <-.
    vm_compute in Hpid. injection Hpid as <-. discriminate.
  - split; [exact Hstart | apply Hkick].
Defined.

(** X7.  [kickPlayer] by the host removes a player who is not host from the
    lobby, leaves the other players as they are, and deletes both index
    entries of the removed player's socket, which then resolves to no
    lobby; it returns the lobby and that socket.  A player with [isHost]
    set is not removed: the call returns null and changes nothing.  So it
    does for an id the lobby does not have, unless the id is the name of a
    property of [Object.prototype], such as [constructor]: the lookup then
    finds this property, and the call changes nothing and returns the lobby
    with no socket. *)
Theorem kickPlayer_spec (gm : GameManager) (socketId targetPlayerId : jsstring)
  (lobby : Lobby.t) :
  getLobbyBySocket gm socketId = Some lobby →
  getPlayerIdBySocket gm socketId = Some (Lobby.hostId lobby) →
  (∀ target,
     Obj.get targetPlayerId (Lobby.players lobby) = Some target →
     Player.isHost target = false →
     ∃ lobby' gm',
       kickPlayer gm socketId targetPlayerId
       = (Some (lobby', Some (Player.socketId target)), gm')
       ∧ Obj.get targetPlayerId (Lobby.players lobby') = None
       ∧ (∀ k, k ≠ targetPlayerId →
               Obj.get k (Lobby.players lobby') = Obj.get k (Lobby.players lobby))
       ∧ Lobby.hostId lobby' = Lobby.hostId lobby
       ∧ playerToLobby gm' !! Player.socketId target = None
       ∧ playerIds gm' !! Player.socketId target = None
       ∧ getLobbyBySocket gm' (Player.socketId target) = None
       ∧ (Player.socketId target ≠ socketId →
          getLobbyBySocket gm' socketId = Some lobby'))
  ∧ (∀ target,
       Obj.get targetPlayerId (Lobby.players lobby) = Some target →
       Player.isHost target = true →
       kickPlayer gm socketId targetPlayerId = (None, gm))
  ∧ (Obj.get targetPlayerId (Lobby.players lobby) = None →
     targetPlayerId ∉ Obj.prototypeNames →
     kickPlayer gm socketId targetPlayerId = (None, gm))
  ∧ (Obj.get targetPlayerId (Lobby.players lobby) = None →
     targetPlayerId ∈ Obj.prototypeNames →
     kickPlayer gm socketId targetPlayerId = (Some (lobby, None), gm)).
Proof.
  intros Hlobby Hpid. unfold kickPlayer. rewrite Hlobby, Hpid.
  rewrite bool_decide_eq_false_2 by auto.
  split; [|split; [|split]].
  - intros target -> ->. eexists _, _. split; [reflexivity|].
    cbn [Lobby.players Lobby.setPlayers Lobby.hostId playerToLobby playerIds].
    split; [apply get_delete_eq|].
    split; [intros k Hk; by apply get_delete_ne|].
    split; [reflexivity|].
    split; [apply lookup_delete_eq|]. split; [apply lookup_delete_eq|].
    split.
    + unfold getLobbyBySocket. cbn [playerToLobby]. by rewrite lookup_delete_eq.
    + intros Hne. pose proof (getLobbyBySocket_store gm socketId lobby
        (Lobby.setPlayers (Obj.delete targetPlayerId (Lobby.players lobby)) lobby) Hlobby)
        as Hstored.
      unfold getLobbyBySocket in *. cbn [playerToLobby lobbies].
      by rewrite lookup_delete_ne.
  - by intros target -> ->.
  - intros -> Hown. unfold Obj.inherited. by rewrite bool_decide_eq_false_2.
  - intros -> Hproto. unfold Obj.inherited. by rewrite bool_decide_eq_true_2.
Qed.

Lemma kickPlayer_spec_witness :
  ∃ lobby lobby' gm',
    kickPlayer twoPlayers (js "sock-h") (js "guest0000001")
    = (Some (lobby', Some (js "sock-g")), gm')
    ∧ getLobbyBySocket gm' (js "sock-g") = None
    ∧ kickPlayer twoPlayers (js "sock-h") (js "host00000001") = (None, twoPlayers)
    ∧ getLobbyBySocket twoPlayers (js "sock-h") = Some lobby
    ∧ kickPlayer twoPlayers (js "sock-h") (js "constructor")
      = (Some (lobby, None), twoPlayers).
Proof.
  destruct (getLobbyBySocket twoPlayers (js "sock-h")) as [lobby|] eqn:Hlobby;
    [|vm_compute in Hlobby; discriminate Hlobby].
  assert (getPlayerIdBySocket twoPlayers (js "sock-h") = Some (Lobby.hostId lobby))
    as Hpid.
  { vm_compute in Hlobby. injection Hlobby as <-. vm_compute. reflexivity. }
  pose proof (kickPlayer_spec twoPlayers (js "sock-h") (js "constructor") lobby Hlobby
                Hpid) as (_ & _ & _ & Hproto).
  destruct (kickPlayer_spec twoPlayers (js "sock-h") (js "guest0000001") lobby Hlobby)
    as (Hkick & _ & _).
  { exact Hpid. }
  destruct (Obj.get (js "guest0000001") (Lobby.players lobby)) as [target|] eqn:Htarget;
    [|vm_compute in Hlobby; injection Hlobby as <-; vm_compute in Htarget;
      discriminate Htarget].
  destruct (Hkick target eq_refl) as (lobby' & gm' & Hret & _ & _ & _ & _ & _ & Hgone & _).
  { vm_compute in Hlobby. injection Hlobby as <-.
    vm_compute in Htarget. by injection Htarget as <-. }
  pose proof Hlobby as Hl0. vm_compute in Hl0. injection Hl0 as Hl0.
  assert (Player.socketId target = js "sock-g") as Hsock.
  { rewrite <- Hl0 in Htarget. vm_compute in Htarget. by injection Htarget as <-. }
  rewrite Hsock in Hret, Hgone.
  exists lobby, lobby', gm'.
  split; [exact Hret|]. split; [exact Hgone|]. split; [reflexivity|].
  split; [reflexivity|].
  apply Hproto.
  - rewrite <- Hl0. reflexivity.
  - apply (bool_decide_unpack _). vm_compute. exact I.
Defined.

(** X8.  Kicking a player leaves the service in the state that player's own
    [leaveLobby] leaves it in, when the player's socket is registered for
    the same lobby and under the player's id. *)
Theorem kickPlayer_as_leaveLobby (gm : GameManager) (socketId targetPlayerId code : jsstring)
  (lobby : Lobby.t) (target : Player.t) :
  playerToLobby gm !! socketId = Some code →
  code ≠ [] →
  lobbies gm !! code = Some lobby →
  getPlayerIdBySocket gm socketId = Some (Lobby.hostId lobby) →
  Obj.get targetPlayerId (Lobby.players lobby) = Some target →
  Player.isHost target = false →
  playerToLobby gm !! Player.socketId target = Some code →
  playerIds gm !! Player.socketId target = Some targetPlayerId →
  targetPlayerId ≠ [] →
  Obj.delete targetPlayerId (Lobby.players lobby) ≠ [] →
  snd (kickPlayer gm socketId targetPlayerId)
  = snd (leaveLobby gm (Player.socketId target)).
Proof.
  intros Hcode Hne Hlobby Hpid Htarget Hhost Htcode Htpid Htne Hrest.
  unfold kickPlayer, getLobbyBySocket. rewrite Hcode. unfold truthy at 1.
  rewrite bool_decide_eq_false_2 by done. cbn [negb]. rewrite Hlobby, Hpid.
  rewrite bool_decide_eq_false_2 by auto. rewrite Htarget, Hhost.
  unfold leaveLobby. rewrite Htcode, Htpid. unfold truthy.
  rewrite !bool_decide_eq_false_2 by done. cbn [negb orb]. rewrite Hlobby, Htarget, Hhost.
  destruct (Obj.keys (Obj.delete targetPlayerId (Lobby.players lobby))) as [|k ks] eqn:Hkeys.
  { destruct (Obj.delete targetPlayerId (Lobby.players lobby)); [done | discriminate Hkeys]. }
  cbn [snd]. unfold storeLobbyOfSocket. rewrite Hcode. reflexivity.
Qed.

Lemma kickPlayer_as_leaveLobby_witness :
  snd (kickPlayer twoPlayers (js "sock-h") (js "guest0000001"))
  = snd (leaveLobby twoPlayers (js "sock-g")).
Proof.
  destruct (lobbies twoPlayers !! js "ABCDE") as [lobby|] eqn:Hlobby;
    [|vm_compute in Hlobby; discriminate Hlobby].
  destruct (Obj.get (js "guest0000001") (Lobby.players lobby)) as [target|] eqn:Htarget;
    [|vm_compute in Hlobby; injection Hlobby as <-; vm_compute in Htarget;
      discriminate Htarget].
  assert (Player.socketId target = js "sock-g") as Hsock.
  { vm_compute in Hlobby. injection Hlobby as <-.
    vm_compute in Htarget. by injection Htarget as <-. }
  rewrite <- Hsock.
  apply (kickPlayer_as_leaveLobby twoPlayers (js "sock-h") (js "guest0000001")
           (js "ABCDE") lobby target); try exact Hlobby; try exact Htarget;
    try discriminate; rewrite ?Hsock;
    vm_compute in Hlobby; injection Hlobby as <-;
    vm_compute in Htarget; injection Htarget as <-; vm_compute; done.
Defined.

(** ** cleanup *)

Lemma forgetPlayers_index (ps : list Player.t) (gm : GameManager) (s x : jsstring) :
  (playerToLobby (fold_left forgetPlayer ps gm) !! s = Some x
   ↔ playerToLobby gm !! s = Some x ∧ ¬ ∃ p, In p ps ∧ Player.socketId p = s)
  ∧ (playerIds (fold_left forgetPlayer ps gm) !! s = Some x
     ↔ playerIds gm !! s = Some x ∧ ¬ ∃ p, In p ps ∧ Player.socketId p = s).
Proof.
  revert gm. induction ps as [|p ps IH]; intros gm; cbn [fold_left].
  - split; (split; [intros Hl; split; [done|]; by intros (p & [] & _) | by intros [Hl _]]).
  - destruct (IH (forgetPlayer gm p)) as [IH1 IH2]. rewrite IH1, IH2.
    cbn [forgetPlayer playerToLobby playerIds]. rewrite !lookup_delete_Some.
    split; (split;
      [ intros [[Hne Hl] Hno]; split; [done|]; intros (q & [<- | Hin] & Hq);
        [done | apply Hno; by exists q]
      | intros [Hl Hno]; split;
        [ split; [|done]; intros Heq; apply Hno; exists p; split; [by left | done]
        | intros (q & Hin & Hq); apply Hno; exists q; split; [by right | done] ] ]).
Qed.

(** X9.  [cleanup] deletes exactly the lobbies created more than three hours
    before [now]; every other lobby is kept as it is.  An index entry of a
    socket is kept exactly when no deleted lobby has a player with that
    socket. *)
Theorem cleanup_spec (gm : GameManager) (now : Z) :
  let stale (l : Lobby.t) := (3 * 60 * 60 * 1000 < now - Lobby.createdAt l)%Z in
  let released (s : jsstring) :=
    ∃ c l p, lobbies gm !! c = Some l ∧ stale l
             ∧ In p (Obj.values (Lobby.players l)) ∧ Player.socketId p = s in
  (∀ c l, lobbies (cleanup gm now) !! c = Some l
          ↔ lobbies gm !! c = Some l ∧ ¬ stale l)
  ∧ (∀ s x, playerToLobby (cleanup gm now) !! s = Some x
            ↔ playerToLobby gm !! s = Some x ∧ ¬ released s)
  ∧ (∀ s x, playerIds (cleanup gm now) !! s = Some x
            ↔ playerIds gm !! s = Some x ∧ ¬ released s).
Proof.
  intros stale released. unfold cleanup.
  set (f := fun (code : jsstring) (lobby : Lobby.t) (acc : GameManager) => _).
  set (releasedIn (m : gmap jsstring Lobby.t) (s : jsstring) :=
         ∃ c l p, m !! c = Some l ∧ stale l
                  ∧ In p (Obj.values (Lobby.players l)) ∧ Player.socketId p = s).
  assert ((∀ c l, lobbies (map_fold f gm (lobbies gm)) !! c = Some l
                  ↔ lobbies gm !! c = Some l
                    ∧ ∀ l0, lobbies gm !! c = Some l0 → ¬ stale l0)
          ∧ (∀ s x, playerToLobby (map_fold f gm (lobbies gm)) !! s = Some x
                    ↔ playerToLobby gm !! s = Some x ∧ ¬ releasedIn (lobbies gm) s)
          ∧ (∀ s x, playerIds (map_fold f gm (lobbies gm)) !! s = Some x
                    ↔ playerIds gm !! s = Some x ∧ ¬ releasedIn (lobbies gm) s))
    as (Hlobbies & Hindex1 & Hindex2).
  { apply (map_fold_weak_ind
             (fun r (m : gmap jsstring Lobby.t) =>
                (∀ c l, lobbies r !! c = Some l
                        ↔ lobbies gm !! c = Some l ∧ ∀ l0, m !! c = Some l0 → ¬ stale l0)
                ∧ (∀ s x, playerToLobby r !! s = Some x
                          ↔ playerToLobby gm !! s = Some x ∧ ¬ releasedIn m s)
                ∧ (∀ s x, playerIds r !! s = Some x
                          ↔ playerIds gm !! s = Some x ∧ ¬ releasedIn m s)) f gm).
    - split; [|split].
      + intros c l. split; [intros Hl; split; [done|]; intros l0 Hl0;
          by rewrite lookup_empty in Hl0 | by intros [Hl _]].
      + intros s x. split; [intros Hl; split; [done|];
          intros (c & l & p & Hl0 & _); by rewrite lookup_empty in Hl0 | by intros [Hl _]].
      + intros s x. split; [intros Hl; split; [done|];
          intros (c & l & p & Hl0 & _); by rewrite lookup_empty in Hl0 | by intros [Hl _]].
    - intros i y m r Hfresh (IHl & IH1 & IH2). subst f. cbn beta.
      assert (∀ s, releasedIn (<[i:=y]> m) s
                   ↔ releasedIn m s
                     ∨ (stale y ∧ ∃ p, In p (Obj.values (Lobby.players y))
                                       ∧ Player.socketId p = s)) as Hrel.
      { intros s. split.
        - intros (c & l & p & [[<- <-] | [Hne Hl]]%lookup_insert_Some & Hst & Hin & Hp).
          + right. split; [done|]. by exists p.
          + left. by exists c, l, p.
        - intros [(c & l & p & Hl & Hst & Hin & Hp) | (Hst & p & Hin & Hp)].
          + exists c, l, p. rewrite lookup_insert_ne; [done|]. intros <-. congruence.
          + exists i, y, p. by rewrite lookup_insert_eq. }
      destruct (now - Lobby.createdAt y >? 3 * 60 * 60 * 1000)%Z eqn:Hold.
      + assert (stale y) as Hst by (unfold stale; lia).
        split; [|split].
        * intros c l. cbn [lobbies setLobbies]. rewrite forgetPlayers_lobbies.
          rewrite lookup_delete_Some, IHl. split.
          -- intros [Hne [Hl Hno]]. split; [done|]. intros l0.
             rewrite lookup_insert_ne by done. apply Hno.
          -- intros [Hl Hno]. destruct (decide (i = c)) as [<- | Hne].
             ++ exfalso. apply (Hno y); [apply lookup_insert_eq | done].
             ++ split; [done|]. split; [done|]. intros l0 Hl0. apply Hno.
                by rewrite lookup_insert_ne.
        * intros s x. cbn [playerToLobby setLobbies].
          rewrite (proj1 (forgetPlayers_index _ r s x)), IH1, Hrel. split.
          -- intros [[Hl Hno] Hnop]. split; [done|].
             intros [Hr | [_ Hp]]; [by apply Hno | by apply Hnop].
          -- intros [Hl Hno]. split; [split; [done|]|]; intros Hr; apply Hno; tauto.
        * intros s x. cbn [playerIds setLobbies].
          rewrite (proj2 (forgetPlayers_index _ r s x)), IH2, Hrel. split.
          -- intros [[Hl Hno] Hnop]. split; [done|].
             intros [Hr | [_ Hp]]; [by apply Hno | by apply Hnop].
          -- intros [Hl Hno]. split; [split; [done|]|]; intros Hr; apply Hno; tauto.
      + assert (¬ stale y) as Hst by (unfold stale; lia).
        split; [|split].
        * intros c l. rewrite IHl. split.
          -- intros [Hl Hno]. split; [done|]. intros l0.
             intros [[<- <-] | [Hne Hl0]]%lookup_insert_Some; [done | by apply Hno].
          -- intros [Hl Hno]. split; [done|]. intros l0 Hl0. apply Hno.
             rewrite lookup_insert_ne; [done|]. intros <-. congruence.
        * intros s x. rewrite IH1, Hrel. tauto.
        * intros s x. rewrite IH2, Hrel. tauto. }
  split; [|split].
  - intros c l. rewrite Hlobbies. split.
    + intros [Hl Hno]. split; [done | by apply Hno].
    + intros [Hl Hno]. split; [done|]. intros l0 Hl0. congruence.
  - exact Hindex1.
  - exact Hindex2.
Qed.

Lemma cleanup_spec_witness :
  lobbies (cleanup twoPlayers 14400000) !! js "ABCDE" = None
  ∧ lobbies (cleanup twoPlayers 10800000) !! js "ABCDE" = lobbies twoPlayers !! js "ABCDE".
Proof.
  split.
  - destruct (lobbies (cleanup twoPlayers 14400000) !! js "ABCDE") as [l|] eqn:Hl; [|done].
    apply (proj1 (cleanup_spec twoPlayers 14400000)) in Hl as [Hl Hfresh].
    vm_compute in Hl. injection Hl as <-. exfalso. apply Hfresh. cbn. lia.
  - destruct (lobbies twoPlayers !! js "ABCDE") as [l|] eqn:Hl;
      [|vm_compute in Hl; discriminate Hl].
    apply (proj1 (cleanup_spec twoPlayers 10800000)). split; [exact Hl|].
    vm_compute in Hl. injection Hl as <-. cbn. lia.
Defined.

(** ** Starting and ending *)

Lemma forEach_values_In {A} (f : A → A) (o : Obj.t A) (v : A) :
  In v (Obj.values (Obj.forEach f o)) → ∃ v0, In v0 (Obj.values o) ∧ v = f v0.
Proof.
  rewrite values_forEach, in_map_iff. intros (v0 & <- & Hin). by exists v0.
Qed.

(** X10.  [startGame] by the host succeeds exactly when [canStartGame] says
    yes, whatever the state of the lobby.  It then puts the lobby in state
    [playing] with an empty history and no current round, sets every
    player's score, streak and round fields to zero, and lowers
    [settings.rounds] to the number of songs when it was larger; players,
    songs and host are kept.  When [canStartGame] says no, nothing
    changes. *)
Theorem startGame_spec (gm : GameManager) (socketId : jsstring) (lobby : Lobby.t) :
  getLobbyBySocket gm socketId = Some lobby →
  getPlayerIdBySocket gm socketId = Some (Lobby.hostId lobby) →
  (can (canStartGame lobby) = false → startGame gm socketId = (None, gm))
  ∧ (can (canStartGame lobby) = true →
     ∃ lobby' gm',
       startGame gm socketId = (Some lobby', gm')
       ∧ getLobbyBySocket gm' socketId = Some lobby'
       ∧ Lobby.state lobby' = playing
       ∧ Lobby.roundHistory lobby' = []
       ∧ Lobby.currentRound lobby' = None
       ∧ GameSettings.rounds (Lobby.settings lobby')
         = Z.min (GameSettings.rounds (Lobby.settings lobby))
                 (Z.of_nat (length (Lobby.songs lobby)))
       ∧ (GameSettings.rounds (Lobby.settings lobby')
          ≤ Z.of_nat (length (Lobby.songs lobby')))%Z
       ∧ Lobby.songs lobby' = Lobby.songs lobby
       ∧ Lobby.hostId lobby' = Lobby.hostId lobby
       ∧ Obj.keys (Lobby.players lobby') = Obj.keys (Lobby.players lobby)
       ∧ (∀ p, In p (Obj.values (Lobby.players lobby')) →
               Player.score p = Num.Int 0 ∧ Player.streak p = 0%Z
               ∧ Player.roundScore p = Num.Int 0 ∧ Player.hasGuessed p = false
               ∧ Player.lastGuessCorrect p = false)).
Proof.
  intros Hlobby Hpid. unfold startGame. rewrite Hlobby, Hpid.
  rewrite bool_decide_eq_false_2 by auto. split.
  - by intros ->.
  - intros ->. cbn [negb]. eexists _, _. split; [reflexivity|].
    split; [by eapply getLobbyBySocket_store|].
    cbn [Lobby.state Lobby.roundHistory Lobby.currentRound Lobby.settings Lobby.songs
         Lobby.hostId Lobby.players Lobby.setSettings Lobby.setCurrentRound
         Lobby.setRoundHistory Lobby.setState Lobby.setPlayers
         GameSettings.rounds GameSettings.setRounds].
    do 4 (split; [reflexivity|]). split; [lia|].
    do 2 (split; [reflexivity|]). split; [apply keys_forEach|].
    intros p (p0 & _ & ->)%forEach_values_In. done.
Qed.

Lemma startGame_spec_witness :
  ∃ lobby' gm',
    startGame songsAdded (js "sock-h") = (Some lobby', gm')
    ∧ GameSettings.rounds (Lobby.settings lobby') = 3%Z
    ∧ startGame lobbyCreated (js "sock-h") = (None, lobbyCreated).
Proof.
  destruct (getLobbyBySocket songsAdded (js "sock-h")) as [lobby|] eqn:Hlobby;
    [|vm_compute in Hlobby; discriminate Hlobby].
  destruct (startGame_spec songsAdded (js "sock-h") lobby Hlobby) as [_ Hstart].
  { vm_compute in Hlobby. injection Hlobby as <-. vm_compute. reflexivity. }
  destruct Hstart as (lobby' & gm' & Hret & _ & _ & _ & _ & Hrounds & _).
  { vm_compute in Hlobby. injection Hlobby as <-. vm_compute. reflexivity. }
  exists lobby', gm'. split; [exact Hret|]. split.
  - rewrite Hrounds. vm_compute in Hlobby. injection Hlobby as <-. reflexivity.
  - reflexivity.
Defined.

(** X11.  After [endRound] the round is the last of the history, in phase
    [reveal] and with the guesses it had, the lobby has no current round,
    and the players are untouched; the call returns the song and the
    guesses of the round.  Ending again returns null and changes nothing:
    a round is ended once. *)
Theorem endRound_once (gm : GameManager) (lobbyCode : jsstring) (lobby : Lobby.t)
  (round : RoundState.t) :
  lobbies gm !! lobbyCode = Some lobby →
  Lobby.currentRound lobby = Some round →
  ∃ res gm' lobby',
    endRound gm lobbyCode = (Some res, gm')
    ∧ er_song res = RoundState.song round
    ∧ er_guesses res = RoundState.guesses round
    ∧ lobbies gm' !! lobbyCode = Some lobby'
    ∧ Lobby.currentRound lobby' = None
    ∧ Lobby.roundHistory lobby'
      = Lobby.roundHistory lobby ++ [RoundState.setPhase phase_reveal round]
    ∧ Lobby.players lobby' = Lobby.players lobby
    ∧ (∀ c, c ≠ lobbyCode → lobbies gm' !! c = lobbies gm !! c)
    ∧ playerToLobby gm' = playerToLobby gm
    ∧ playerIds gm' = playerIds gm
    ∧ endRound gm' lobbyCode = (None, gm').
Proof.
  intros Hlobby Hround. unfold endRound at 1. rewrite Hlobby, Hround.
  eexists _, _, _. split; [reflexivity|].
  cbn [er_song er_guesses lobbies setLobbies playerToLobby playerIds].
  split; [reflexivity|]. split; [reflexivity|].
  rewrite lookup_insert_eq. split; [reflexivity|].
  split; [reflexivity|]. split; [by destruct (_ >=? _)%Z|].
  split; [by destruct (_ >=? _)%Z|].
  split; [intros c Hc; by rewrite lookup_insert_ne|].
  split; [reflexivity|]. split; [reflexivity|].
  unfold endRound. cbn [lobbies setLobbies]. by rewrite lookup_insert_eq.
Qed.

Lemma endRound_once_witness :
  ∃ res gm',
    endRound lastRoundOpen (js "ABCDE") = (Some res, gm')
    ∧ Song.title (er_song res) = js "Hallelujah"
    ∧ endRound gm' (js "ABCDE") = (None, gm').
Proof.
  destruct (lobbies lastRoundOpen !! js "ABCDE") as [lobby|] eqn:Hlobby;
    [|vm_compute in Hlobby; discriminate Hlobby].
  destruct (Lobby.currentRound lobby) as [round|] eqn:Hround;
    [|vm_compute in Hlobby; injection Hlobby as <-; discriminate Hround].
  destruct (endRound_once lastRoundOpen (js "ABCDE") lobby round Hlobby Hround)
    as (res & gm' & lobby' & Hret & Hsong & _ & _ & _ & _ & _ & _ & _ & _ & Hagain).
  exists res, gm'. split; [exact Hret|]. split; [|exact Hagain].
  rewrite Hsong. vm_compute in Hlobby. injection Hlobby as <-.
  vm_compute in Hround. by injection Hround as <-.
Defined.

Lemma scoreboard_fold (ps : list Player.t) (acc : Obj.t Num.t) :
  (∀ k, ¬ In k (map Player.id ps) →
        Obj.get k (fold_left (fun scores p => Obj.set (Player.id p) (Player.score p) scores)
                     ps acc) = Obj.get k acc)
  ∧ (NoDup (map Player.id ps) →
     ∀ p, In p ps →
          Obj.get (Player.id p)
            (fold_left (fun scores p => Obj.set (Player.id p) (Player.score p) scores)
               ps acc) = Some (Player.score p)).
Proof.
  revert acc. induction ps as [|q ps IH]; intros acc; cbn [fold_left map In].
  - split; [done | by intros _ p []].
  - destruct (IH (Obj.set (Player.id q) (Player.score q) acc)) as [IHout IHin].
    split.
    + intros k Hk. rewrite IHout by tauto. apply get_set_ne. tauto.
    + intros [Hnotin Hnd]%NoDup_cons p [<- | Hin].
      * rewrite IHout by (by rewrite <- list_elem_of_In). apply get_set_eq.
      * by apply IHin.
Qed.

(** X12.  The scoreboard [endRound] returns gives, under the id of every
    player of the lobby, that player's cumulative score, and has no other
    entry (the players having distinct ids). *)
Theorem endRound_scoreboard (gm : GameManager) (lobbyCode : jsstring) (lobby : Lobby.t)
  (res : EndRoundResult) (gm' : GameManager) :
  lobbies gm !! lobbyCode = Some lobby →
  endRound gm lobbyCode = (Some res, gm') →
  NoDup (map Player.id (Obj.values (Lobby.players lobby))) →
  (∀ p, In p (Obj.values (Lobby.players lobby)) →
        Obj.get (Player.id p) (er_scores res) = Some (Player.score p))
  ∧ (∀ k, ¬ In k (map Player.id (Obj.values (Lobby.players lobby))) →
          Obj.get k (er_scores res) = None).
Proof.
  intros Hlobby. unfold endRound. rewrite Hlobby.
  destruct (Lobby.currentRound lobby) as [round|]; [|done].
  intros [= <- _] Hnd. cbn [er_scores Lobby.players Lobby.setRoundHistory].
  unfold scoreboard.
  destruct (scoreboard_fold (Obj.values (Lobby.players lobby)) []) as [Hout Hin].
  split; [by apply Hin|]. intros k Hk. by rewrite Hout.
Qed.

Lemma endRound_scoreboard_witness :
  ∃ res gm',
    endRound thirdRound (js "ABCDE") = (Some res, gm')
    ∧ Obj.get (js "host00000001") (er_scores res) = Some (Num.Int 2632).
Proof.
  destruct (lobbies thirdRound !! js "ABCDE") as [lobby|] eqn:Hlobby;
    [|vm_compute in Hlobby; discriminate Hlobby].
  destruct (endRound thirdRound (js "ABCDE")) as [[res|] gm'] eqn:Hend;
    [|vm_compute in Hend; discriminate Hend].
  destruct (endRound_scoreboard thirdRound (js "ABCDE") lobby res gm' Hlobby Hend)
    as [Hscores _].
  { vm_compute in Hlobby. injection Hlobby as <-.
    apply (bool_decide_unpack _). vm_compute. exact I. }
  exists res, gm'. split; [reflexivity|].
  vm_compute in Hlobby. injection Hlobby as <-.
  apply (Hscores (Player.mk (js "host00000001") (js "sock-h") (js "Ann") avatar0
                    (Num.Int 2632) 2 true true false false (Num.Int 0))).
  left. reflexivity.
Defined.

Lemma forEach_forEach {A} (f g : A → A) (o : Obj.t A) :
  Obj.forEach g (Obj.forEach f o) = Obj.forEach (fun v => g (f v)) o.
Proof. unfold Obj.forEach. rewrite map_map. by apply map_ext. Qed.

Lemma forEach_ext {A} (f g : A → A) (o : Obj.t A) :
  (∀ v, f v = g v) → Obj.forEach f o = Obj.forEach g o.
Proof. intros Hfg. unfold Obj.forEach. apply map_ext. intros [k v]. cbn. by rewrite Hfg. Qed.

(** X13.  [resetLobby] brings a lobby back to the waiting room: state
    [waiting], no history, no current round, every score, streak and round
    score zero, [hasGuessed] and [lastGuessCorrect] cleared, and every
    player ready exactly when host; each player keeps its id, socket, name,
    avatar and [isHost], and the lobby its code, songs, settings, host and
    time of creation.  Resetting twice is resetting once.  After it the
    game can be started again exactly when there are three songs and nobody
    but hosts in the lobby. *)
Theorem resetLobby_spec (gm : GameManager) (lobbyCode : jsstring) (lobby : Lobby.t) :
  lobbies gm !! lobbyCode = Some lobby →
  ∃ lobby' gm',
    resetLobby gm lobbyCode = (Some lobby', gm')
    ∧ lobbies gm' !! lobbyCode = Some lobby'
    ∧ Lobby.state lobby' = waiting
    ∧ Lobby.roundHistory lobby' = []
    ∧ Lobby.currentRound lobby' = None
    ∧ Lobby.songs lobby' = Lobby.songs lobby
    ∧ Lobby.settings lobby' = Lobby.settings lobby
    ∧ Lobby.hostId lobby' = Lobby.hostId lobby
    ∧ Obj.keys (Lobby.players lobby') = Obj.keys (Lobby.players lobby)
    ∧ (∀ p, In p (Obj.values (Lobby.players lobby')) →
            Player.score p = Num.Int 0 ∧ Player.streak p = 0%Z
            ∧ Player.isReady p = Player.isHost p)
    ∧ (∀ p, In p (Obj.values (Lobby.players lobby')) →
            Player.roundScore p = Num.Int 0 ∧ Player.hasGuessed p = false
            ∧ Player.lastGuessCorrect p = false)
    ∧ Obj.values (Lobby.players lobby')
      = map (fun p => Player.mk (Player.id p) (Player.socketId p) (Player.name p)
                        (Player.avatar p) (Num.Int 0) 0 (Player.isHost p)
                        (Player.isHost p) false false (Num.Int 0))
            (Obj.values (Lobby.players lobby))
    ∧ Lobby.code lobby' = Lobby.code lobby
    ∧ Lobby.createdAt lobby' = Lobby.createdAt lobby
    ∧ resetLobby gm' lobbyCode = (Some lobby', gm')
    ∧ (can (canStartGame lobby') = true
       ↔ 3 ≤ length (Lobby.songs lobby) ∧ Lobby.players lobby ≠ []
         ∧ ∀ p, In p (Obj.values (Lobby.players lobby)) → Player.isHost p = true).
Proof.
  intros Hlobby. unfold resetLobby at 1. rewrite Hlobby.
  eexists _, _. split; [reflexivity|].
  cbn [lobbies setLobbies]. rewrite lookup_insert_eq. split; [reflexivity|].
  cbn [Lobby.state Lobby.roundHistory Lobby.currentRound Lobby.settings Lobby.songs
       Lobby.hostId Lobby.players Lobby.setCurrentRound Lobby.setRoundHistory
       Lobby.setState Lobby.setPlayers].
  do 6 (split; [reflexivity|]). split; [apply keys_forEach|].
  split; [intros p (p0 & _ & ->)%forEach_values_In; done|].
  split; [intros p (p0 & _ & ->)%forEach_values_In; done|].
  split; [apply values_forEach|].
  do 2 (split; [reflexivity|]).
  split.
  - unfold resetLobby. cbn [lobbies setLobbies]. rewrite lookup_insert_eq.
    cbn [Lobby.state Lobby.roundHistory Lobby.currentRound Lobby.settings Lobby.songs
         Lobby.hostId Lobby.players Lobby.setCurrentRound Lobby.setRoundHistory
         Lobby.setState Lobby.setPlayers Lobby.code Lobby.createdAt].
    rewrite forEach_forEach, insert_insert_eq.
    rewrite (forEach_ext (fun v => resetPlayer (resetPlayer v)) resetPlayer)
      by (by intros []).
    reflexivity.
  - unfold canStartGame.
    cbn [Lobby.players Lobby.songs Lobby.setCurrentRound Lobby.setRoundHistory
         Lobby.setState Lobby.setPlayers].
    rewrite values_forEach, length_map.
    destruct (length (Obj.values (Lobby.players lobby)) <? 1) eqn:Hcount.
    { apply Nat.ltb_lt in Hcount. split; [done|]. intros (_ & Hne & _).
      destruct (Lobby.players lobby); [done | cbn in Hcount; lia]. }
    apply Nat.ltb_ge in Hcount.
    destruct (length (Lobby.songs lobby) <? 3) eqn:Hsongs.
    { apply Nat.ltb_lt in Hsongs. split; [done | lia]. }
    apply Nat.ltb_ge in Hsongs.
    destruct (0 <? length (List.filter _ _)) eqn:Hnot; cbn [can].
    + apply Nat.ltb_lt in Hnot. split; [done|]. intros (_ & _ & Hall). exfalso.
      assert (length (List.filter
                (fun p => negb (Player.isReady p) && negb (Player.isHost p))
                (map resetPlayer (Obj.values (Lobby.players lobby)))) = 0); [|lia].
      apply filter_length_0. intros p (p0 & <- & Hin)%in_map_iff.
      cbn. rewrite (Hall p0 Hin). done.
    + apply Nat.ltb_ge in Hnot. split; [|done]. intros _.
      split; [done|]. split.
      { intros Hnil. rewrite Hnil in Hcount. cbn in Hcount. lia. }
      intros p Hin.
      assert (length (List.filter
                (fun p => negb (Player.isReady p) && negb (Player.isHost p))
                (map resetPlayer (Obj.values (Lobby.players lobby)))) = 0) as Hzero by lia.
      pose proof (proj1 (filter_length_0 _ _) Hzero (resetPlayer p)
                    (in_map resetPlayer _ _ Hin)) as Hp.
      cbn in Hp. by destruct (Player.isHost p).
Qed.

(** The reset of a game in which the host has guessed a song: the host had
    1366 points, a streak of 1 and [hasGuessed] set. *)
Lemma resetLobby_spec_witness :
  ∃ lobby lobby' gm',
    lobbies firstRoundOver !! js "ABCDE" = Some lobby
    ∧ map (fun p => (Player.score p, Player.streak p, Player.roundScore p,
                     Player.hasGuessed p, Player.lastGuessCorrect p))
          (Obj.values (Lobby.players lobby))
      = [(Num.Int 1366, 1%Z, Num.Int 1366, true, true)]
    ∧ resetLobby firstRoundOver (js "ABCDE") = (Some lobby', gm')
    ∧ Lobby.state lobby' = waiting
    ∧ can (canStartGame lobby') = true
    ∧ map (fun p => (Player.score p, Player.streak p, Player.roundScore p,
                     Player.hasGuessed p, Player.lastGuessCorrect p))
          (Obj.values (Lobby.players lobby'))
      = [(Num.Int 0, 0%Z, Num.Int 0, false, false)].
Proof.
  destruct (lobbies firstRoundOver !! js "ABCDE") as [lobby|] eqn:Hlobby;
    [|vm_compute in Hlobby; discriminate Hlobby].
  destruct (resetLobby_spec firstRoundOver (js "ABCDE") lobby Hlobby)
    as (lobby' & gm' & Hret & _ & Hstate & _ & _ & _ & _ & _ & _ & _ & _ & Hvalues
        & _ & _ & _ & Hcan).
  exists lobby, lobby', gm'. split; [reflexivity|].
  vm_compute in Hlobby. injection Hlobby as <-.
  split; [reflexivity|]. split; [exact Hret|]. split; [exact Hstate|].
  split.
  - apply Hcan. split; [cbn; lia|]. split; [discriminate|].
    intros p [<- | []]. reflexivity.
  - rewrite Hvalues. reflexivity.
Defined.

(** ** Guessing *)

Section GuessingFacts.
Context `{Builtins}.

(** X14.  A player guesses once per round: after a guess that was taken
    (a round is active and the player had not guessed), every further
    [submitGuess] from the same socket returns null and changes nothing,
    whatever the text and the time. *)
Theorem submitGuess_second (gm : GameManager) (now : Z) (socketId guess : jsstring)
  (lobby : Lobby.t) (playerId : jsstring) (round : RoundState.t) (player : Player.t) :
  getLobbyBySocket gm socketId = Some lobby →
  getPlayerIdBySocket gm socketId = Some playerId →
  Lobby.currentRound lobby = Some round →
  Obj.get playerId (Lobby.players lobby) = Some player →
  Player.hasGuessed player = false →
  ∃ r gm1,
    submitGuess gm now socketId guess = Returned (Some r) gm1
    ∧ ∀ now' guess', submitGuess gm1 now' socketId guess' = Returned None gm1.
Proof.
  intros Hlobby Hpid Hround Hplayer Hfresh.
  pose proof (submitGuess_returns gm now socketId guess lobby playerId round player
                Hlobby Hpid Hround Hplayer Hfresh) as Hret.
  cbv zeta in Hret. eexists _, _. split; [exact Hret|].
  intros now' guess'. unfold submitGuess.
  rewrite (getLobbyBySocket_store _ _ _ _ Hlobby), getPlayerIdBySocket_store, Hpid.
  cbn [Lobby.currentRound Lobby.setCurrentRound Lobby.players Lobby.setPlayers].
  rewrite get_modify, bool_decide_eq_true_2, Hplayer by done.
  reflexivity.
Qed.
End GuessingFacts.

Lemma submitGuess_second_witness :
  ∃ r gm1,
    submitGuess (H := asciiBuiltins) thirdRound 205000 (js "sock-h") (js "no idea")
    = Returned (Some r) gm1
    ∧ submitGuess (H := asciiBuiltins) gm1 206000 (js "sock-h") (js "hallelujah")
      = Returned None gm1.
Proof.
  destruct (getLobbyBySocket thirdRound (js "sock-h")) as [lobby|] eqn:Hlobby;
    [|vm_compute in Hlobby; discriminate Hlobby].
  destruct (Lobby.currentRound lobby) as [round|] eqn:Hround;
    [|vm_compute in Hlobby; injection Hlobby as <-; discriminate Hround].
  destruct (Obj.get (js "host00000001") (Lobby.players lobby)) as [player|] eqn:Hplayer;
    [|vm_compute in Hlobby; injection Hlobby as <-; vm_compute in Hplayer;
      discriminate Hplayer].
  destruct (submitGuess_second (H := asciiBuiltins) thirdRound 205000 (js "sock-h")
              (js "no idea") lobby (js "host00000001") round player)
    as (r & gm1 & Hret & Hagain).
  - exact Hlobby.
  - vm_compute. reflexivity.
  - exact Hround.
  - exact Hplayer.
  - vm_compute in Hlobby. injection Hlobby as <-.
    vm_compute in Hplayer. injection Hplayer as <-. reflexivity.
  - exists r, gm1. split; [exact Hret | apply Hagain].
Defined.

(** ** Numbers *)

(** Rounding keeps the sign. *)
Lemma binary_round_aux_sign (sx : bool) (mx ex : Z) (lx : location) :
  match binary_round_aux Num.prec Num.emax sx mx ex lx with
  | S754_zero s | S754_infinity s | S754_finite s _ _ => s = sx
  | S754_nan => True
  end.
Proof.
  unfold binary_round_aux.
  destruct (shr_fexp _ _ mx ex lx) as [mrs' e'].
  destruct (shr_fexp _ _ _ e' loc_Exact) as [mrs'' e''].
  destruct (shr_m mrs''); [reflexivity | | exact I].
  by destruct (_ <=? _)%Z.
Qed.

Lemma binary_round_aux_notNegative (mx ex : Z) (lx : location) :
  Num.floatNotNegative (binary_round_aux Num.prec Num.emax false mx ex lx).
Proof.
  pose proof (binary_round_aux_sign false mx ex lx) as Hsign.
  by destruct (binary_round_aux _ _ _ _ _ _).
Qed.

Lemma binary_normalize_notNegative (m e : Z) (szero : bool) :
  (0 ≤ m)%Z → Num.floatNotNegative (binary_normalize Num.prec Num.emax m e szero).
Proof.
  intros Hm. destruct m as [|m|m]; [exact I | | lia].
  unfold binary_normalize, binary_round.
  destruct (shl_align m e _) as [mz ez].
  apply binary_round_aux_notNegative.
Qed.

Lemma fadd_notNegative (x y : spec_float) :
  Num.floatNotNegative x → Num.floatNotNegative y →
  Num.floatNotNegative (Num.fadd x y).
Proof.
  unfold Num.fadd.
  destruct x as [sx|sx| |sx mx ex], y as [sy|sy| |sy my ey];
    cbn [SFadd Num.floatNotNegative]; intros Hx Hy; subst; try done.
  - by destruct sx, sy.
  - apply binary_normalize_notNegative. cbn [cond_Zopp]. lia.
Qed.

Lemma fmul_notNegative (x y : spec_float) :
  Num.floatNotNegative x → Num.floatNotNegative y →
  Num.floatNotNegative (Num.fmul x y).
Proof.
  unfold Num.fmul.
  destruct x as [sx|sx| |sx mx ex], y as [sy|sy| |sy my ey];
    cbn [SFmul Num.floatNotNegative]; intros Hx Hy; subst; try done.
  apply binary_round_aux_notNegative.
Qed.

Lemma floor_notNegative (x : spec_float) :
  Num.floatNotNegative x → Num.notNegative (Num.floor x).
Proof.
  destruct x as [s|s| |s m e]; cbn [Num.floor Num.floatNotNegative Num.notNegative];
    [lia | done | done |].
  intros ->. cbn [cond_Zopp]. destruct (0 <=? e)%Z eqn:He.
  - apply Z.leb_le in He. apply Z.mul_nonneg_nonneg; [lia|].
    apply Z.pow_nonneg. lia.
  - apply Z.leb_gt in He. apply Z.div_pos; [lia|].
    apply Z.pow_pos_nonneg; lia.
Qed.

Lemma toFloat_notNegative (n : Num.t) :
  Num.notNegative n → Num.floatNotNegative (Num.toFloat n).
Proof.
  destruct n as [z| |s]; cbn [Num.toFloat Num.notNegative Num.floatNotNegative];
    [|done..].
  apply binary_normalize_notNegative.
Qed.

Lemma add_notNegative (a b : Num.t) :
  Num.notNegative a → Num.notNegative b → Num.notNegative (Num.add a b).
Proof.
  intros Ha Hb. apply floor_notNegative, fadd_notNegative; by apply toFloat_notNegative.
Qed.

Lemma mul_notNegative (a b : Num.t) :
  Num.notNegative a → Num.notNegative b → Num.notNegative (Num.mul a b).
Proof.
  intros Ha Hb. apply floor_notNegative, fmul_notNegative; by apply toFloat_notNegative.
Qed.

Lemma max0_notNegative (n : Num.t) : Num.notNegative (Num.max0 n).
Proof. destruct n as [z| |[]]; cbn [Num.max0 Num.notNegative]; [lia | done..]. Qed.

(** A sum with [NaN] is [NaN]. *)
Lemma add_NaN_r (a : Num.t) : Num.add a Num.NaN = Num.NaN.
Proof.
  unfold Num.add, Num.fadd. cbn [Num.toFloat].
  by destruct (Num.toFloat a).
Qed.

Lemma add_NaN_l (a : Num.t) : Num.add Num.NaN a = Num.NaN.
Proof. reflexivity. Qed.

(** The comparator does not order two players of the same score. *)
Lemma sub_diag_positive (s : Num.t) : Num.positive (Num.sub s s) = false.
Proof.
  destruct s as [z| |s]; cbn [Num.sub Num.positive]; [|done|].
  - apply Z.ltb_ge. lia.
  - by rewrite Bool.eqb_reflx.
Qed.

(** ** The time bonus *)

Lemma timeBonus_notNegative (speed : bool) (timeElapsed : spec_float)
  (timePerRound : Z) :
  Num.notNegative (timeBonus speed timeElapsed timePerRound).
Proof.
  unfold timeBonus. destruct speed; [apply max0_notNegative|].
  cbn [Num.notNegative]. lia.
Qed.

(** X15.  The time bonus is 0 with the speed bonus off.  With it on the
    bonus is never below zero: it is an integer that is not negative, or
    [NaN], or [+Infinity].  In a round of 30 seconds it is 500 for a guess
    at the start, 250 after 15 seconds, 49 after 27 seconds (the quotient
    27 / 30 is rounded, so that the product is below 50), and 0 after 30
    seconds and later.  With [timePerRound = 0] it is [NaN] for a guess at
    the start of the round, 0 for a later guess, and [+Infinity] for a
    guess the clock puts before the start. *)
Theorem timeBonus_bounds (startedAt : Z) :
  (∀ timeElapsed timePerRound, timeBonus false timeElapsed timePerRound = Num.Int 0)
  ∧ (∀ timeElapsed timePerRound,
       Num.notNegative (timeBonus true timeElapsed timePerRound))
  ∧ timeBonus true (elapsedSeconds startedAt startedAt) 30 = Num.Int 500
  ∧ timeBonus true (elapsedSeconds (startedAt + 15000) startedAt) 30 = Num.Int 250
  ∧ timeBonus true (elapsedSeconds (startedAt + 27000) startedAt) 30 = Num.Int 49
  ∧ timeBonus true (elapsedSeconds (startedAt + 30000) startedAt) 30 = Num.Int 0
  ∧ timeBonus true (elapsedSeconds (startedAt + 45000) startedAt) 30 = Num.Int 0
  ∧ timeBonus true (elapsedSeconds startedAt startedAt) 0 = Num.NaN
  ∧ timeBonus true (elapsedSeconds (startedAt + 5) startedAt) 0 = Num.Int 0
  ∧ timeBonus true (elapsedSeconds (startedAt - 5) startedAt) 0
    = Num.Infinity false.
Proof.
  unfold elapsedSeconds.
  replace (startedAt - startedAt)%Z with 0%Z by lia.
  replace (startedAt + 15000 - startedAt)%Z with 15000%Z by lia.
  replace (startedAt + 27000 - startedAt)%Z with 27000%Z by lia.
  replace (startedAt + 30000 - startedAt)%Z with 30000%Z by lia.
  replace (startedAt + 45000 - startedAt)%Z with 45000%Z by lia.
  replace (startedAt + 5 - startedAt)%Z with 5%Z by lia.
  replace (startedAt - 5 - startedAt)%Z with (-5)%Z by lia.
  split; [reflexivity|].
  split; [intros timeElapsed timePerRound; apply timeBonus_notNegative|].
  repeat split; vm_compute; reflexivity.
Qed.

Section NotANumber.
Context `{Builtins}.

(** X27.  With the speed bonus on and [timePerRound] set to 0, a right
    guess at the very time the round started has the time bonus [NaN]
    (0 / 0): the points are [NaN], and [NaN] is what the call returns,
    records with the guess, and stores as the score and the round score of
    the player; the streak grows by one and the player has guessed. *)
Theorem submitGuess_not_a_number (gm : GameManager) (now : Z)
  (socketId guess : jsstring) (lobby : Lobby.t) (playerId : jsstring)
  (round : RoundState.t) (player : Player.t) :
  getLobbyBySocket gm socketId = Some lobby →
  getPlayerIdBySocket gm socketId = Some playerId →
  Lobby.currentRound lobby = Some round →
  Obj.get playerId (Lobby.players lobby) = Some player →
  Player.hasGuessed player = false →
  GameSettings.scoreMultiplierSpeed (Lobby.settings lobby) = true →
  GameSettings.timePerRound (Lobby.settings lobby) = 0%Z →
  now = RoundState.startedAt round →
  checkGuess guess (RoundState.song round) = true →
  ∃ r gm' lobby' round' player' record,
    submitGuess gm now socketId guess = Returned (Some r) gm'
    ∧ gr_correct r = true
    ∧ gr_score r = Num.NaN
    ∧ getLobbyBySocket gm' socketId = Some lobby'
    ∧ Obj.get playerId (Lobby.players lobby') = Some player'
    ∧ Player.score player' = Num.NaN
    ∧ Player.roundScore player' = Num.NaN
    ∧ Player.streak player' = (Player.streak player + 1)%Z
    ∧ Player.hasGuessed player' = true
    ∧ Lobby.currentRound lobby' = Some round'
    ∧ Obj.get playerId (RoundState.guesses round') = Some record
    ∧ GuessRecord.score record = Num.NaN.
Proof.
  intros Hlobby Hpid Hround Hplayer Hfresh Hspeed Htpr -> Hcorrect.
  pose proof (submitGuess_returns gm (RoundState.startedAt round) socketId guess lobby
                playerId round player Hlobby Hpid Hround Hplayer Hfresh) as Hret.
  cbv zeta in Hret. rewrite Hcorrect, Hspeed, Htpr in Hret.
  unfold elapsedSeconds in Hret. rewrite Z.sub_diag in Hret.
  replace (timeBonus true (Num.fdiv (Num.ofZ 0) (Num.ofZ 1000)) 0) with Num.NaN in Hret
    by (vm_compute; reflexivity).
  replace (Num.add (Num.Int 1000) Num.NaN) with Num.NaN in Hret
    by (vm_compute; reflexivity).
  rewrite add_NaN_l, add_NaN_r in Hret.
  eexists _, _, _, _, _, _. split; [exact Hret|].
  cbn [gr_correct gr_score]. split; [reflexivity|]. split; [reflexivity|].
  split; [by eapply getLobbyBySocket_store|].
  cbn [Lobby.players Lobby.currentRound Lobby.setCurrentRound Lobby.setPlayers
       RoundState.guesses RoundState.setGuesses].
  split.
  { rewrite get_modify, bool_decide_eq_true_2 by done. rewrite Hplayer. reflexivity. }
  do 5 (split; [reflexivity|]).
  split; [apply get_set_eq | reflexivity].
Qed.
End NotANumber.

(** The host of a game with [timePerRound = 0] names the song of the first
    round at the time the round started. *)
Lemma submitGuess_not_a_number_witness :
  ∃ r gm' lobby' host,
    submitGuess (H := asciiBuiltins) noTimeRound 1000 (js "sock-h") (js "yesterday")
    = Returned (Some r) gm'
    ∧ gr_score r = Num.NaN
    ∧ getLobbyBySocket gm' (js "sock-h") = Some lobby'
    ∧ Obj.get (js "host00000001") (Lobby.players lobby') = Some host
    ∧ Player.score host = Num.NaN.
Proof.
  destruct (getLobbyBySocket noTimeRound (js "sock-h")) as [lobby|] eqn:Hlobby;
    [|vm_compute in Hlobby; discriminate Hlobby].
  destruct (Lobby.currentRound lobby) as [round|] eqn:Hround;
    [|vm_compute in Hlobby; injection Hlobby as <-; discriminate Hround].
  destruct (Obj.get (js "host00000001") (Lobby.players lobby)) as [player|] eqn:Hplayer;
    [|vm_compute in Hlobby; injection Hlobby as <-; vm_compute in Hplayer;
      discriminate Hplayer].
  pose proof Hlobby as Hl0. vm_compute in Hl0. injection Hl0 as Hl0.
  pose proof Hround as Hr0. rewrite <- Hl0 in Hr0. vm_compute in Hr0.
  injection Hr0 as Hr0.
  pose proof Hplayer as Hp0. rewrite <- Hl0 in Hp0. vm_compute in Hp0.
  injection Hp0 as Hp0.
  destruct (submitGuess_not_a_number (H := asciiBuiltins) noTimeRound 1000 (js "sock-h")
              (js "yesterday") lobby (js "host00000001") round player)
    as (r & gm' & lobby' & round' & player' & record & Hret & _ & Hscore & Hlobby'
        & Hplayer' & Hstored & _).
  - exact Hlobby.
  - vm_compute. reflexivity.
  - exact Hround.
  - exact Hplayer.
  - rewrite <- Hp0. reflexivity.
  - rewrite <- Hl0. reflexivity.
  - rewrite <- Hl0. reflexivity.
  - rewrite <- Hr0. reflexivity.
  - rewrite <- Hr0. vm_compute. reflexivity.
  - exists r, gm', lobby', player'.
    split; [exact Hret|]. split; [exact Hscore|]. split; [exact Hlobby'|].
    split; [exact Hplayer' | exact Hstored].
Defined.

(** ** getGameResults *)

Lemma insertSorted_perm (comparefn : Player.t → Player.t → Num.t) (p : Player.t)
  (l : list Player.t) :
  Permutation (insertSorted comparefn p l) (p :: l).
Proof.
  induction l as [|q l IH]; cbn [insertSorted]; [done|].
  destruct (Num.positive _); [|done].
  rewrite IH. apply perm_swap.
Qed.

Lemma stableSort_perm (comparefn : Player.t → Player.t → Num.t) (ps : list Player.t) :
  Permutation (stableSort comparefn ps) ps.
Proof.
  induction ps as [|p ps IH]; cbn [stableSort foldr]; [done|].
  fold (stableSort comparefn ps). rewrite insertSorted_perm. by constructor.
Qed.

(** The comparator on two scores that are integers. *)
Lemma byScore_Int (p q : Player.t) (x y : Z) :
  Player.score p = Num.Int x → Player.score q = Num.Int y →
  Num.positive (byScore p q) = (x <? y)%Z ∧ Num.negative (byScore p q) = (y <? x)%Z.
Proof.
  intros Hp Hq. unfold byScore. rewrite Hp, Hq. cbn [Num.sub Num.positive Num.negative].
  split; [destruct (Z.ltb_spec 0 (y - x)), (Z.ltb_spec x y)
         | destruct (Z.ltb_spec (y - x) 0), (Z.ltb_spec y x)]; (done || lia).
Qed.

(** Scores that are integers are compared consistently. *)
Lemma byScore_consistent (ps : list Player.t) :
  (∀ p, In p ps → ∃ z, Player.score p = Num.Int z) → consistentOn byScore ps.
Proof.
  intros Hint.
  exists (fun p => match Player.score p with Num.Int z => (- z)%Z | _ => 0%Z end).
  intros a b [x Ha]%Hint [y Hb]%Hint.
  destruct (byScore_Int a b x y Ha Hb) as [-> ->]. rewrite Ha, Hb.
  split; (split; [intros ?%Z.ltb_lt | intros ?; apply Z.ltb_lt]); lia.
Qed.

Lemma insertSorted_sorted (p : Player.t) (l : list Player.t) :
  (∀ a, In a (p :: l) → ∃ z, Player.score a = Num.Int z) →
  StronglySorted (fun a b => Num.le (Player.score b) (Player.score a)) l →
  StronglySorted (fun a b => Num.le (Player.score b) (Player.score a))
    (insertSorted byScore p l).
Proof.
  induction l as [|q l IH]; cbn [insertSorted]; intros Hint Hsorted.
  - repeat constructor.
  - apply StronglySorted_inv in Hsorted as [Hl Hq].
    destruct (Hint p ltac:(by left)) as [x Hx].
    destruct (Hint q ltac:(by right; left)) as [y Hy].
    rewrite (proj1 (byScore_Int p q x y Hx Hy)).
    destruct (Z.ltb_spec x y) as [Hlt|Hge].
    + constructor.
      { apply IH; [|exact Hl]. intros a [<-|Hin]; apply Hint; [by left|by right; right]. }
      apply List.Forall_forall. intros a Ha.
      apply (Permutation_in _ (insertSorted_perm byScore p l)) in Ha as [<- | Ha].
      * rewrite Hx, Hy. cbn [Num.le]. lia.
      * by apply (proj1 (List.Forall_forall _ _) Hq).
    + constructor; [by constructor|].
      constructor; [rewrite Hx, Hy; cbn [Num.le]; lia|].
      apply List.Forall_forall. intros a Ha.
      pose proof (proj1 (List.Forall_forall _ _) Hq a Ha) as Haq.
      destruct (Hint a ltac:(by right; right)) as [w Hw].
      cbn beta in Haq. rewrite Hw, Hy in Haq. rewrite Hw, Hx. cbn [Num.le] in *. lia.
Qed.

Lemma stableSort_sorted (ps : list Player.t) :
  (∀ a, In a ps → ∃ z, Player.score a = Num.Int z) →
  StronglySorted (fun a b => Num.le (Player.score b) (Player.score a))
    (stableSort byScore ps).
Proof.
  induction ps as [|p ps IH]; cbn [stableSort foldr]; intros Hint; [constructor|].
  fold (stableSort byScore ps). apply insertSorted_sorted.
  - intros a [<-|Ha]; [apply Hint; by left|].
    apply Hint. right. by apply (Permutation_in _ (stableSort_perm byScore ps)).
  - apply IH. intros a Ha. apply Hint. by right.
Qed.

Lemma insertSorted_filter (s : Num.t) (p : Player.t) (l : list Player.t) :
  List.filter (fun q => bool_decide (Player.score q = s)) (insertSorted byScore p l)
  = List.filter (fun q => bool_decide (Player.score q = s)) (p :: l).
Proof.
  induction l as [|q l IH]; cbn [insertSorted]; [done|].
  destruct (Num.positive _) eqn:Hpos; [|done].
  cbn [List.filter] in *. rewrite IH.
  case_bool_decide as Hq; case_bool_decide as Hp; try done.
  unfold byScore in Hpos. rewrite Hq, Hp, sub_diag_positive in Hpos. done.
Qed.

Lemma stableSort_filter (s : Num.t) (ps : list Player.t) :
  List.filter (fun q => bool_decide (Player.score q = s)) (stableSort byScore ps)
  = List.filter (fun q => bool_decide (Player.score q = s)) ps.
Proof.
  induction ps as [|p ps IH]; cbn [stableSort foldr]; [done|].
  fold (stableSort byScore ps). rewrite insertSorted_filter.
  cbn [List.filter]. by rewrite IH.
Qed.

Lemma stableSort_head (ps : list Player.t) (m : Player.t) :
  (∀ a, In a ps → ∃ z, Player.score a = Num.Int z) →
  head (stableSort byScore ps) = Some m →
  ∃ before after,
    ps = before ++ m :: after
    ∧ (∀ p, In p before → Num.lt (Player.score p) (Player.score m))
    ∧ (∀ p, In p after → Num.le (Player.score p) (Player.score m)).
Proof.
  revert m. induction ps as [|q ps IH]; cbn [stableSort foldr]; [done|].
  fold (stableSort byScore ps). intros m Hint.
  assert (∀ a, In a ps → ∃ z, Player.score a = Num.Int z) as Hint'
    by (intros a Ha; apply Hint; by right).
  destruct (stableSort byScore ps) as [|m' rest] eqn:Hsorted; cbn [insertSorted].
  - intros [= <-]. exists [], ps. split; [done|].
    pose proof (Permutation_length (stableSort_perm byScore ps)) as Hlen.
    rewrite Hsorted in Hlen. destruct ps; [|discriminate Hlen]. by split.
  - destruct (IH m' Hint' eq_refl) as (before & after & -> & Hbefore & Hafter).
    destruct (Hint q ltac:(by left)) as [x Hx].
    destruct (Hint m' ltac:(right; apply in_or_app; right; by left)) as [y Hy].
    rewrite (proj1 (byScore_Int q m' x y Hx Hy)).
    destruct (Z.ltb_spec x y) as [Hlt|Hge]; intros [= <-].
    + exists (q :: before), after. split; [done|]. split; [|done].
      intros p [<- | Hin]; [|by apply Hbefore].
      rewrite Hx, Hy. exact Hlt.
    + exists [], (before ++ m' :: after). split; [done|]. split; [done|].
      intros p Hp. destruct (Hint' p Hp) as [w Hw].
      apply in_app_or in Hp as [Hin | [<- | Hin]].
      * specialize (Hbefore p Hin). rewrite Hw, Hy in Hbefore. rewrite Hw, Hx.
        cbn [Num.lt Num.le] in *. lia.
      * rewrite Hy, Hx. cbn [Num.le]. lia.
      * specialize (Hafter p Hin). rewrite Hw, Hy in Hafter. rewrite Hw, Hx.
        cbn [Num.le] in *. lia.
Qed.

Section GameResults.
Context `{ArraySort}.

(** X16.  [getGameResults] gives null for an unknown code.  For a lobby it
    lists the players of the lobby, each once, and the most valuable player
    is the first of the list; there is none when the lobby has no player.
    When the scores of the players are integers the list is by descending
    score, players of equal score in the order they have in the lobby, and
    the most valuable player is the first of the lobby's players with the
    highest score.  (A score that is [NaN] makes the comparator
    inconsistent, and the order is then the engine's.) *)
Theorem getGameResults_spec (gm : GameManager) (lobbyCode : jsstring) :
  (lobbies gm !! lobbyCode = None → getGameResults gm lobbyCode = None)
  ∧ (∀ lobby,
       lobbies gm !! lobbyCode = Some lobby →
       let players := Obj.values (Lobby.players lobby) in
       ∃ res,
         getGameResults gm lobbyCode = Some res
         ∧ Permutation (res_players res) players
         ∧ res_mvp res = head (res_players res)
         ∧ (players = [] ↔ res_mvp res = None)
         ∧ ((∀ p, In p players → ∃ z, Player.score p = Num.Int z) →
            StronglySorted (fun a b => Num.le (Player.score b) (Player.score a))
              (res_players res)
            ∧ (∀ s, List.filter (fun p => bool_decide (Player.score p = s))
                      (res_players res)
                    = List.filter (fun p => bool_decide (Player.score p = s)) players)
            ∧ (∀ m, res_mvp res = Some m →
                    ∃ before after,
                      players = before ++ m :: after
                      ∧ (∀ p, In p before →
                              Num.lt (Player.score p) (Player.score m))
                      ∧ (∀ p, In p after →
                              Num.le (Player.score p) (Player.score m))))).
Proof.
  unfold getGameResults. split; [by intros ->|].
  intros lobby ->. cbv zeta.
  set (players := Obj.values (Lobby.players lobby)).
  eexists. split; [reflexivity|].
  cbn [res_players res_mvp].
  split; [apply sort_permutation|]. split; [reflexivity|]. split.
  - pose proof (Permutation_length (sort_permutation byScore players)) as Hlen.
    split.
    + intros Hnil. rewrite Hnil in *. by destruct (sort byScore []).
    + intros Hnone. destruct (sort byScore players); [|discriminate Hnone].
      by destruct players.
  - intros Hint.
    rewrite (sort_consistent byScore players (byScore_consistent players Hint)).
    split; [by apply stableSort_sorted|].
    split; [intros s; apply stableSort_filter|].
    intros m. by apply stableSort_head.
Qed.
End GameResults.

Lemma getGameResults_spec_witness :
  ∃ res,
    getGameResults (H := insertionSort) threeScores (js "ABCDE") = Some res
    ∧ map Player.id (res_players res) = [js "p2"; js "p3"; js "p1"]
    ∧ Player.id <$> res_mvp res = Some (js "p2").
Proof.
  destruct (lobbies threeScores !! js "ABCDE") as [lobby|] eqn:Hlobby;
    [|vm_compute in Hlobby; discriminate Hlobby].
  destruct (proj2 (getGameResults_spec (H := insertionSort) threeScores (js "ABCDE"))
              lobby Hlobby)
    as (res & Hres & _ & _ & _ & Hsorted).
  assert (StronglySorted (fun a b => Num.le (Player.score b) (Player.score a))
            (res_players res)) as _.
  { apply Hsorted. vm_compute in Hlobby. injection Hlobby as <-.
    intros p [<-|[<-|[<-|[]]]]; eexists; reflexivity. }
  exists res. split; [exact Hres|].
  vm_compute in Hres. injection Hres as <-. split; reflexivity.
Defined.

(** ** levenshteinDistance as a distance *)

Lemma edits_refl (a : jsstring) : edits a a 0.
Proof. induction a; by constructor. Qed.

Lemma edits_zero (a b : jsstring) : edits a b 0 → a = b.
Proof.
  remember 0 as n eqn:Hn. induction 1; try discriminate Hn; [done|].
  f_equal. auto.
Qed.

Lemma edits_sym (a b : jsstring) (n : nat) : edits a b n → edits b a n.
Proof. induction 1; by constructor. Qed.

Lemma edits_lengths (a b : jsstring) (n : nat) :
  edits a b n → length a ≤ length b + n ∧ length b ≤ length a + n.
Proof. induction 1; cbn [length]; lia. Qed.

Lemma edits_all (a b : jsstring) :
  ∃ n, n ≤ Nat.max (length a) (length b) ∧ edits a b n.
Proof.
  revert b. induction a as [|x a IH]; intros b.
  - exists (length b). split; [cbn; lia|].
    induction b; cbn [length]; by constructor.
  - destruct b as [|y b].
    + exists (length (x :: a)). split; [cbn; lia|].
      clear. generalize (x :: a). intros l. induction l; cbn [length]; by constructor.
    + destruct (IH b) as (n & Hn & He). exists (S n).
      split; [cbn [length]; lia | by constructor].
Qed.

Lemma edits_trans (a b : jsstring) (n : nat) :
  edits a b n → ∀ c m, edits b c m → ∃ k, k ≤ n + m ∧ edits a c k.
Proof.
  induction 1 as [|x a b n _ IH|x y a b n _ IH|x a b n _ IH|y a b n _ IH];
    intros c m H2.
  - exists m. split; [lia | exact H2].
  - remember (x :: b) as b' eqn:Hb'.
    induction H2 as [|z b0 c0 m0 H2 _|z w b0 c0 m0 H2 _|z b0 c0 m0 H2 _|w b0 c0 m0 H2 IH2].
    + discriminate Hb'.
    + injection Hb' as -> ->. destruct (IH _ _ H2) as (k & Hk & He).
      exists k. split; [lia | by constructor].
    + injection Hb' as -> ->. destruct (IH _ _ H2) as (k & Hk & He).
      exists (S k). split; [lia | by constructor].
    + injection Hb' as -> ->. destruct (IH _ _ H2) as (k & Hk & He).
      exists (S k). split; [lia | by constructor].
    + destruct (IH2 Hb') as (k & Hk & He).
      exists (S k). split; [lia | by constructor].
  - remember (y :: b) as b' eqn:Hb'.
    induction H2 as [|z b0 c0 m0 H2 _|z w b0 c0 m0 H2 _|z b0 c0 m0 H2 _|w b0 c0 m0 H2 IH2].
    + discriminate Hb'.
    + injection Hb' as -> ->. destruct (IH _ _ H2) as (k & Hk & He).
      exists (S k). split; [lia | by constructor].
    + injection Hb' as -> ->. destruct (IH _ _ H2) as (k & Hk & He).
      exists (S k). split; [lia | by constructor].
    + injection Hb' as -> ->. destruct (IH _ _ H2) as (k & Hk & He).
      exists (S k). split; [lia | by constructor].
    + destruct (IH2 Hb') as (k & Hk & He).
      exists (S k). split; [lia | by constructor].
  - destruct (IH _ _ H2) as (k & Hk & He).
    exists (S k). split; [lia | by constructor].
  - remember (y :: b) as b' eqn:Hb'.
    induction H2 as [|z b0 c0 m0 H2 _|z w b0 c0 m0 H2 _|z b0 c0 m0 H2 _|w b0 c0 m0 H2 IH2].
    + discriminate Hb'.
    + injection Hb' as -> ->. destruct (IH _ _ H2) as (k & Hk & He).
      exists (S k). split; [lia | by constructor].
    + injection Hb' as -> ->. destruct (IH _ _ H2) as (k & Hk & He).
      exists (S k). split; [lia | by constructor].
    + injection Hb' as -> ->. destruct (IH _ _ H2) as (k & Hk & He).
      exists k. split; [lia | exact He].
    + destruct (IH2 Hb') as (k & Hk & He).
      exists (S k). split; [lia | by constructor].
Qed.

(** X17.  [levenshteinDistance] is a distance on strings: it is 0 exactly
    for equal strings, it is symmetric, it satisfies the triangle
    inequality, it is at least the difference of the lengths and at most the
    larger length. *)
Theorem levenshteinDistance_metric (a b c : jsstring) :
  (levenshteinDistance a b = 0 ↔ a = b)
  ∧ levenshteinDistance a b = levenshteinDistance b a
  ∧ levenshteinDistance a c ≤ levenshteinDistance a b + levenshteinDistance b c
  ∧ length a - length b ≤ levenshteinDistance a b
  ∧ length b - length a ≤ levenshteinDistance a b
  ∧ levenshteinDistance a b ≤ Nat.max (length a) (length b).
Proof.
  destruct (levenshteinDistance_least a b) as [Hab Hab_least].
  destruct (levenshteinDistance_least b a) as [Hba Hba_least].
  destruct (levenshteinDistance_least b c) as [Hbc _].
  destruct (levenshteinDistance_least a c) as [_ Hac_least].
  split; [|split; [|split; [|split; [|split]]]].
  - split.
    + intros Hzero. rewrite Hzero in Hab. by apply edits_zero.
    + intros <-. pose proof (Hab_least 0 (edits_refl a)). lia.
  - apply Nat.le_antisymm.
    + apply Hab_least. by apply edits_sym.
    + apply Hba_least. by apply edits_sym.
  - destruct (edits_trans _ _ _ Hab _ _ Hbc) as (k & Hk & He).
    specialize (Hac_least k He). lia.
  - pose proof (edits_lengths _ _ _ Hab). lia.
  - pose proof (edits_lengths _ _ _ Hab). lia.
  - destruct (edits_all a b) as (n & Hn & He). specialize (Hab_least n He). lia.
Qed.

(** ** Properties of every sequence of operations *)

Lemma forgetPlayers_agree (ps : list Player.t) (gm : GameManager) :
  indicesAgree gm → indicesAgree (fold_left forgetPlayer ps gm).
Proof.
  revert gm. induction ps as [|p ps IH]; intros gm Hgm; [done|].
  cbn [fold_left]. apply IH. intros s. cbn [forgetPlayer playerToLobby playerIds].
  rewrite !lookup_delete_None. specialize (Hgm s). tauto.
Qed.

Lemma cleanup_agree (gm : GameManager) (now : Z) :
  indicesAgree gm → indicesAgree (cleanup gm now).
Proof.
  intros Hgm. unfold cleanup.
  set (f := fun (code : jsstring) (lobby : Lobby.t) (acc : GameManager) => _).
  apply (map_fold_weak_ind (fun r (_ : gmap jsstring Lobby.t) => indicesAgree r) f gm);
    [exact Hgm|].
  intros i y m r _ IH. subst f. cbn beta.
  destruct (_ >? _)%Z; [|exact IH].
  pose proof (forgetPlayers_agree (Obj.values (Lobby.players y)) r IH) as Hagree.
  intros s. apply Hagree.
Qed.

Section Traces.
Context `{Builtins}.

Lemma step_indicesAgree (gm : GameManager) (op : Op) :
  indicesAgree gm → indicesAgree (step gm op).
Proof.
  intros Hgm. destruct op; cbn [step]; [..|by apply cleanup_agree];
    unfold createLobby, joinLobby, leaveLobby, updateSettings, addSong, addSongsBulk,
      removeSong, toggleReady, startGame, startRound, submitGuess, endRound,
      resetLobby, kickPlayer, storeLobbyOfSocket;
    repeat case_match; simplify_eq; cbn [snd stateOf]; try exact Hgm;
    intros s0; cbn [playerToLobby playerIds setLobbies];
    rewrite ?lookup_insert_None, ?lookup_delete_None;
    specialize (Hgm s0); tauto.
Qed.

(** X18.  Whatever the calls made on a new service, a socket has a lobby
    code in [playerToLobby] exactly when it has a player id in
    [playerIds]. *)
Theorem socket_indices_agree (ops : list Op) (s : jsstring) :
  is_Some (playerToLobby (run ops newGameManager) !! s)
  ↔ is_Some (playerIds (run ops newGameManager) !! s).
Proof.
  assert (indicesAgree (run ops newGameManager)) as Hagree.
  { assert (indicesAgree newGameManager) as Hnew by (by intros s0).
    unfold run. revert Hnew. generalize newGameManager.
    induction ops as [|op ops IH]; intros gm Hgm; [exact Hgm|].
    cbn [fold_left]. apply IH. by apply step_indicesAgree. }
  rewrite <- !not_eq_None_Some. specialize (Hagree s). tauto.
Qed.
End Traces.

Section Changes.
Context `{Builtins}.

Lemma change_store (gm : GameManager) (op : Op) (socketId c : jsstring)
  (lobby l' x : Lobby.t) :
  getLobbyBySocket gm socketId = Some lobby →
  lobbyChange gm op lobby l' →
  lobbies (storeLobbyOfSocket gm socketId l') !! c = Some x →
  lobbies gm !! c = Some x
  ∨ (∃ l, lobbies gm !! c = Some l ∧ lobbyChange gm op l x)
  ∨ newLobby gm op c x.
Proof.
  intros Hl Hchange Hx.
  destruct (lookup_store gm socketId lobby l' c x Hl Hx) as [[-> Hold] | Hold].
  - right. left. by exists lobby.
  - by left.
Qed.

Lemma change_insert (gm : GameManager) (op : Op) (code c : jsstring)
  (lobby l' x : Lobby.t) :
  lobbies gm !! code = Some lobby →
  lobbyChange gm op lobby l' →
  <[code := l']> (lobbies gm) !! c = Some x →
  lobbies gm !! c = Some x
  ∨ (∃ l, lobbies gm !! c = Some l ∧ lobbyChange gm op l x)
  ∨ newLobby gm op c x.
Proof.
  intros Hl Hchange [[<- <-] | [_ Hold]]%lookup_insert_Some.
  - right. left. by exists lobby.
  - by left.
Qed.

(** A lobby found after a call was there before and is unchanged, or is
    the changed form of the lobby that was there, or is new. *)
Lemma step_change (gm : GameManager) (op : Op) (c : jsstring) (l' : Lobby.t) :
  lobbies (step gm op) !! c = Some l' →
  lobbies gm !! c = Some l'
  ∨ (∃ l, lobbies gm !! c = Some l ∧ lobbyChange gm op l l')
  ∨ newLobby gm op c l'.
Proof.
  destruct op; cbn [step].
  - (* createLobby *)
    unfold createLobby.
    destruct (generateCode (lobbies gm) draws) as [[code rest]|] eqn:Hcode; [|by left].
    cbn [lobbies]. intros [[<- <-] | [_ Hold]]%lookup_insert_Some; [|by left].
    right. right. unfold newLobby. do 7 eexists.
    exists (Player.mk playerId socketId playerName avatar (Num.Int 0) 0 true true
              false false (Num.Int 0)).
    split; [reflexivity|]. split; [exact Hcode|]. by repeat split.
  - (* joinLobby *)
    unfold joinLobby.
    destruct (lobbies gm !! toUpperCase code) as [lobby|] eqn:Hl; [|by left].
    case_bool_decide as Hstate; [by left|].
    destruct (_ >=? _)%Z; [by left|].
    cbn [stateOf lobbies]. eapply change_insert; [exact Hl|].
    apply change_join; try done; by destruct (decide (Lobby.state lobby = waiting)).
  - (* leaveLobby *)
    unfold leaveLobby.
    destruct (playerToLobby gm !! socketId) as [code|]; [|by left].
    destruct (playerIds gm !! socketId) as [playerId|]; [|by left].
    destruct (negb (truthy code) || negb (truthy playerId)); [by left|].
    destruct (lobbies gm !! code) as [lobby|] eqn:Hl; [|by left].
    destruct (Obj.keys _) as [|newHostId ks] eqn:Hkeys; cbn [snd lobbies].
    + intros [_ Hold]%lookup_delete_Some. by left.
    + eapply change_insert; [exact Hl|].
      destruct (Obj.get playerId (Lobby.players lobby)) as [p|] eqn:Hp.
      * destruct (Player.isHost p) eqn:Hhost.
        -- exact (change_leave_host gm socketId playerId lobby p newHostId ks Hkeys Hp Hhost).
        -- apply (change_leave gm socketId playerId lobby newHostId ks Hkeys).
           intros p0 Hp0. rewrite Hp in Hp0. by injection Hp0 as <-.
      * apply (change_leave gm socketId playerId lobby newHostId ks Hkeys).
        intros p0 Hp0. by rewrite Hp in Hp0.
  - (* updateSettings *)
    unfold updateSettings.
    destruct (getLobbyBySocket gm socketId) as [lobby|] eqn:Hl; [|by left].
    destruct (getPlayerIdBySocket gm socketId) as [playerId|]; [|by left].
    case_bool_decide; [by left|]. cbn [snd].
    eapply change_store; [exact Hl|]. by constructor.
  - (* addSong *)
    unfold addSong.
    destruct (getLobbyBySocket gm socketId) as [lobby|] eqn:Hl; [|by left].
    destruct (getPlayerIdBySocket gm socketId) as [playerId|]; [|by left].
    case_bool_decide; [by left|]. cbn [snd].
    eapply change_store; [exact Hl|]. constructor.
  - (* addSongsBulk *)
    unfold addSongsBulk.
    destruct (getLobbyBySocket gm socketId) as [lobby|] eqn:Hl; [|by left].
    destruct (getPlayerIdBySocket gm socketId) as [playerId|]; [|by left].
    case_bool_decide; [by left|]. cbn [snd].
    eapply change_store; [exact Hl|]. constructor.
  - (* removeSong *)
    unfold removeSong.
    destruct (getLobbyBySocket gm socketId) as [lobby|] eqn:Hl; [|by left].
    destruct (getPlayerIdBySocket gm socketId) as [playerId|]; [|by left].
    case_bool_decide; [by left|]. cbn [snd].
    eapply change_store; [exact Hl|]. constructor.
  - (* toggleReady *)
    unfold toggleReady.
    destruct (getLobbyBySocket gm socketId) as [lobby|] eqn:Hl; [|by left].
    destruct (getPlayerIdBySocket gm socketId) as [playerId|]; [|by left].
    destruct (Obj.get playerId (Lobby.players lobby)) as [p|] eqn:Hp; [|by left].
    cbn [stateOf]. eapply change_store; [exact Hl|]. by constructor.
  - (* startGame *)
    unfold startGame.
    destruct (getLobbyBySocket gm socketId) as [lobby|] eqn:Hl; [|by left].
    destruct (getPlayerIdBySocket gm socketId) as [playerId|]; [|by left].
    case_bool_decide; [by left|].
    destruct (can (canStartGame lobby)) eqn:Hcan; [|by left]. cbn [negb snd].
    eapply change_store; [exact Hl|]. exact (change_startGame gm socketId lobby Hcan).
  - (* startRound *)
    unfold startRound.
    destruct (lobbies gm !! lobbyCode) as [lobby|] eqn:Hl; [|by left].
    case_bool_decide as Hstate; [by left|].
    destruct (_ >? _)%Z eqn:Hrounds; [by left|].
    destruct (availableSongs lobby) as [|first rest] eqn:Havail; [by left|].
    cbn [snd lobbies setLobbies]. eapply change_insert; [exact Hl|].
    apply change_startRound; cbn [RoundState.roundNumber RoundState.song
      RoundState.startedAt RoundState.phase RoundState.guesses]; try done;
      [ rewrite Z.gtb_ltb in Hrounds; by apply Z.ltb_ge in Hrounds
      | rewrite Havail; apply nth_In, Nat.mod_upper_bound; done ].
  - (* submitGuess *)
    unfold submitGuess.
    destruct (getLobbyBySocket gm socketId) as [lobby|] eqn:Hl; [|by left].
    destruct (getPlayerIdBySocket gm socketId) as [playerId|]; [|by left].
    destruct (Lobby.currentRound lobby) as [round|] eqn:Hround; [|by left].
    destruct (Obj.get playerId (Lobby.players lobby)) as [player|] eqn:Hp; [|by left].
    destruct (Player.hasGuessed player) eqn:Hguessed; [by left|].
    destruct (checkGuess guess (RoundState.song round)).
    + cbn [stateOf]. eapply change_store; [exact Hl|].
      exact (change_guess_correct gm now socketId guess lobby playerId round player
               (GuessRecord.mk guess true _ _) Hround Hp Hguessed eq_refl eq_refl).
    + cbn [stateOf]. eapply change_store; [exact Hl|].
      exact (change_guess_wrong gm now socketId guess lobby playerId round player
               (GuessRecord.mk guess false _ (Num.Int 0)) Hround Hp Hguessed
               eq_refl eq_refl).
  - (* endRound *)
    unfold endRound.
    destruct (lobbies gm !! lobbyCode) as [lobby|] eqn:Hl; [|by left].
    destruct (Lobby.currentRound lobby) as [round|] eqn:Hround; [|by left].
    cbn [snd lobbies setLobbies]. eapply change_insert; [exact Hl|].
    exact (change_endRound gm lobbyCode lobby round Hround).
  - (* resetLobby *)
    unfold resetLobby.
    destruct (lobbies gm !! lobbyCode) as [lobby|] eqn:Hl; [|by left].
    cbn [snd lobbies setLobbies]. eapply change_insert; [exact Hl|]. constructor.
  - (* kickPlayer *)
    unfold kickPlayer.
    destruct (getLobbyBySocket gm socketId) as [lobby|] eqn:Hl; [|by left].
    destruct (getPlayerIdBySocket gm socketId) as [playerId|]; [|by left].
    case_bool_decide; [by left|].
    destruct (Obj.get targetPlayerId (Lobby.players lobby)) as [target|] eqn:Htarget;
      [|destruct (Obj.inherited _); by left].
    destruct (Player.isHost target) eqn:Hhost; [by left|].
    cbn [snd lobbies]. eapply change_store; [exact Hl|]. by eapply change_kickPlayer.
  - (* cleanup *)
    intros Hx. left. by eapply cleanup_lookup.
Qed.
End Changes.

Section ObjAll.
Context {A : Type}.
Implicit Types (o : Obj.t A) (k : jsstring).
Variable Q : jsstring → A → Prop.

Lemma get_forEach k (f : A → A) o : Obj.get k (Obj.forEach f o) = f <$> Obj.get k o.
Proof.
  induction o as [|[k0 v] o IH]; cbn [Obj.forEach Obj.get map fst snd]; [done|].
  case_bool_decide; [done | exact IH].
Qed.

Lemma get_Some_keys k o : In k (Obj.keys o) → ∃ v, Obj.get k o = Some v.
Proof.
  intros Hin. destruct (Obj.get k o) eqn:Hg; [by eexists|].
  by apply get_None_keys in Hg.
Qed.

Lemma keys_set_NoDup k v o : NoDup (Obj.keys o) → NoDup (Obj.keys (Obj.set k v o)).
Proof.
  intros Hnd. destruct (Obj.get k o) eqn:Hg.
  - unfold Obj.set, Obj.has. rewrite Hg.
    replace (Obj.keys (map _ o)) with (Obj.keys o); [done|].
    unfold Obj.keys. rewrite map_map. apply map_ext. intros [k0 v0]. cbn [fst].
    case_bool_decide as Hk; [by rewrite Hk | done].
  - rewrite keys_set_absent by done. apply NoDup_app. split; [done|].
    split; [|apply NoDup_singleton].
    intros x Hx ->%list_elem_of_singleton. apply get_None_keys in Hg.
    by apply Hg, list_elem_of_In.
Qed.

Lemma all_set k v o :
  (∀ k' v', Obj.get k' o = Some v' → Q k' v') → Q k v →
  ∀ k' v', Obj.get k' (Obj.set k v o) = Some v' → Q k' v'.
Proof.
  intros Ho Hv k' v'. destruct (decide (k = k')) as [<- | Hne].
  - rewrite get_set_eq. by intros [= <-].
  - rewrite get_set_ne by done. apply Ho.
Qed.

Lemma all_delete k o :
  (∀ k' v', Obj.get k' o = Some v' → Q k' v') →
  ∀ k' v', Obj.get k' (Obj.delete k o) = Some v' → Q k' v'.
Proof.
  intros Ho k' v'. destruct (decide (k = k')) as [<- | Hne].
  - by rewrite get_delete_eq.
  - rewrite get_delete_ne by done. apply Ho.
Qed.

Lemma all_modify k (f : A → A) o :
  (∀ k' v', k' ≠ k → Obj.get k' o = Some v' → Q k' v') →
  (∀ v, Obj.get k o = Some v → Q k (f v)) →
  ∀ k' v', Obj.get k' (Obj.modify k f o) = Some v' → Q k' v'.
Proof.
  intros Ho Hf k' v'. rewrite get_modify. case_bool_decide as Hk.
  - subst k'. destruct (Obj.get k o) eqn:Hg; cbn; [|done].
    intros [= <-]. by apply Hf.
  - apply Ho. by intros ->.
Qed.

Lemma all_forEach (f : A → A) o :
  (∀ k' v', Obj.get k' o = Some v' → Q k' v') →
  (∀ k v, Q k v → Q k (f v)) →
  ∀ k' v', Obj.get k' (Obj.forEach f o) = Some v' → Q k' v'.
Proof.
  intros Ho Hf k' v'. rewrite get_forEach.
  destruct (Obj.get k' o) eqn:Hg; cbn; [|done].
  intros [= <-]. by apply Hf, Ho.
Qed.
End ObjAll.

Ltac player_fields :=
  cbn [Player.id Player.socketId Player.name Player.avatar Player.score Player.streak
       Player.isHost Player.isReady Player.hasGuessed Player.lastGuessCorrect
       Player.roundScore Player.setScore Player.setStreak Player.setIsHost
       Player.setIsReady Player.setHasGuessed Player.setLastGuessCorrect
       Player.setRoundScore] in *.

Ltac lobby_fields :=
  cbv zeta;
  cbn [Lobby.code Lobby.hostId Lobby.state Lobby.players Lobby.settings Lobby.songs
       Lobby.currentRound Lobby.roundHistory Lobby.createdAt
       Lobby.setHostId Lobby.setState Lobby.setPlayers Lobby.setSettings
       Lobby.setSongs Lobby.setCurrentRound Lobby.setRoundHistory] in *.

Section Invariants.
Context `{Builtins}.

Lemma change_playersWellFormed (gm : GameManager) (op : Op) (l l' : Lobby.t) :
  lobbyChange gm op l l' → playersWellFormed l → playersWellFormed l'.
Proof.
  intros Hchange [Hnd Hall].
  destruct Hchange; unfold playersWellFormed; try destruct (_ >=? _)%Z; lobby_fields;
    (split;
     [ rewrite ?keys_modify, ?keys_forEach;
       auto using keys_set_NoDup, keys_delete_NoDup
     | ]); try exact Hall;
    pose (Q := fun (k : jsstring) (p : Player.t) =>
                 Player.id p = k ∧ Num.notNegative (Player.score p)
                 ∧ (0 ≤ Player.streak p)%Z).
  - (* joinLobby *)
    apply (all_set Q); [exact Hall|]. unfold Q. repeat split; [done | | lia].
    match goal with Hs : Player.score _ = Num.Int 0 |- _ => rewrite Hs end.
    cbn [Num.notNegative]. lia.
  - (* leaveLobby *)
    apply (all_delete Q), Hall.
  - apply (all_modify Q); [intros k0 v0 _; apply (all_delete Q), Hall|].
    intros v Hv. apply (all_delete Q _ _ Hall) in Hv. exact Hv.
  - (* toggleReady *)
    apply (all_modify Q); [intros k0 v0 _; apply Hall|]. intros v Hv. apply Hall in Hv. exact Hv.
  - (* startGame *)
    apply (all_forEach Q); [exact Hall|]. intros k v (Hid & _ & _). by repeat split.
  - (* startRound *)
    apply (all_forEach Q); [exact Hall|]. intros k v Hv. exact Hv.
  - (* submitGuess *)
    apply (all_modify Q); [intros k0 v0 _; apply Hall|]. intros _ _.
    match goal with Hp : Obj.get _ _ = Some player |- _ =>
      destruct (Hall _ _ Hp) as (Hid & Hscore & Hstreak) end.
    unfold Q. player_fields. split; [exact Hid|]. split; [|lia].
    apply add_notNegative; [exact Hscore|].
    match goal with Hr : GuessRecord.score _ = _ |- _ => rewrite Hr end.
    apply add_notNegative.
    + apply add_notNegative; [cbn [Num.notNegative]; lia | apply timeBonus_notNegative].
    + apply mul_notNegative; cbn [Num.notNegative]; lia.
  - apply (all_modify Q); [intros k0 v0 _; apply Hall|]. intros _ _.
    match goal with Hp : Obj.get _ _ = Some player |- _ =>
      destruct (Hall _ _ Hp) as (Hid & Hscore & Hstreak) end.
    unfold Q. player_fields. split; [exact Hid|]. split; [exact Hscore | lia].
  - (* resetLobby *)
    apply (all_forEach Q); [exact Hall|]. intros k v (Hid & _ & _). by repeat split.
  - (* kickPlayer *)
    apply (all_delete Q), Hall.
Qed.

Lemma change_roundsWellFormed (gm : GameManager) (op : Op) (l l' : Lobby.t) :
  lobbyChange gm op l l' → roundsWellFormed l → roundsWellFormed l'.
Proof.
  intros Hchange (Hhist & Hnd & Hcur).
  destruct Hchange; unfold roundsWellFormed, usedSongIds in *;
    try destruct (_ >=? _)%Z; lobby_fields;
    try (split; [exact Hhist | split; [exact Hnd | exact Hcur]]).
  - (* startGame *)
    split; [|split]; [| constructor | done].
    intros i r Hi. by rewrite lookup_nil in Hi.
  - (* startRound *)
    split; [exact Hhist|]. split; [exact Hnd|]. intros r [= <-].
    split; [done|]. split; [done|].
    match goal with Hin : In _ (availableSongs _) |- _ =>
      apply availableSongs_In in Hin as [_ Hunused] end.
    exact Hunused.
  - (* submitGuess *)
    split; [exact Hhist|]. split; [exact Hnd|]. intros r [= <-]. exact (Hcur round ltac:(assumption)).
  - split; [exact Hhist|]. split; [exact Hnd|]. intros r [= <-]. exact (Hcur round ltac:(assumption)).
  - (* endRound, the last round *)
    destruct (Hcur round) as (Hnumber & _ & Hunused); [done|].
    split; [|split]; [| | done].
    + intros i r [Hi | [Hlen Hi]]%lookup_app_Some; [by apply Hhist|].
      apply list_lookup_singleton_Some in Hi as [Hi <-].
      cbn [RoundState.roundNumber RoundState.phase RoundState.setPhase].
      split; [lia | done].
    + rewrite map_app. apply NoDup_app. split; [done|].
      split; [|apply NoDup_singleton].
      by intros x Hx ->%list_elem_of_singleton.
  - (* endRound, another round follows *)
    destruct (Hcur round) as (Hnumber & _ & Hunused); [done|].
    split; [|split]; [| | done].
    + intros i r [Hi | [Hlen Hi]]%lookup_app_Some; [by apply Hhist|].
      apply list_lookup_singleton_Some in Hi as [Hi <-].
      cbn [RoundState.roundNumber RoundState.phase RoundState.setPhase].
      split; [lia | done].
    + rewrite map_app. apply NoDup_app. split; [done|].
      split; [|apply NoDup_singleton].
      by intros x Hx ->%list_elem_of_singleton.
  - (* resetLobby *)
    split; [|split]; [| constructor | done].
    intros i r Hi. by rewrite lookup_nil in Hi.
Qed.

Lemma change_hostInvariant (gm : GameManager) (op : Op) (l l' : Lobby.t) :
  lobbyChange gm op l l' → freshPlayerId gm op → hostInvariant l → hostInvariant l'.
Proof.
  intros Hchange Hfresh [[h Hh] Hall].
  destruct Hchange; unfold hostInvariant; try destruct (_ >=? _)%Z; lobby_fields;
    try (split; [by exists h | exact Hall]);
    pose (Q := fun (k : jsstring) (p : Player.t) =>
                 Player.isHost p = true ↔ k = Lobby.hostId l).
  - (* joinLobby *)
    cbn [freshPlayerId] in Hfresh.
    match goal with Hl : lobbies gm !! _ = Some l |- _ =>
      pose proof (Hfresh l Hl) as Hnew end.
    assert (playerId ≠ Lobby.hostId l) as Hne by (intros ->; congruence).
    split; [exists h; by rewrite get_set_ne|].
    apply (all_set Q); [exact Hall|]. unfold Q. split; [congruence | done].
  - (* leaveLobby, not the host *)
    assert (playerId ≠ Lobby.hostId l) as Hne.
    { intros ->. pose proof (proj2 (Hall _ _ Hh) eq_refl) as Hhost.
      match goal with Hnot : ∀ p, Obj.get _ _ = Some p → Player.isHost p = false |- _ =>
        pose proof (Hnot h Hh) end.
      congruence. }
    split; [exists h; by rewrite get_delete_ne|]. apply (all_delete Q), Hall.
  - (* leaveLobby, the host *)
    match goal with Hp : Obj.get playerId _ = Some p, Hhost : Player.isHost p = true |- _ =>
      pose proof (proj1 (Hall _ _ Hp) Hhost) as Hid end.
    destruct (get_Some_keys newHostId (Obj.delete playerId (Lobby.players l)))
      as [q Hq].
    { match goal with Hkeys : Obj.keys _ = newHostId :: _ |- _ => rewrite Hkeys end.
      by left. }
    split.
    + exists (Player.setIsHost true q).
      by rewrite get_modify, bool_decide_eq_true_2, Hq.
    + apply (all_modify (fun k p => Player.isHost p = true ↔ k = newHostId)).
      * intros k v Hk Hv. destruct (decide (playerId = k)) as [<- | Hne].
        -- by rewrite get_delete_eq in Hv.
        -- rewrite get_delete_ne in Hv by done. apply Hall in Hv.
           split; [|done]. intros Hhost. exfalso. apply Hne.
           rewrite Hid. symmetry. by apply Hv.
      * done.
  - (* toggleReady *)
    split.
    + rewrite get_modify, Hh. case_bool_decide; by eexists.
    + apply (all_modify Q); [intros k0 v0 _; apply Hall|].
      intros v Hv. apply Hall in Hv. exact Hv.
  - (* startGame *)
    split; [rewrite get_forEach, Hh; by eexists|].
    apply (all_forEach Q); [exact Hall|]. intros k v Hv. exact Hv.
  - (* startRound *)
    split; [rewrite get_forEach, Hh; by eexists|].
    apply (all_forEach Q); [exact Hall|]. intros k v Hv. exact Hv.
  - (* submitGuess *)
    split.
    + rewrite get_modify, Hh. case_bool_decide; by eexists.
    + apply (all_modify Q); [intros k0 v0 _; apply Hall|].
      intros _ _.
      match goal with Hp : Obj.get _ _ = Some player |- _ => exact (Hall _ _ Hp) end.
  - split.
    + rewrite get_modify, Hh. case_bool_decide; by eexists.
    + apply (all_modify Q); [intros k0 v0 _; apply Hall|].
      intros _ _.
      match goal with Hp : Obj.get _ _ = Some player |- _ => exact (Hall _ _ Hp) end.
  - (* resetLobby *)
    split; [rewrite get_forEach, Hh; by eexists|].
    apply (all_forEach Q); [exact Hall|]. intros k v Hv. exact Hv.
  - (* kickPlayer *)
    assert (targetPlayerId ≠ Lobby.hostId l) as Hne.
    { intros ->. pose proof (proj2 (Hall _ _ Hh) eq_refl) as Hhost. congruence. }
    split; [exists h; by rewrite get_delete_ne|]. apply (all_delete Q), Hall.
Qed.

Lemma change_shape (gm : GameManager) (op : Op) (l l' : Lobby.t) :
  lobbyChange gm op l l' →
  Lobby.code l' = Lobby.code l
  ∧ (Lobby.state l = waiting ∨ Lobby.state l = playing ∨ Lobby.state l = game_over →
     Lobby.state l' = waiting ∨ Lobby.state l' = playing ∨ Lobby.state l' = game_over).
Proof.
  destruct 1; lobby_fields; try destruct (_ >=? _)%Z; lobby_fields;
    (split; [reflexivity|]); try done; intros _; auto.
Qed.

Lemma newLobby_wellFormed (gm : GameManager) (op : Op) (c : jsstring) (l : Lobby.t) :
  newLobby gm op c l →
  playersWellFormed l ∧ roundsWellFormed l ∧ hostInvariant l
  ∧ Lobby.code l = c ∧ Lobby.state l = waiting.
Proof.
  intros (draws & playerId & now & socketId & playerName & avatar & rest & player
          & -> & Hcode & Hid & Hhost & Hscore & Hstreak & ->).
  split; [|split; [|split; [|done]]].
  - split; cbn [Lobby.players Obj.keys map fst Obj.get].
    + apply NoDup_singleton.
    + intros k p. case_bool_decide as Hk; [|done].
      intros [= <-]. repeat split; [congruence | | lia].
      rewrite Hscore. cbn [Num.notNegative]. lia.
  - unfold roundsWellFormed, usedSongIds.
    cbn [Lobby.roundHistory Lobby.currentRound map].
    split; [|split]; [| constructor | done].
    intros i r Hi. by rewrite lookup_nil in Hi.
  - split; cbn [Lobby.players Lobby.hostId Obj.get fst].
    + exists player. by rewrite bool_decide_eq_true_2.
    + intros k p. case_bool_decide as Hk; [|done].
      intros [= <-]. by rewrite Hhost.
Qed.

(** A property of lobbies that holds of every new lobby and is kept by
    every change holds of every lobby of the service. *)
Lemma run_lobbies_ind (P : jsstring → Lobby.t → Prop) :
  (∀ gm op c l',
     (∀ c l, lobbies gm !! c = Some l → P c l) →
     lobbies (step gm op) !! c = Some l' → P c l') →
  ∀ ops c l, lobbies (run ops newGameManager) !! c = Some l → P c l.
Proof.
  intros Hstep ops. unfold run.
  assert (∀ c l, lobbies newGameManager !! c = Some l → P c l) as Hnew.
  { intros c l Hl. cbn in Hl. by rewrite lookup_empty in Hl. }
  revert Hnew. generalize newGameManager.
  induction ops as [|op ops IH]; intros gm Hgm; [exact Hgm|].
  cbn [fold_left]. apply IH. intros c l'. by apply Hstep.
Qed.

Lemma run_playersWellFormed (ops : list Op) (c : jsstring) (l : Lobby.t) :
  lobbies (run ops newGameManager) !! c = Some l → playersWellFormed l.
Proof.
  revert ops c l. apply (run_lobbies_ind (fun _ l => playersWellFormed l)).
  intros gm op c l' IH Hl'.
  destruct (step_change gm op c l' Hl') as [Hold | [(l & Hl & Hchange) | Hnew]].
  - by eapply IH.
  - eapply change_playersWellFormed; [done|]. by eapply IH.
  - by apply newLobby_wellFormed in Hnew as (Hwf & _).
Qed.

Lemma ids_are_keys (o : Obj.t Player.t) :
  NoDup (Obj.keys o) →
  (∀ k p, Obj.get k o = Some p → Player.id p = k) →
  map Player.id (Obj.values o) = Obj.keys o.
Proof.
  intros Hnd Hid. unfold Obj.values, Obj.keys. rewrite map_map.
  apply map_ext_in. intros [k p] Hin. cbn [fst snd].
  apply Hid. by apply In_get_NoDup.
Qed.

Lemma hosts_count (o : Obj.t Player.t) (hostId : jsstring) (h : Player.t) :
  NoDup (Obj.keys o) →
  Obj.get hostId o = Some h →
  (∀ k p, Obj.get k o = Some p → (Player.isHost p = true ↔ k = hostId)) →
  List.filter Player.isHost (Obj.values o) = [h].
Proof.
  induction o as [|[k0 v0] o IH]; [done|].
  cbn [Obj.keys Obj.values map fst snd Obj.get List.filter].
  fold (Obj.keys o). fold (Obj.values o).
  intros [Hnotin Hnd]%NoDup_cons Hh Hall.
  assert (∀ k p, Obj.get k o = Some p → k ≠ k0) as Hother.
  { intros k p Hp ->. apply Hnotin, list_elem_of_In.
    apply get_Some_In in Hp. unfold Obj.keys. apply in_map_iff. by exists (k0, p). }
  case_bool_decide as Hk0.
  - injection Hh as <-. subst k0.
    rewrite (proj2 (Hall hostId v0 ltac:(by rewrite bool_decide_eq_true_2)) eq_refl).
    f_equal. apply length_zero_iff_nil, filter_length_0.
    intros p Hin. apply in_map_iff in Hin as ([k p'] & <- & Hin). cbn [snd].
    apply (In_get_NoDup _ _ _ Hnd) in Hin.
    pose proof (Hother _ _ Hin) as Hne.
    destruct (Player.isHost p') eqn:Hhost; [|done].
    exfalso. apply Hne.
    apply (Hall k p'); [by rewrite bool_decide_eq_false_2 by done | done].
  - destruct (Player.isHost v0) eqn:Hhost0.
    + exfalso. apply Hk0.
      apply (Hall k0 v0); [by rewrite bool_decide_eq_true_2 | done].
    + apply IH; [done | done |].
      intros k p Hp. apply Hall.
      rewrite bool_decide_eq_false_2; [done|].
      intros ->. by apply (Hother _ _ Hp).
Qed.

(** X19.  Whatever the calls made on a new service, in every lobby the
    rounds of the history are numbered 1, 2, ... in order and are in phase
    [reveal], no two of them played the same song, and a round in progress
    is in phase [playing], has the next number, and plays a song that none
    of them played. *)
Theorem rounds_numbered_songs_distinct (ops : list Op) (c : jsstring) (l : Lobby.t) :
  lobbies (run ops newGameManager) !! c = Some l →
  (∀ i r, Lobby.roundHistory l !! i = Some r →
          RoundState.roundNumber r = (Z.of_nat i + 1)%Z
          ∧ RoundState.phase r = phase_reveal)
  ∧ NoDup (map (fun r => Song.id (RoundState.song r)) (Lobby.roundHistory l))
  ∧ (∀ r, Lobby.currentRound l = Some r →
          RoundState.roundNumber r = (Z.of_nat (length (Lobby.roundHistory l)) + 1)%Z
          ∧ RoundState.phase r = phase_playing
          ∧ ∀ r0, In r0 (Lobby.roundHistory l) →
                  Song.id (RoundState.song r0) ≠ Song.id (RoundState.song r)).
Proof.
  intros Hl.
  assert (roundsWellFormed l) as (Hhist & Hnd & Hcur).
  { revert ops c l Hl. apply (run_lobbies_ind (fun _ l => roundsWellFormed l)).
    intros gm op c l' IH Hl'.
    destruct (step_change gm op c l' Hl') as [Hold | [(l & Hl & Hchange) | Hnew]].
    - by eapply IH.
    - eapply change_roundsWellFormed; [done|]. by eapply IH.
    - by apply newLobby_wellFormed in Hnew as (_ & Hwf & _). }
  split; [exact Hhist|]. split; [exact Hnd|].
  intros r Hr. destruct (Hcur r Hr) as (Hnumber & Hphase & Hunused).
  split; [done|]. split; [done|].
  intros r0 Hin Heq. apply Hunused. rewrite <- Heq.
  apply list_elem_of_In. unfold usedSongIds. apply in_map_iff. by exists r0.
Qed.

(** X20.  Whatever the calls made on a new service, every lobby holds each
    player once, under the player's own id, so the players of a lobby have
    distinct ids; no streak is negative, and no score is below zero: a
    score is an integer that is not negative, or [NaN], or [+Infinity]. *)
Theorem players_wellformed (ops : list Op) (c : jsstring) (l : Lobby.t) :
  lobbies (run ops newGameManager) !! c = Some l →
  NoDup (Obj.keys (Lobby.players l))
  ∧ map Player.id (Obj.values (Lobby.players l)) = Obj.keys (Lobby.players l)
  ∧ NoDup (map Player.id (Obj.values (Lobby.players l)))
  ∧ ∀ p, In p (Obj.values (Lobby.players l)) →
         Obj.get (Player.id p) (Lobby.players l) = Some p
         ∧ (0 ≤ Player.streak p)%Z
         ∧ ((∃ z, Player.score p = Num.Int z ∧ (0 ≤ z)%Z)
            ∨ Player.score p = Num.NaN
            ∨ Player.score p = Num.Infinity false).
Proof.
  intros Hl. destruct (run_playersWellFormed ops c l Hl) as [Hnd Hall].
  assert (map Player.id (Obj.values (Lobby.players l)) = Obj.keys (Lobby.players l))
    as Hids by (apply ids_are_keys; [done|]; intros k p Hp; by apply Hall).
  split; [done|]. split; [done|]. split; [by rewrite Hids|].
  intros p Hin. apply in_map_iff in Hin as ([k p'] & <- & Hin). cbn [snd].
  apply (In_get_NoDup _ _ _ Hnd) in Hin.
  destruct (Hall _ _ Hin) as (-> & Hscore & Hstreak).
  split; [done|]. split; [done|].
  destruct (Player.score p') as [z| |[]]; cbn [Num.notNegative] in Hscore;
    [left; by exists z | by right; left | done | by right; right].
Qed.

(** X21.  When no [joinLobby] call comes with a player id the lobby joined
    already has, every lobby has its host among its players, under
    [hostId], and the host is the one player with [isHost] set. *)
Theorem single_host (ops : list Op) (c : jsstring) (l : Lobby.t) :
  freshPlayerIds newGameManager ops →
  lobbies (run ops newGameManager) !! c = Some l →
  ∃ h, Obj.get (Lobby.hostId l) (Lobby.players l) = Some h
       ∧ Player.id h = Lobby.hostId l
       ∧ List.filter Player.isHost (Obj.values (Lobby.players l)) = [h].
Proof.
  intros Hfresh Hl.
  destruct (run_playersWellFormed ops c l Hl) as [Hnd Hids].
  assert (hostInvariant l) as [[h Hh] Hall].
  { clear Hnd Hids. revert c l Hl. unfold run.
    assert (∀ c l, lobbies newGameManager !! c = Some l → hostInvariant l) as Hnew.
    { intros c l Hl. cbn in Hl. by rewrite lookup_empty in Hl. }
    revert Hfresh Hnew. generalize newGameManager.
    induction ops as [|op ops IH]; intros gm Hfresh Hgm; [exact Hgm|].
    destruct Hfresh as [Hop Hfresh]. cbn [fold_left].
    apply (IH _ Hfresh). intros c l' Hl'.
    destruct (step_change gm op c l' Hl') as [Hold | [(l & Hl & Hchange) | Hnew]].
    - by eapply Hgm.
    - eapply change_hostInvariant; [done | done |]. by eapply Hgm.
    - by apply newLobby_wellFormed in Hnew as (_ & _ & Hwf & _). }
  exists h. split; [done|]. split; [by apply Hids|].
  by apply (hosts_count _ (Lobby.hostId l)).
Qed.

(** X22.  Whatever the calls made on a new service, every lobby is stored
    under its own code, which has five characters of the code alphabet,
    and is in state [waiting], [playing] or [game_over]. *)
Theorem lobby_codes_states (ops : list Op) (c : jsstring) (l : Lobby.t) :
  lobbies (run ops newGameManager) !! c = Some l →
  Lobby.code l = c
  ∧ length c = 5
  ∧ (∀ ch, In ch c → In ch chars)
  ∧ (Lobby.state l = waiting ∨ Lobby.state l = playing ∨ Lobby.state l = game_over).
Proof.
  revert ops c l.
  apply (run_lobbies_ind
           (fun c l => Lobby.code l = c ∧ length c = 5 ∧ (∀ ch, In ch c → In ch chars)
                       ∧ (Lobby.state l = waiting ∨ Lobby.state l = playing
                          ∨ Lobby.state l = game_over))).
  intros gm op c l' IH Hl'.
  destruct (step_change gm op c l' Hl') as [Hold | [(l & Hl & Hchange) | Hnew]].
  - by eapply IH.
  - destruct (IH c l Hl) as (Hcode & Hlen & Hchars & Hstate).
    destruct (change_shape gm op l l' Hchange) as [Hcode' Hstate'].
    split; [congruence|]. split; [done|]. split; [done|]. by apply Hstate'.
  - pose proof (newLobby_wellFormed gm op c l' Hnew) as (_ & _ & _ & Hcode & Hstate).
    destruct Hnew as (draws & playerId & now & socketId & playerName & avatar & rest
                      & player & _ & Hgen & _).
    apply generateCode_returns in Hgen as (k & -> & _ & Hlen & _).
    split; [done|]. split; [|split; [|by left]].
    + unfold attemptCode. rewrite length_map, length_take, length_drop. lia.
    + unfold attemptCode. intros ch (r & <- & _)%in_map_iff. apply randomChar_In.
Qed.
End Invariants.

Lemma rounds_numbered_songs_distinct_witness :
  ∃ l, lobbies (run (H := asciiBuiltins) lateSettingsTrace newGameManager) !! js "ABCDE"
       = Some l
       ∧ NoDup (map (fun r => Song.id (RoundState.song r)) (Lobby.roundHistory l)).
Proof.
  destruct (lobbies (run (H := asciiBuiltins) lateSettingsTrace newGameManager)
              !! js "ABCDE") as [l|] eqn:Hl; [|vm_compute in Hl; discriminate Hl].
  exists l. split; [reflexivity|].
  exact (proj1 (proj2 (rounds_numbered_songs_distinct (H := asciiBuiltins)
                         lateSettingsTrace (js "ABCDE") l Hl))).
Defined.

(** The game of a host and a guest, after the guest has guessed the song of
    the first round. *)
Lemma players_wellformed_witness :
  ∃ l, lobbies (run (H := asciiBuiltins) twoPlayerTrace newGameManager) !! js "ABCDE"
       = Some l
       ∧ map (fun p => (Player.id p, Player.score p, Player.streak p))
             (Obj.values (Lobby.players l))
         = [(js "host00000001", Num.Int 0, 0%Z); (js "guest0000001", Num.Int 1049, 1%Z)]
       ∧ NoDup (map Player.id (Obj.values (Lobby.players l)))
       ∧ ∀ p, In p (Obj.values (Lobby.players l)) →
              Obj.get (Player.id p) (Lobby.players l) = Some p
              ∧ (0 ≤ Player.streak p)%Z
              ∧ ((∃ z, Player.score p = Num.Int z ∧ (0 ≤ z)%Z)
                 ∨ Player.score p = Num.NaN
                 ∨ Player.score p = Num.Infinity false).
Proof.
  destruct (lobbies (run (H := asciiBuiltins) twoPlayerTrace newGameManager)
              !! js "ABCDE") as [l|] eqn:Hl; [|vm_compute in Hl; discriminate Hl].
  exists l. split; [reflexivity|].
  pose proof (players_wellformed (H := asciiBuiltins) twoPlayerTrace (js "ABCDE") l Hl)
    as (_ & _ & Hnd & Hall).
  split; [|split; [exact Hnd | exact Hall]].
  vm_compute in Hl. injection Hl as <-. reflexivity.
Defined.

Lemma single_host_witness :
  ∃ l h, lobbies (run (H := asciiBuiltins) hostLeavesTrace newGameManager) !! js "ABCDE"
         = Some l
         ∧ Obj.get (Lobby.hostId l) (Lobby.players l) = Some h
         ∧ List.filter Player.isHost (Obj.values (Lobby.players l)) = [h].
Proof.
  assert (freshPlayerIds (H := asciiBuiltins) newGameManager hostLeavesTrace) as Hfresh.
  { unfold hostLeavesTrace. cbn [freshPlayerIds freshPlayerId].
    split; [exact I|]. split; [|split; [exact I | exact I]].
    intros l Hl. vm_compute in Hl. injection Hl as <-. reflexivity. }
  destruct (lobbies (run (H := asciiBuiltins) hostLeavesTrace newGameManager)
              !! js "ABCDE") as [l|] eqn:Hl; [|vm_compute in Hl; discriminate Hl].
  destruct (single_host (H := asciiBuiltins) hostLeavesTrace (js "ABCDE") l Hfresh Hl)
    as (h & Hh & _ & Hhosts).
  exists l, h. split; [reflexivity|]. split; [exact Hh | exact Hhosts].
Defined.

Lemma lobby_codes_states_witness :
  ∃ l, lobbies (run (H := asciiBuiltins) lateSettingsTrace newGameManager) !! js "ABCDE"
       = Some l
       ∧ Lobby.code l = js "ABCDE".
Proof.
  destruct (lobbies (run (H := asciiBuiltins) lateSettingsTrace newGameManager)
              !! js "ABCDE") as [l|] eqn:Hl; [|vm_compute in Hl; discriminate Hl].
  exists l. split; [reflexivity|].
  exact (proj1 (lobby_codes_states (H := asciiBuiltins) lateSettingsTrace (js "ABCDE") l Hl)).
Defined.

(** ** A whole game *)

Lemma availableSongs_nonempty (lobby : Lobby.t) :
  NoDup (map Song.id (Lobby.songs lobby)) →
  length (Lobby.roundHistory lobby) < length (Lobby.songs lobby) →
  availableSongs lobby ≠ [].
Proof.
  intros Hnd Hlt Hnone.
  assert (∀ k, k ∈ map Song.id (Lobby.songs lobby) → k ∈ usedSongIds lobby) as Hincl.
  { intros k (s & <- & Hin)%list_elem_of_In%in_map_iff.
    destruct (decide (Song.id s ∈ usedSongIds lobby)) as [Hused | Hunused]; [done|].
    assert (In s (availableSongs lobby)) as Hs by (by apply availableSongs_In).
    by rewrite Hnone in Hs. }
  pose proof (submseteq_length _ _ (NoDup_submseteq _ _ Hnd Hincl)) as Hlen.
  unfold usedSongIds in Hlen. rewrite !length_map in Hlen. lia.
Qed.

Section Game.
Context `{Builtins}.
Variable lobbyCode : jsstring.

Lemma submitGuess_keeps (gm : GameManager) (now : Z) (socketId guess : jsstring)
  (l : Lobby.t) :
  lobbies gm !! lobbyCode = Some l →
  ∃ l', lobbies (step gm (OpSubmitGuess now socketId guess)) !! lobbyCode = Some l'
        ∧ Lobby.state l' = Lobby.state l
        ∧ Lobby.roundHistory l' = Lobby.roundHistory l
        ∧ Lobby.songs l' = Lobby.songs l
        ∧ Lobby.settings l' = Lobby.settings l
        ∧ Obj.keys (Lobby.players l') = Obj.keys (Lobby.players l)
        ∧ (Lobby.currentRound l = None → Lobby.currentRound l' = None)
        ∧ (Lobby.currentRound l ≠ None → Lobby.currentRound l' ≠ None).
Proof.
  intros Hl.
  assert (is_Some (lobbies (step gm (OpSubmitGuess now socketId guess)) !! lobbyCode))
    as [l' Hl'].
  { cbn [step]. unfold submitGuess, storeLobbyOfSocket.
    repeat case_match; simplify_eq; cbn [stateOf lobbies setLobbies]; try (by eexists);
      apply lookup_insert_is_Some'; right; by eexists. }
  exists l'. split; [exact Hl'|].
  destruct (step_change _ _ _ _ Hl') as [Hold | [(l0 & Hl0 & Hchange) | Hnew]].
  - rewrite Hl in Hold. injection Hold as <-. by repeat split.
  - rewrite Hl in Hl0. injection Hl0 as <-.
    inversion Hchange; subst; lobby_fields; rewrite ?keys_modify;
      (repeat split; [done .. | congruence | done]).
  - by destruct Hnew as (? & ? & ? & ? & ? & ? & ? & ? & [=] & _).
Qed.

Lemma guesses_keep (gs : list (Z * jsstring * jsstring)) (gm : GameManager)
  (l : Lobby.t) :
  lobbies gm !! lobbyCode = Some l →
  ∃ l', lobbies (run (map (fun g => OpSubmitGuess (fst (fst g)) (snd (fst g)) (snd g)) gs)
                   gm) !! lobbyCode = Some l'
        ∧ Lobby.state l' = Lobby.state l
        ∧ Lobby.roundHistory l' = Lobby.roundHistory l
        ∧ Lobby.songs l' = Lobby.songs l
        ∧ Lobby.settings l' = Lobby.settings l
        ∧ Obj.keys (Lobby.players l') = Obj.keys (Lobby.players l)
        ∧ (Lobby.currentRound l ≠ None → Lobby.currentRound l' ≠ None).
Proof.
  revert gm l. induction gs as [|[[now socketId] guess] gs IH]; intros gm l Hl.
  - exists l. by repeat split.
  - cbn [map run fold_left fst snd].
    destruct (submitGuess_keeps gm now socketId guess l Hl)
      as (l1 & Hl1 & Hstate1 & Hhist1 & Hsongs1 & Hset1 & Hkeys1 & _ & Hcur1).
    destruct (IH _ _ Hl1) as (l' & Hl' & Hstate & Hhist & Hsongs & Hset & Hkeys & Hcur).
    exists l'. split; [exact Hl'|].
    rewrite Hstate, Hhist, Hsongs, Hset, Hkeys. repeat split; try done.
    intros Hsome. by apply Hcur, Hcur1.
Qed.

Lemma round_played (r : RoundPlay) (gm : GameManager) (l : Lobby.t) :
  lobbies gm !! lobbyCode = Some l →
  Lobby.state l = playing →
  Lobby.currentRound l = None →
  NoDup (map Song.id (Lobby.songs l)) →
  (Z.of_nat (length (Lobby.roundHistory l)) < GameSettings.rounds (Lobby.settings l))%Z →
  (GameSettings.rounds (Lobby.settings l) ≤ Z.of_nat (length (Lobby.songs l)))%Z →
  ∃ l', lobbies (run (roundOps lobbyCode r) gm) !! lobbyCode = Some l'
        ∧ Lobby.songs l' = Lobby.songs l
        ∧ Lobby.settings l' = Lobby.settings l
        ∧ Obj.keys (Lobby.players l') = Obj.keys (Lobby.players l)
        ∧ Lobby.currentRound l' = None
        ∧ length (Lobby.roundHistory l') = S (length (Lobby.roundHistory l))
        ∧ Lobby.state l'
          = if bool_decide (Z.of_nat (S (length (Lobby.roundHistory l)))
                            = GameSettings.rounds (Lobby.settings l))
            then game_over else playing.
Proof.
  intros Hl Hstate Hcur Hnd Hlt Hle.
  unfold roundOps, run. cbn [fold_left]. rewrite fold_left_app. cbn [fold_left].
  (* startRound *)
  assert (∃ l1, lobbies (step gm (OpStartRound (rp_random r) (rp_start r) lobbyCode))
                  !! lobbyCode = Some l1
                ∧ Lobby.state l1 = playing
                ∧ Lobby.roundHistory l1 = Lobby.roundHistory l
                ∧ Lobby.songs l1 = Lobby.songs l
                ∧ Lobby.settings l1 = Lobby.settings l
                ∧ Obj.keys (Lobby.players l1) = Obj.keys (Lobby.players l)
                ∧ Lobby.currentRound l1 ≠ None)
    as (l1 & Hl1 & Hstate1 & Hhist1 & Hsongs1 & Hset1 & Hkeys1 & Hcur1).
  { cbn [step]. unfold startRound. rewrite Hl.
    rewrite bool_decide_eq_false_2 by (by rewrite Hstate; intros Hne).
    assert ((Z.of_nat (length (Lobby.roundHistory l)) + 1
             >? GameSettings.rounds (Lobby.settings l))%Z = false) as ->
      by (rewrite Z.gtb_ltb; apply Z.ltb_ge; lia).
    pose proof (availableSongs_nonempty l Hnd ltac:(lia)) as Havail.
    destruct (availableSongs l) as [|first rest]; [done|].
    cbn [snd lobbies setLobbies]. rewrite lookup_insert_eq. eexists. split; [reflexivity|].
    lobby_fields. rewrite keys_forEach. by repeat split. }
  (* the guesses *)
  destruct (guesses_keep (rp_guesses r) _ l1 Hl1)
    as (l2 & Hl2 & Hstate2 & Hhist2 & Hsongs2 & Hset2 & Hkeys2 & Hcur2).
  fold (run (map (fun g => OpSubmitGuess (fst (fst g)) (snd (fst g)) (snd g))
               (rp_guesses r))
          (step gm (OpStartRound (rp_random r) (rp_start r) lobbyCode))).
  set (gm2 := run _ _) in *.
  (* endRound *)
  cbn [step]. unfold endRound. rewrite Hl2.
  destruct (Lobby.currentRound l2) as [round|] eqn:Hround; [|by destruct (Hcur2 Hcur1)].
  cbn [snd lobbies setLobbies]. rewrite lookup_insert_eq. eexists. split; [reflexivity|].
  lobby_fields. rewrite Hhist2, Hhist1, Hset2, Hset1, length_app. cbn [length].
  replace (length (Lobby.roundHistory l) + 1) with (S (length (Lobby.roundHistory l)))
    by lia.
  destruct (_ >=? _)%Z eqn:Hover; rewrite Z.geb_leb in Hover; lobby_fields;
    rewrite ?Hsongs2, ?Hsongs1, ?Hkeys2, ?Hkeys1, ?Hstate2, ?Hstate1, ?length_app;
    cbn [length].
  - apply Z.leb_le in Hover. rewrite bool_decide_eq_true_2 by lia.
    repeat split; first [done | lia | congruence].
  - apply Z.leb_gt in Hover. rewrite bool_decide_eq_false_2 by lia.
    repeat split; first [done | lia | congruence].
Qed.

Lemma game_progress (rs : list RoundPlay) (gm : GameManager) (l : Lobby.t) :
  lobbies gm !! lobbyCode = Some l →
  Lobby.state l = playing →
  Lobby.currentRound l = None →
  NoDup (map Song.id (Lobby.songs l)) →
  (Z.of_nat (length (Lobby.roundHistory l)) < GameSettings.rounds (Lobby.settings l))%Z →
  (Z.of_nat (length (Lobby.roundHistory l) + length rs)
   ≤ GameSettings.rounds (Lobby.settings l))%Z →
  (GameSettings.rounds (Lobby.settings l) ≤ Z.of_nat (length (Lobby.songs l)))%Z →
  ∃ l', lobbies (run (gameOps lobbyCode rs) gm) !! lobbyCode = Some l'
        ∧ Lobby.songs l' = Lobby.songs l
        ∧ Lobby.settings l' = Lobby.settings l
        ∧ Obj.keys (Lobby.players l') = Obj.keys (Lobby.players l)
        ∧ Lobby.currentRound l' = None
        ∧ length (Lobby.roundHistory l') = length (Lobby.roundHistory l) + length rs
        ∧ Lobby.state l'
          = if bool_decide (Z.of_nat (length (Lobby.roundHistory l) + length rs)
                            = GameSettings.rounds (Lobby.settings l))
            then game_over else playing.
Proof.
  revert gm l. induction rs as [|r rs IH]; intros gm l Hl Hstate Hcur Hnd Hlt Hfit Hle.
  - exists l. cbn [length]. rewrite Nat.add_0_r.
    rewrite bool_decide_eq_false_2 by lia. by repeat split.
  - unfold gameOps, run. cbn [map concat]. rewrite fold_left_app.
    fold (run (roundOps lobbyCode r) gm). fold (gameOps lobbyCode rs).
    fold (run (gameOps lobbyCode rs) (run (roundOps lobbyCode r) gm)).
    cbn [length] in Hfit |- *.
    destruct (round_played r gm l Hl Hstate Hcur Hnd Hlt Hle)
      as (l1 & Hl1 & Hsongs1 & Hset1 & Hkeys1 & Hcur1 & Hlen1 & Hstate1).
    destruct rs as [|r' rs'].
    + exists l1. cbn [gameOps map concat run fold_left length].
      replace (length (Lobby.roundHistory l) + 1)
        with (S (length (Lobby.roundHistory l))) by lia.
      by repeat split.
    + rewrite bool_decide_eq_false_2 in Hstate1 by (cbn [length] in Hfit; lia).
      destruct (IH _ l1 Hl1 Hstate1 Hcur1) as
        (l' & Hl' & Hsongs & Hset & Hkeys & Hcur' & Hlen & Hstate').
      * by rewrite Hsongs1.
      * rewrite Hlen1, Hset1. cbn [length] in Hfit. lia.
      * rewrite Hlen1, Hset1. cbn [length] in Hfit |- *. lia.
      * by rewrite Hset1, Hsongs1.
      * exists l'. split; [exact Hl'|].
        rewrite Hsongs, Hset, Hkeys, Hlen, Hstate', Hsongs1, Hset1, Hkeys1, Hlen1.
        replace (S (length (Lobby.roundHistory l)) + length (r' :: rs'))
          with (length (Lobby.roundHistory l) + S (length (r' :: rs'))) by lia.
        by repeat split.
Qed.

(** X23.  A game that has been started can be played to its end: in a
    lobby in state [playing] with an empty history, whose songs have
    distinct ids and whose [settings.rounds] is positive and at most the
    number of songs, every round up to [settings.rounds] starts and ends,
    whatever guesses come in during the rounds; the history then holds one
    round per round played, and the lobby is in state [game_over] exactly
    when [settings.rounds] rounds have been played.  Songs, settings and
    the set of players are those of the start. *)
Theorem game_played_to_the_end (rs : list RoundPlay) (gm : GameManager) (l : Lobby.t) :
  lobbies gm !! lobbyCode = Some l →
  Lobby.state l = playing →
  Lobby.currentRound l = None →
  Lobby.roundHistory l = [] →
  NoDup (map Song.id (Lobby.songs l)) →
  (0 < GameSettings.rounds (Lobby.settings l) ≤ Z.of_nat (length (Lobby.songs l)))%Z →
  (Z.of_nat (length rs) ≤ GameSettings.rounds (Lobby.settings l))%Z →
  ∃ l', lobbies (run (gameOps lobbyCode rs) gm) !! lobbyCode = Some l'
        ∧ length (Lobby.roundHistory l') = length rs
        ∧ Lobby.currentRound l' = None
        ∧ (Lobby.state l' = game_over
           ↔ Z.of_nat (length rs) = GameSettings.rounds (Lobby.settings l))
        ∧ (Lobby.state l' = playing
           ↔ (Z.of_nat (length rs) < GameSettings.rounds (Lobby.settings l))%Z)
        ∧ Lobby.songs l' = Lobby.songs l
        ∧ Lobby.settings l' = Lobby.settings l
        ∧ Obj.keys (Lobby.players l') = Obj.keys (Lobby.players l).
Proof.
  intros Hl Hstate Hcur Hhist Hnd [Hpos Hle] Hfit.
  destruct (game_progress rs gm l Hl Hstate Hcur Hnd)
    as (l' & Hl' & Hsongs & Hset & Hkeys & Hcur' & Hlen & Hstate');
    rewrite ?Hhist; cbn [length]; try lia.
  rewrite Hhist in Hlen, Hstate'. cbn [length] in Hlen, Hstate'.
  rewrite Nat.add_0_l in Hlen, Hstate'.
  exists l'. split; [exact Hl'|]. split; [exact Hlen|]. split; [exact Hcur'|].
  rewrite Hstate'. case_bool_decide as Hlast.
  - repeat split; try done. lia.
  - repeat split; try done. lia.
Qed.
End Game.

Lemma game_played_to_the_end_witness :
  ∃ l', lobbies (run (H := asciiBuiltins) (gameOps (js "ABCDE") threeRounds) gameStarted)
          !! js "ABCDE" = Some l'
        ∧ length (Lobby.roundHistory l') = 3
        ∧ Lobby.state l' = game_over.
Proof.
  destruct (lobbies gameStarted !! js "ABCDE") as [l|] eqn:Hl;
    [|vm_compute in Hl; discriminate Hl].
  pose proof Hl as Hl0. vm_compute in Hl0. injection Hl0 as <-.
  destruct (game_played_to_the_end (H := asciiBuiltins) (js "ABCDE") threeRounds
              gameStarted _ Hl)
    as (l' & Hl' & Hlen & _ & Hover & _).
  - reflexivity.
  - reflexivity.
  - reflexivity.
  - apply (bool_decide_unpack _). vm_compute. exact I.
  - cbn. lia.
  - cbn. lia.
  - exists l'. split; [exact Hl'|]. split; [exact Hlen|]. apply Hover. reflexivity.
Defined.

(** ** The normal form of a guess or a title *)

Lemma collapseSpaces_chars (inRun : bool) (t : jsstring) (c : N) :
  In c (collapseSpaces inRun t) → c = 32%N ∨ (In c t ∧ isSpace c = false).
Proof.
  revert inRun. induction t as [|x t IH]; intros inRun; cbn [collapseSpaces]; [done|].
  destruct (isSpace x) eqn:Hx; [destruct inRun|].
  - intros Hin. destruct (IH _ Hin) as [-> | [Hin' Hc]]; [by left|].
    right. split; [by right | done].
  - intros [<- | Hin]; [by left|].
    destruct (IH _ Hin) as [-> | [Hin' Hc]]; [by left|].
    right. split; [by right | done].
  - intros [<- | Hin]; [right; split; [by left | done]|].
    destruct (IH _ Hin) as [-> | [Hin' Hc]]; [by left|].
    right. split; [by right | done].
Qed.

(** After [replace(/\s+/g, ' ')] no space follows a space. *)
Lemma collapseSpaces_single (inRun : bool) (t a b : jsstring) :
  collapseSpaces inRun t = a ++ 32%N :: b →
  head b ≠ Some 32%N ∧ (inRun = true → a ≠ []).
Proof.
  revert inRun a b. induction t as [|x t IH]; intros inRun a b; cbn [collapseSpaces].
  - by destruct a.
  - destruct (isSpace x) eqn:Hx; [destruct inRun|].
    + apply IH.
    + destruct a as [|y a]; cbn [app].
      * intros [= <-]. split; [|done]. intros Hhead.
        destruct (collapseSpaces true t) as [|z r] eqn:Hr; [done|].
        cbn [head] in Hhead. injection Hhead as ->.
        by destruct (proj2 (IH true [] r Hr) eq_refl).
      * intros [= <- Heq]. split; [by apply (IH true a b) | done].
    + destruct a as [|y a]; cbn [app].
      * intros [= -> _]. by vm_compute in Hx.
      * intros [= <- Heq]. split; [by apply (IH false a b) | done].
Qed.

Lemma trimStart_spec (s : jsstring) :
  ∃ pre, s = pre ++ trimStart s ∧ ∀ c r, trimStart s = c :: r → isSpace c = false.
Proof.
  induction s as [|x s (pre & Hpre & Hhead)]; cbn [trimStart].
  - by exists [].
  - destruct (isSpace x) eqn:Hx.
    + exists (x :: pre). split; [cbn [app]; by f_equal | done].
    + exists []. split; [done|]. by intros c r [= <- _].
Qed.

(** [trim] cuts a string at both ends, and what is left neither starts nor ends
    with white space. *)
Lemma trim_spec (u : jsstring) :
  ∃ pre post,
    u = pre ++ trim u ++ post
    ∧ (∀ c r, trim u = c :: r → isSpace c = false)
    ∧ (∀ r c, trim u = r ++ [c] → isSpace c = false).
Proof.
  unfold trim. destruct (trimStart_spec u) as (pre & Hpre & Hhead).
  destruct (trimStart_spec (rev (trimStart u))) as (q & Hq & Hlast).
  set (v := trimStart u) in *. set (z := trimStart (rev v)) in *.
  assert (v = rev z ++ rev q) as Hv.
  { rewrite <- rev_app_distr, <- Hq. by rewrite rev_involutive. }
  exists pre, (rev q). split; [by rewrite <- Hv|]. split.
  - intros c r Hz. apply (Hhead c (r ++ rev q)). by rewrite Hv, Hz.
  - intros r c Hz. apply (Hlast c (rev r)).
    by rewrite <- (rev_involutive z), Hz, rev_app_distr.
Qed.

(** X24.  The normal form [normalize] gives consists of word characters
    ([A-Za-z0-9_]) and spaces, and every space stands between two word
    characters: it has no leading, trailing or double space, and no other
    white space or punctuation. *)
Theorem normalize_shape `{Builtins} (s : jsstring) :
  (∀ c, In c (normalize s) → isWord c = true ∨ c = 32%N)
  ∧ (∀ a b, normalize s = a ++ 32%N :: b →
            ∃ a' c d b', a = a' ++ [c] ∧ b = d :: b'
                         ∧ isWord c = true ∧ isWord d = true).
Proof.
  unfold normalize.
  set (t := List.filter _ _). set (u := collapseSpaces false t).
  destruct (trim_spec u) as (pre & post & Hu & Hhead & Hlast).
  assert (∀ c, In c u → isWord c = true ∨ c = 32%N) as Hchars.
  { intros c Hin. apply collapseSpaces_chars in Hin as [-> | [Hin Hc]]; [by right|].
    left. apply filter_In in Hin as [_ Hin]. by rewrite Hc, orb_false_r in Hin. }
  assert (∀ c, In c (trim u) → In c u) as Hsub.
  { intros c Hin. rewrite Hu. apply in_or_app. right. apply in_or_app. by left. }
  split; [intros c Hin; by apply Hchars, Hsub|].
  intros a b Hw.
  destruct (decide (a = [])) as [-> | Hne].
  { by pose proof (Hhead _ _ Hw). }
  apply exists_last in Hne as (a' & c & ->).
  destruct b as [|d b'].
  { by pose proof (Hlast _ _ Hw). }
  assert (c ≠ 32%N) as Hc.
  { intros ->.
    destruct (collapseSpaces_single false t (pre ++ a') (32%N :: d :: b' ++ post))
      as [Hdouble _]; [|done].
    fold u. rewrite Hu, Hw, <- !app_assoc. reflexivity. }
  assert (d ≠ 32%N) as Hd.
  { intros ->.
    destruct (collapseSpaces_single false t (pre ++ a' ++ [c]) (32%N :: b' ++ post))
      as [Hdouble _]; [|done].
    fold u. rewrite Hu, Hw, <- !app_assoc. reflexivity. }
  exists a', c, d, b'. split; [done|]. split; [done|]. split.
  - destruct (Hchars c) as [Hword | ->]; [|done|done].
    apply Hsub. rewrite Hw. apply in_or_app. left. apply in_or_app. right. by left.
  - destruct (Hchars d) as [Hword | ->]; [|done|done].
    apply Hsub. rewrite Hw. apply in_or_app. right. right. by left.
Qed.

(** ** The options of a round *)

(** X25.  The options [startRound] makes for a round, the two shuffles
    returning their input in some order: there is none in guess style
    [type]; in the styles [grid] and [multiple_choice] they are, in some
    order, the title of the song of the round and the titles of decoys,
    which are 8 (for [grid]) or 3 songs of the pool with another id than
    the song, or all such songs when there are fewer, no song taken more
    often than it is in the pool. *)
Theorem startRound_gridOptions (gm : GameManager) (rnd : Random) (now : Z)
  (lobbyCode : jsstring) (lobby : Lobby.t) (round : RoundState.t) (gm' : GameManager) :
  lobbies gm !! lobbyCode = Some lobby →
  startRound gm rnd now lobbyCode = (Some round, gm') →
  (∀ l, shuffleSongs rnd l ≡ₚ l) →
  (∀ l, shuffleTitles rnd l ≡ₚ l) →
  let style := GameSettings.guessStyle (Lobby.settings lobby) in
  let others :=
    List.filter (fun s => bool_decide (Song.id s ≠ Song.id (RoundState.song round)))
                (Lobby.songs lobby) in
  (style = type → RoundState.gridOptions round = None)
  ∧ (style ≠ type →
     ∃ options decoys,
       RoundState.gridOptions round = Some options
       ∧ options ≡ₚ map Song.title decoys ++ [Song.title (RoundState.song round)]
       ∧ decoys ⊆+ others
       ∧ length decoys = Nat.min (if bool_decide (style = grid) then 8 else 3)
                                 (length others)
       ∧ length options = S (length decoys)
       ∧ In (Song.title (RoundState.song round)) options).
Proof.
  intros Hl Hstart Hsongs Htitles style others. revert Hstart.
  unfold startRound. rewrite Hl.
  case_bool_decide; [done|]. destruct (_ >? _)%Z; [done|].
  destruct (availableSongs lobby) as [|first rest]; [done|].
  set (song := nth _ (first :: rest) first).
  intros [= <- _]. subst others.
  cbn [RoundState.gridOptions RoundState.song]. unfold makeGridOptions.
  cbn [Lobby.settings Lobby.songs Lobby.setPlayers]. fold style.
  set (others := List.filter _ (Lobby.songs lobby)).
  set (count := if bool_decide (style = grid) then 8 else 3).
  split.
  - intros ->. reflexivity.
  - intros Hstyle.
    assert (bool_decide (style = grid) || bool_decide (style = multiple_choice) = true)
      as -> by (by destruct style).
    exists (shuffleTitles rnd
              (map Song.title (take count (shuffleSongs rnd others)) ++ [Song.title song])),
           (take count (shuffleSongs rnd others)).
    split; [reflexivity|]. split; [apply Htitles|]. split.
    { etrans; [apply submseteq_take | apply Permutation_submseteq, Hsongs]. }
    split.
    { rewrite length_take. by rewrite (Permutation_length (Hsongs others)). }
    split.
    { rewrite (Permutation_length (Htitles _)), length_app, length_map.
      cbn [length]. lia. }
    apply (Permutation_in _ (Permutation_sym (Htitles _))).
    apply in_or_app. right. by left.
Qed.

(** The first round of a game in guess style [grid] with three songs: the
    options are the titles of the two other songs and of the song of the
    round. *)
Lemma startRound_gridOptions_witness :
  ∃ round gm' options decoys,
    startRound twoPlayerGame firstPick 1000 (js "ABCDE") = (Some round, gm')
    ∧ Song.title (RoundState.song round) = js "Yesterday"
    ∧ RoundState.gridOptions round = Some options
    ∧ options = [js "Imagine"; js "Hallelujah"; js "Yesterday"]
    ∧ options ≡ₚ map Song.title decoys ++ [js "Yesterday"]
    ∧ length decoys = 2
    ∧ In (js "Yesterday") options.
Proof.
  destruct (lobbies twoPlayerGame !! js "ABCDE") as [l|] eqn:Hl;
    [|vm_compute in Hl; discriminate Hl].
  destruct (startRound twoPlayerGame firstPick 1000 (js "ABCDE")) as [[round|] gm']
    eqn:Hstart; [|vm_compute in Hstart; discriminate Hstart].
  destruct (proj2 (startRound_gridOptions twoPlayerGame firstPick 1000 (js "ABCDE")
                     l round gm' Hl Hstart (fun l => Permutation_refl l)
                     (fun l => Permutation_refl l)))
    as (options & decoys & Hoptions & Hperm & _ & Hdecoys & _ & Hin).
  { vm_compute in Hl. injection Hl as <-. discriminate. }
  vm_compute in Hstart. injection Hstart as Hround _.
  vm_compute in Hl. injection Hl as <-.
  exists round, gm', options, decoys. rewrite <- Hround in *.
  split; [reflexivity|]. split; [reflexivity|]. split; [exact Hoptions|].
  split; [by injection Hoptions as <-|].
  split; [exact Hperm|]. split; [exact Hdecoys | exact Hin].
Defined.

(** ** updateSettings *)

Lemma merge_twice (s : GameSettings.t) (p : GameSettings.partial) :
  GameSettings.merge (GameSettings.merge s p) p = GameSettings.merge s p.
Proof.
  unfold GameSettings.merge.
  cbn [GameSettings.mode GameSettings.guessStyle GameSettings.rounds
       GameSettings.timePerRound GameSettings.snippetDuration GameSettings.maxPlayers
       GameSettings.hintsEnabled GameSettings.showArtist
       GameSettings.scoreMultiplierSpeed].
  f_equal.
  - by destruct (GameSettings.p_mode p).
  - by destruct (GameSettings.p_guessStyle p).
  - by destruct (GameSettings.p_rounds p).
  - by destruct (GameSettings.p_timePerRound p).
  - by destruct (GameSettings.p_snippetDuration p).
  - by destruct (GameSettings.p_maxPlayers p).
  - by destruct (GameSettings.p_hintsEnabled p).
  - by destruct (GameSettings.p_showArtist p).
  - by destruct (GameSettings.p_scoreMultiplierSpeed p).
Qed.

(** X26.  [updateSettings] by the host, in whatever state the lobby is,
    also during a game: the fields given replace those of the settings,
    the fields not given and everything else in the lobby are kept.  The
    same call made twice is the call made once, and a call with no field
    changes nothing. *)
Theorem updateSettings_spec (gm : GameManager) (socketId : jsstring)
  (settings : GameSettings.partial) (lobby : Lobby.t) :
  getLobbyBySocket gm socketId = Some lobby →
  getPlayerIdBySocket gm socketId = Some (Lobby.hostId lobby) →
  ∃ lobby' gm',
    updateSettings gm socketId settings = (Some lobby', gm')
    ∧ getLobbyBySocket gm' socketId = Some lobby'
    ∧ Lobby.setSettings (Lobby.settings lobby) lobby' = lobby
    ∧ GameSettings.rounds (Lobby.settings lobby')
      = default (GameSettings.rounds (Lobby.settings lobby))
                (GameSettings.p_rounds settings)
    ∧ GameSettings.maxPlayers (Lobby.settings lobby')
      = default (GameSettings.maxPlayers (Lobby.settings lobby))
                (GameSettings.p_maxPlayers settings)
    ∧ GameSettings.timePerRound (Lobby.settings lobby')
      = default (GameSettings.timePerRound (Lobby.settings lobby))
                (GameSettings.p_timePerRound settings)
    ∧ updateSettings gm' socketId settings = (Some lobby', gm')
    ∧ (settings = noSettings → lobby' = lobby ∧ gm' = gm).
Proof.
  intros Hl Hp. unfold updateSettings at 1. rewrite Hl, Hp.
  rewrite bool_decide_eq_false_2 by (intros Hne; by apply Hne).
  set (lobby' := Lobby.setSettings _ lobby).
  exists lobby', (storeLobbyOfSocket gm socketId lobby').
  split; [reflexivity|]. split; [by eapply getLobbyBySocket_store|].
  split; [by destruct lobby|]. split; [reflexivity|]. split; [reflexivity|].
  split; [reflexivity|]. split.
  - unfold updateSettings.
    rewrite (getLobbyBySocket_store gm socketId lobby lobby' Hl).
    rewrite getPlayerIdBySocket_store, Hp.
    rewrite bool_decide_eq_false_2 by (intros Hne; by apply Hne).
    rewrite storeLobbyOfSocket_twice. subst lobby'.
    cbn [Lobby.settings Lobby.setSettings Lobby.code Lobby.hostId Lobby.state
         Lobby.players Lobby.songs Lobby.currentRound Lobby.roundHistory
         Lobby.createdAt].
    by rewrite merge_twice.
  - intros ->.
    assert (lobby' = lobby) as Hsame.
    { subst lobby'. destruct lobby as [? ? ? ? s ? ? ? ?]. by destruct s. }
    split; [exact Hsame|]. rewrite Hsame. by apply storeLobbyOfSocket_same.
Qed.

Lemma updateSettings_spec_witness :
  ∃ lobby' gm',
    updateSettings gameStarted (js "sock-h") (onlyRounds 1) = (Some lobby', gm')
    ∧ GameSettings.rounds (Lobby.settings lobby') = 1%Z.
Proof.
  destruct (getLobbyBySocket gameStarted (js "sock-h")) as [l|] eqn:Hl;
    [|vm_compute in Hl; discriminate Hl].
  destruct (updateSettings_spec gameStarted (js "sock-h") (onlyRounds 1) l Hl)
    as (lobby' & gm' & Hupdate & _ & _ & Hrounds & _).
  - vm_compute in Hl. injection Hl as <-. reflexivity.
  - exists lobby', gm'. split; [exact Hupdate|]. exact Hrounds.
Defined.
